(** * A cache-aside product API over Redis: model and verification

    The program under study is a small Go service (main.go) with two HTTP
    handlers and a background sweeper:

    - [getProductHandler]: GET /product/{id}, cache-aside read with a hit
      counter and TTL refresh for popular entries;
    - [updateProductHandler]: PUT /product/{id}, write to the simulated
      database followed by invalidation of the two cache keys;
    - [cleanStaleProductKeys]: one pass of the periodic cache cleaner.

    The handlers are embedded as programs over a signature of atomic
    operations (the map accesses made under [fakeDBLock] and the go-redis
    calls).  The operations are interpreted over a [World] holding the
    simulated database, the Redis keyspace, a clock, a schedule of
    transport faults and the trace of operations issued so far.  Requests
    are run one after the other ([replay]) or as a pool of goroutines
    whose atomic steps a scheduler interleaves ([concurrent]). *)

From Stdlib Require Import ZArith String Ascii List DecimalString DecimalPos DecimalZ Lia.
From stdpp Require Import gmap strings list fin_maps.

Local Open Scope Z_scope.

(* ===================================================================== *)
(** ** Go base library *)
(* ===================================================================== *)

(** time.Duration counts nanoseconds. *)
Definition time_Second : Z := 1000000000.
Definition time_Millisecond : Z := 1000000.

Definition math_MaxInt64 : Z := 2 ^ 63 - 1.
Definition math_MinInt64 : Z := - 2 ^ 63.

Definition http_StatusNoContent : Z := 204.
Definition http_StatusBadRequest : Z := 400.
Definition http_StatusNotFound : Z := 404.

(** The [%d] verb of fmt.Sprintf. *)
Definition fmt_d (n : Z) : string := NilZero.string_of_int (Z.to_int n).

(** strconv.Atoi: optional sign, at least one decimal digit, value in the
    range of [int] (64 bits). *)
Definition strconv_Atoi (s : string) : option Z :=
  let parsed :=
    match s with
    | String "+"%char r => option_map Decimal.Pos (NilZero.uint_of_string r)
    | _ => NilZero.int_of_string s
    end in
  match parsed with
  | Some d =>
      let n := Z.of_int d in
      if (math_MinInt64 <=? n) && (n <=? math_MaxInt64) then Some n else None
  | None => None
  end.

(* ===================================================================== *)
(** ** Data model *)
(* ===================================================================== *)

Record Product : Type := mkProduct { ID : Z; Name : string; Price : Z }.

#[global] Instance Product_eq_dec : EqDecision Product.
Proof. solve_decision. Defined.

(** encoding/json, as far as the handlers use it on [Product]:
    [json_Marshal] never fails on this struct; [json_Unmarshal] decodes a
    cached value; [json_Decode] decodes a request body (a stream decoder,
    which need not agree with [json_Unmarshal] on trailing input). *)
Class JSON : Type := {
  json_Marshal : Product → string;
  json_Unmarshal : string → option Product;
  json_Decode : string → option Product
}.

Definition redisProductKeyPrefix : string := "product:".
Definition redisProductTTL : Z := 30 * time_Second.
Definition popularThreshold : Z := 2.

Definition redisProductKey (id : Z) : string :=
  redisProductKeyPrefix +:+ fmt_d id.

Definition redisProductHitsKey (id : Z) : string :=
  redisProductKeyPrefix +:+ fmt_d id +:+ ":hits".

(** The simulated database at start-up. *)
Definition fakeProductDB_init : gmap Z Product :=
  <[1 := mkProduct 1 "Apple" 100]>
    (<[2 := mkProduct 2 "Banana" 50]>
       (<[3 := mkProduct 3 "Cherry" 200]> ∅)).

(* ===================================================================== *)
(** ** The Redis backend *)
(* ===================================================================== *)

(** A key holds a string and, optionally, the absolute time (in
    milliseconds) at which it expires. *)
Record entry : Type := mkEntry { val : string; expire_at : option Z }.

#[global] Instance entry_eq_dec : EqDecision entry.
Proof. solve_decision. Defined.

(** The keyspace.  [kv] is the table of keys; it may still hold keys that
    are past their expiry and have not been reaped.  [slots] is the order
    in which SCAN walks the table: every key ever created has a slot, and
    deleting a key leaves its slot in place, so a cursor stays valid
    across deletions. *)
Record Redis : Type := mkRedis { kv : gmap string entry; slots : list string }.

Inductive redis_error : Type :=
| redis_Nil          (* the key does not exist *)
| redis_ReplyError   (* the server refused the command *)
| redis_NetError.    (* the command did not reach the server *)

Inductive result (A : Type) : Type :=
| Ok (a : A)
| Err (e : redis_error).
Arguments Ok {A} a.
Arguments Err {A} e.

Module Backend.

(** A key is expired once the clock is past its expiry time. *)
Definition expired (now : Z) (e : entry) : bool :=
  match expire_at e with
  | Some t => t <? now
  | None => false
  end.

(** What a command sees under a key. *)
Definition lookup (now : Z) (r : Redis) (key : string) : option entry :=
  match kv r !! key with
  | Some e => if expired now e then None else Some e
  | None => None
  end.

Definition add_slot (key : string) (sl : list string) : list string :=
  if bool_decide (key ∈ sl) then sl else sl ++ [key].

Definition store (key : string) (e : entry) (r : Redis) : Redis :=
  mkRedis (<[key := e]> (kv r)) (add_slot key (slots r)).

Definition remove (key : string) (r : Redis) : Redis :=
  mkRedis (delete key (kv r)) (slots r).

(** Integers as Redis stores them: canonical decimal, 64 bits. *)
Definition parse_int (s : string) : option Z :=
  match NilZero.int_of_string s with
  | Some d =>
      let n := Z.of_int d in
      if bool_decide (fmt_d n = s) && (math_MinInt64 <=? n) && (n <=? math_MaxInt64)
      then Some n else None
  | None => None
  end.

Definition get (now : Z) (key : string) (r : Redis) : result string * Redis :=
  match lookup now r key with
  | Some e => (Ok (val e), r)
  | None => (Err redis_Nil, r)
  end.

(** INCR creates a missing key at 1 without expiry, and keeps the expiry
    of an existing one. *)
Definition incr (now : Z) (key : string) (r : Redis) : result Z * Redis :=
  match lookup now r key with
  | Some e =>
      match parse_int (val e) with
      | Some n =>
          if n <? math_MaxInt64
          then (Ok (n + 1), store key (mkEntry (fmt_d (n + 1)) (expire_at e)) r)
          else (Err redis_ReplyError, r)
      | None => (Err redis_ReplyError, r)
      end
  | None => (Ok 1, store key (mkEntry "1" None) r)
  end.

(** EXPIRE takes whole seconds; a deadline that is not in the future
    deletes the key. *)
Definition expire (now : Z) (key : string) (d : Z) (r : Redis) : result bool * Redis :=
  match lookup now r key with
  | Some e =>
      let t := now + (d / time_Second) * 1000 in
      if t <=? now then (Ok true, remove key r)
      else (Ok true, store key (mkEntry (val e) (Some t)) r)
  | None => (Ok false, r)
  end.

(** SET with an expiration; a zero expiration stores the key without
    expiry. *)
Definition set (now : Z) (key value : string) (d : Z) (r : Redis) : result string * Redis :=
  let ex := if 0 <? d then Some (now + d / time_Millisecond) else None in
  (Ok "OK"%string, store key (mkEntry value ex) r).

(** DEL answers the number of keys removed; a missing key is not an
    error. *)
Definition del (now : Z) (key : string) (r : Redis) : result Z * Redis :=
  match lookup now r key with
  | Some _ => (Ok 1, remove key r)
  | None => (Ok 0, remove key r)
  end.

(** TTL in whole seconds, rounded; go-redis turns the reply into a
    time.Duration and hands -2 (no such key) and -1 (no expiry) through
    unscaled. *)
Definition ttl_value (now : Z) (r : Redis) (key : string) : Z :=
  match lookup now r key with
  | None => -2
  | Some e =>
      match expire_at e with
      | None => -1
      | Some t => ((t - now + 500) / 1000) * time_Second
      end
  end.

Definition ttl (now : Z) (key : string) (r : Redis) : result Z * Redis :=
  (Ok (ttl_value now r key), r).

(** MATCH patterns made of literal characters and a closing star. *)
Fixpoint glob_match (pat key : string) : bool :=
  match pat with
  | EmptyString => match key with EmptyString => true | _ => false end
  | String c pat' =>
      match pat' with
      | EmptyString =>
          if Ascii.eqb c "*" then true
          else match key with
               | String k EmptyString => Ascii.eqb c k
               | _ => false
               end
      | _ =>
          match key with
          | String k key' => Ascii.eqb c k && glob_match pat' key'
          | EmptyString => false
          end
      end
  end.

(** SCAN visits [count] slots from the cursor and returns the keys found
    there that are in the table and match; cursor 0 ends the walk. *)
Definition scan (cursor : Z) (pat : string) (count : Z) (r : Redis)
  : result (list string * Z) * Redis :=
  let i := Z.to_nat cursor in
  let n := Z.to_nat count in
  let page := take n (drop i (slots r)) in
  let keys := List.filter (λ k, bool_decide (is_Some (kv r !! k)) && glob_match pat k) page in
  let next := if (i + n <? length (slots r))%nat then cursor + count else 0 in
  (Ok (keys, next), r).

End Backend.

(* ===================================================================== *)
(** ** Operations, worlds and programs *)
(* ===================================================================== *)

(** The atomic steps of the handlers: a map access to [fakeProductDB]
    under [fakeDBLock], a go-redis call, a line written to the log. *)
Inductive op : Type → Type :=
| DB_Load (id : Z) : op (option Product)
| DB_Store (id : Z) (p : Product) : op unit
| Redis_Get (key : string) : op (result string)
| Redis_Incr (key : string) : op (result Z)
| Redis_Expire (key : string) (d : Z) : op (result bool)
| Redis_Set (key value : string) (d : Z) : op (result string)
| Redis_Del (key : string) : op (result Z)
| Redis_Scan (cursor : Z) (pattern : string) (count : Z) : op (result (list string * Z))
| Redis_TTL (key : string) : op (result Z)
| Log_Printf (msg : string) : op unit.

Inductive event : Type :=
| Ev {R : Type} (o : op R).

(** [faults] schedules the transport: the head says whether the next
    go-redis call is lost before it reaches the server; an empty schedule
    means no call is lost. *)
Record World : Type := mkWorld {
  fakeProductDB : gmap Z Product;
  redis : Redis;
  now : Z;
  faults : list bool;
  trace : list event
}.

Definition record (e : event) (w : World) : World :=
  mkWorld (fakeProductDB w) (redis w) (now w) (faults w) (trace w ++ [e]).

Definition redis_call {A : Type} (f : Z → Redis → result A * Redis) (w : World)
  : result A * World :=
  match faults w with
  | true :: fs =>
      (Err redis_NetError, mkWorld (fakeProductDB w) (redis w) (now w) fs (trace w))
  | _ =>
      let '(a, r') := f (now w) (redis w) in
      (a, mkWorld (fakeProductDB w) r' (now w) (tail (faults w)) (trace w))
  end.

Definition exec {R : Type} (o : op R) (w0 : World) : R * World :=
  let w := record (Ev o) w0 in
  match o in op R return R * World with
  | DB_Load id => (fakeProductDB w !! id, w)
  | DB_Store id p =>
      (tt, mkWorld (<[id := p]> (fakeProductDB w)) (redis w) (now w) (faults w) (trace w))
  | Redis_Get key => redis_call (λ t, Backend.get t key) w
  | Redis_Incr key => redis_call (λ t, Backend.incr t key) w
  | Redis_Expire key d => redis_call (λ t, Backend.expire t key d) w
  | Redis_Set key value d => redis_call (λ t, Backend.set t key value d) w
  | Redis_Del key => redis_call (λ t, Backend.del t key) w
  | Redis_Scan cursor pat count => redis_call (λ _, Backend.scan cursor pat count) w
  | Redis_TTL key => redis_call (λ t, Backend.ttl t key) w
  | Log_Printf _ => (tt, w)
  end.

Inductive Prog (A : Type) : Type :=
| Ret (a : A)
| Call {R : Type} (o : op R) (k : R → Prog A).
Arguments Ret {A} a.
Arguments Call {A R} o k.

Fixpoint bind {A B : Type} (p : Prog A) (f : A → Prog B) : Prog B :=
  match p with
  | Ret a => f a
  | Call o k => Call o (λ r, bind (k r) f)
  end.

Definition call {R : Type} (o : op R) : Prog R := Call o Ret.

Declare Scope prog_scope.
Delimit Scope prog_scope with prog.
Notation "x <- p ;; q" := (bind p (λ x, q))
  (at level 100, p at next level, right associativity) : prog_scope.
Notation "p ;;; q" := (bind p (λ _, q))
  (at level 100, right associativity) : prog_scope.

(** Running a program to completion, one request at a time. *)
Fixpoint run {A : Type} (p : Prog A) (w : World) : A * World :=
  match p with
  | Ret a => (a, w)
  | Call o k => let '(r, w') := exec o w in run (k r) w'
  end.

(** One atomic step of a program. *)
Definition step {A : Type} (p : Prog A) (w : World) : Prog A * World :=
  match p with
  | Ret a => (Ret a, w)
  | Call o k => let '(r, w') := exec o w in (k r, w')
  end.

(** Requests served by concurrent goroutines: the schedule names, step by
    step, the request that takes the next atomic step. *)
Fixpoint interleave {A : Type} (sched : list nat) (pool : list (Prog A)) (w : World)
  : list (Prog A) * World :=
  match sched with
  | [] => (pool, w)
  | i :: sched' =>
      match pool !! i with
      | Some p => let '(p', w') := step p w in interleave sched' (<[i := p']> pool) w'
      | None => interleave sched' pool w
      end
  end.

(** Time passing between requests, and the transport schedule of the
    next request. *)
Definition advance (d : Z) (w : World) : World :=
  mkWorld (fakeProductDB w) (redis w) (now w + d) (faults w) (trace w).

Definition with_faults (fs : list bool) (w : World) : World :=
  mkWorld (fakeProductDB w) (redis w) (now w) fs (trace w).

(* ===================================================================== *)
(** ** The handlers *)
(* ===================================================================== *)

Inductive response : Type :=
| RespJSON (p : Product)                 (* 200 with the encoded product *)
| RespError (code : Z) (msg : string)    (* http.Error *)
| RespStatus (code : Z).                 (* WriteHeader only *)

#[global] Instance response_eq_dec : EqDecision response.
Proof. solve_decision. Defined.

Definition http_Error (msg : string) (code : Z) : response := RespError code msg.

(** The value of an IntCmd whose error is dropped. *)
Definition int_val (r : result Z) : Z :=
  match r with Ok n => n | Err _ => 0 end.

Section Handlers.
Context `{JSON}.
Local Open Scope prog_scope.

(** The hit branch of [getProductHandler] (lines 110-117): count the
    hit, and refresh both expirations for a popular entry. *)
Definition countHit (redisKey redisHitsKey : string) : Prog unit :=
  r <- call (Redis_Incr redisHitsKey) ;;
  let hits := int_val r in
  if popularThreshold <=? hits then
    (call (Redis_Expire redisKey redisProductTTL) ;;;
     call (Redis_Expire redisHitsKey redisProductTTL) ;;;
     Ret tt)
  else Ret tt.

(** The miss branch of [getProductHandler] (lines 121-133). *)
Definition loadAndFill (id : Z) (redisKey redisHitsKey : string) : Prog response :=
  dbProduct <- call (DB_Load id) ;;
  match dbProduct with
  | None => Ret (http_Error "Product not found" http_StatusNotFound)
  | Some product =>
      let raw := json_Marshal product in
      (call (Redis_Set redisKey raw redisProductTTL) ;;;
       call (Redis_Set redisHitsKey "1" redisProductTTL) ;;;
       Ret (RespJSON product))
  end.

(** GET /product/{id}.  [cached] is [Some product] when [cacheHit] is
    set. *)
Definition getProductHandler (idStr : string) : Prog response :=
  match strconv_Atoi idStr with
  | None => Ret (http_Error "Invalid product id" http_StatusBadRequest)
  | Some id =>
      let redisKey := redisProductKey id in
      let redisHitsKey := redisProductHitsKey id in
      r <- call (Redis_Get redisKey) ;;
      cached <- match r with
                | Ok data =>
                    match json_Unmarshal data with
                    | Some product =>
                        (countHit redisKey redisHitsKey ;;; Ret (Some product))
                    | None => Ret None
                    end
                | Err _ => Ret None
                end ;;
      match cached with
      | Some product => Ret (RespJSON product)
      | None => loadAndFill id redisKey redisHitsKey
      end
  end.

(** PUT /product/{id}. *)
Definition updateProductHandler (idStr body : string) : Prog response :=
  match strconv_Atoi idStr with
  | None => Ret (http_Error "Invalid product id" http_StatusBadRequest)
  | Some id =>
      match json_Decode body with
      | None => Ret (http_Error "Invalid JSON" http_StatusBadRequest)
      | Some input =>
          if bool_decide (ID input ≠ id) then
            Ret (http_Error "ID in path and body mismatch" http_StatusBadRequest)
          else
            (call (DB_Store id (mkProduct id (Name input) (Price input))) ;;;
             let redisKey := redisProductKey id in
             let redisHitsKey := redisProductHitsKey id in
             (call (Redis_Del redisKey) ;;;
              call (Redis_Del redisHitsKey) ;;;
              Ret (RespStatus http_StatusNoContent)))
      end
  end.

End Handlers.

(** The test of line 206 on the reply of TTL. *)
Definition stale (ttl : Z) : bool := (ttl <=? 0) || (ttl =? -1).

Section Sweeper.
Local Open Scope prog_scope.

(** The inner loop of [cleanStaleProductKeys] (lines 203-209). *)
Fixpoint sweepKeys (keys : list string) : Prog unit :=
  match keys with
  | [] => Ret tt
  | key :: keys' =>
      r <- call (Redis_TTL key) ;;
      (match r with
       | Ok ttl => if stale ttl then (call (Redis_Del key) ;;; Ret tt) else Ret tt
       | Err _ => Ret tt
       end) ;;;
      sweepKeys keys'
  end.

Definition scanCount : Z := 100.

(** The outer loop, with the number of SCAN calls bounded by [fuel];
    [None] reports that the bound was reached before the cursor came
    back to 0. *)
Fixpoint cleanLoop (fuel : nat) (cursor : Z) : Prog (option unit) :=
  match fuel with
  | O => Ret None
  | S fuel' =>
      r <- call (Redis_Scan cursor (redisProductKeyPrefix +:+ "*") scanCount) ;;
      match r with
      | Err _ => (call (Log_Printf "Cache cleaner scan error") ;;; Ret (Some tt))
      | Ok (keys, nextCursor) =>
          (sweepKeys keys ;;;
           if nextCursor =? 0 then Ret (Some tt) else cleanLoop fuel' nextCursor)
      end
  end.

Definition cleanStaleProductKeys (fuel : nat) : Prog (option unit) :=
  cleanLoop fuel 0.

End Sweeper.

(* ===================================================================== *)
(** ** A JSON codec for the compact object form *)
(* ===================================================================== *)

(** An instance of [JSON] that writes a product the way json.Marshal
    does for names without quotes, backslashes or control characters,
    [{"id":1,"name":"Apple","price":100}], and reads that form back.  It
    is used to run the handlers on concrete requests. *)
Module Compact.

Definition dq : string := String (ascii_of_nat 34) EmptyString.

Definition marshal (p : Product) : string :=
  "{" +:+ dq +:+ "id" +:+ dq +:+ ":" +:+ fmt_d (ID p) +:+ ","
    +:+ dq +:+ "name" +:+ dq +:+ ":" +:+ dq +:+ Name p +:+ dq +:+ ","
    +:+ dq +:+ "price" +:+ dq +:+ ":" +:+ fmt_d (Price p) +:+ "}".

Fixpoint strip (pre s : string) : option string :=
  match pre with
  | EmptyString => Some s
  | String c pre' =>
      match s with
      | String d s' => if Ascii.eqb c d then strip pre' s' else None
      | EmptyString => None
      end
  end.

Definition is_num_char (c : ascii) : bool :=
  Ascii.eqb c "-" || ((48 <=? nat_of_ascii c)%nat && (nat_of_ascii c <=? 57)%nat).

Fixpoint span_num (s : string) : string * string :=
  match s with
  | String c s' =>
      if is_num_char c then let '(n, r) := span_num s' in (String c n, r)
      else (EmptyString, s)
  | EmptyString => (EmptyString, EmptyString)
  end.

Fixpoint span_text (s : string) : option (string * string) :=
  match s with
  | String c s' =>
      if Ascii.eqb c (ascii_of_nat 34) then Some (EmptyString, s')
      else if Ascii.eqb c (ascii_of_nat 92) then None
      else match span_text s' with
           | Some (t, r) => Some (String c t, r)
           | None => None
           end
  | EmptyString => None
  end.

(** Reads one object and returns it with the input that follows. *)
Definition read (s : string) : option (Product * string) :=
  s1 ← strip ("{" +:+ dq +:+ "id" +:+ dq +:+ ":") s;
  let '(n, s2) := span_num s1 in
  id ← Backend.parse_int n;
  s3 ← strip ("," +:+ dq +:+ "name" +:+ dq +:+ ":" +:+ dq) s2;
  '(name, s4) ← span_text s3;
  s5 ← strip ("," +:+ dq +:+ "price" +:+ dq +:+ ":") s4;
  let '(m, s6) := span_num s5 in
  price ← Backend.parse_int m;
  s7 ← strip "}" s6;
  Some (mkProduct id name price, s7).

Definition unmarshal (s : string) : option Product :=
  match read s with
  | Some (p, EmptyString) => Some p
  | _ => None
  end.

Definition decode (s : string) : option Product :=
  match read s with
  | Some (p, _) => Some p
  | None => None
  end.

End Compact.

#[global] Instance compactJSON : JSON :=
  {| json_Marshal := Compact.marshal;
     json_Unmarshal := Compact.unmarshal;
     json_Decode := Compact.decode |}.

(** The world at start-up: the three products, an empty cache. *)
Definition world0 : World :=
  mkWorld fakeProductDB_init (mkRedis ∅ []) 0 [] [].

(* ===================================================================== *)
(** ** Vocabulary of the statements *)
(* ===================================================================== *)

Section Vocabulary.
Context `{JSON}.

(** Whether a character occurs in a string. *)
Fixpoint mem_char (c : ascii) (s : string) : bool :=
  match s with
  | EmptyString => false
  | String d s' => Ascii.eqb c d || mem_char c s'
  end.

(** [lost w] says that the next go-redis call does not reach the server. *)
Definition lost (w : World) : bool :=
  match faults w with
  | true :: _ => true
  | _ => false
  end.

(** A program run is [always S] when every operation it issues satisfies
    [S] in the world it is issued in. *)
Fixpoint always {A : Type} (S : ∀ R, op R → World → Prop) (p : Prog A) (w : World) : Prop :=
  match p with
  | Ret _ => True
  | Call o k => S _ o w ∧ always S (k (exec o w).1) (exec o w).2
  end.

(** The operations of GET /product/{id}.  The cache entry is only ever
    written with the encoding of the record found in the database. *)
Definition get_op (id : Z) (R : Type) (o : op R) (w : World) : Prop :=
  match o with
  | Redis_Get k => k = redisProductKey id
  | Redis_Incr k => k = redisProductHitsKey id
  | Redis_Expire k d =>
      (k = redisProductKey id ∨ k = redisProductHitsKey id) ∧ d = redisProductTTL
  | DB_Load i => i = id
  | Redis_Set k v d =>
      d = redisProductTTL ∧
      ((k = redisProductKey id ∧ ∃ p, fakeProductDB w !! id = Some p ∧ v = json_Marshal p)
       ∨ (k = redisProductHitsKey id ∧ v = "1"))
  | _ => False
  end.

(** The operations of PUT /product/{id} with an accepted body. *)
Definition update_op (id : Z) (R : Type) (o : op R) (w : World) : Prop :=
  match o with
  | DB_Store i p => i = id ∧ ID p = id
  | Redis_Del k => k = redisProductKey id ∨ k = redisProductHitsKey id
  | _ => False
  end.

(** The operations of the cache cleaner. *)
Definition sweep_op (R : Type) (o : op R) (w : World) : Prop :=
  match o with
  | Redis_Scan _ _ _ | Redis_TTL _ | Redis_Del _ | Log_Printf _ => True
  | _ => False
  end.

(** Every key in the table has a slot, so a full SCAN meets it. *)
Definition slots_cover (r : Redis) : Prop :=
  ∀ k, is_Some (kv r !! k) → k ∈ slots r.

(** The codec reads back the product it wrote. *)
Definition readable (p : Product) : Prop :=
  json_Unmarshal (json_Marshal p) = Some p.

(** The cache entry of [k], if it decodes to a product, decodes to the
    product the database holds under [k]. *)
Definition coherent_at (k : Z) (w : World) : Prop :=
  ∀ e q,
    kv (redis w) !! redisProductKey k = Some e →
    json_Unmarshal (val e) = Some q →
    fakeProductDB w !! k = Some q.

(** The state a run of reads of [k] lives in: the database holds [p]
    under [k] and the cache entry of [k] does not contradict it. *)
Definition settled (k : Z) (p : Product) (w : World) : Prop :=
  fakeProductDB w !! k = Some p ∧ coherent_at k w.

(** The answer of a read that finds nothing usable in the cache. *)
Definition miss_response (id : Z) (w : World) : response :=
  match fakeProductDB w !! id with
  | Some p => RespJSON p
  | None => http_Error "Product not found" http_StatusNotFound
  end.

(** The read finds nothing usable under the cache entry key: the key is
    missing or expired, the call is lost, or the value does not decode. *)
Definition cache_miss (id : Z) (w : World) : Prop :=
  match (exec (Redis_Get (redisProductKey id)) w).1 with
  | Ok data => json_Unmarshal data = None
  | Err _ => True
  end.

(** The hit count a key stands for: a missing counter counts as 0. *)
Definition count_of (c : option entry) : option Z :=
  match c with
  | Some c0 => Backend.parse_int (val c0)
  | None => Some 0
  end.

(** The expiry a key carries; a missing key carries none. *)
Definition expiry_of (c : option entry) : option Z :=
  match c with
  | Some c0 => expire_at c0
  | None => None
  end.

(** What happens to the service between two points in time: a request
    with the transport schedule it meets, a pass of the cleaner, or time
    going by. *)
Inductive activity : Type :=
| Fetch (idStr : string) (fs : list bool)
| Update (idStr body : string) (fs : list bool)
| Sweep (fuel : nat) (fs : list bool)
| Wait (d : Z).

(** The answer of an activity, if it is a request, and the world after
    it. *)
Definition perform (a : activity) (w : World) : option response * World :=
  match a with
  | Fetch idStr fs =>
      let '(r, w') := run (getProductHandler idStr) (with_faults fs w) in (Some r, w')
  | Update idStr body fs =>
      let '(r, w') := run (updateProductHandler idStr body) (with_faults fs w) in
      (Some r, w')
  | Sweep fuel fs => (None, (run (cleanStaleProductKeys fuel) (with_faults fs w)).2)
  | Wait d => (None, advance d w)
  end.

(** The answers of a history of activities, in order, and the world it
    leaves. *)
Fixpoint replay (h : list activity) (w : World) : list (option response) * World :=
  match h with
  | [] => ([], w)
  | a :: h' =>
      let '(r, w1) := perform a w in
      let '(rs, w2) := replay h' w1 in
      (r :: rs, w2)
  end.

(** Every cache entry that decodes belongs to an identifier the database
    holds: entries are written by miss-fills only, and the database never
    drops a record. *)
Definition no_orphans (w : World) : Prop :=
  ∀ id e q,
    kv (redis w) !! redisProductKey id = Some e →
    json_Unmarshal (val e) = Some q →
    is_Some (fakeProductDB w !! id).

(** The operations of the handlers and of the cleaner. *)
Definition service_op (R : Type) (o : op R) (w : World) : Prop :=
  (∃ id, get_op id R o w) ∨ (∃ id, update_op id R o w) ∨ sweep_op R o w.

(** [swept S t r r']: going from [r] to [r'], the keys selected by [S]
    whose TTL reply at time [t] is stale are gone, and every other key is
    as it was; the slots have not moved. *)
Definition swept (S : string → bool) (t : Z) (r r' : Redis) : Prop :=
  slots r' = slots r
  ∧ ∀ k, kv r' !! k
         = if S k && stale (Backend.ttl_value t r k) then None else kv r !! k.

(** The MATCH pattern of the cleaner. *)
Definition productPattern : string := redisProductKeyPrefix +:+ "*".

(** The three states of a counter key the analysis tells apart: [hk] is
    in the table without expiry, *)
Definition persistent (hk : string) (w : World) : Prop :=
  ∃ c, kv (redis w) !! hk = Some c ∧ expire_at c = None.

(** [hk] is in the table and expires at [t]. *)
Definition expiring (hk : string) (t : Z) (w : World) : Prop :=
  ∃ c, kv (redis w) !! hk = Some c ∧ expire_at c = Some t.

(** [hk] is not in the table. *)
Definition absent (hk : string) (w : World) : Prop :=
  kv (redis w) !! hk = None.

(** Operations that can end the persistence of [hk]. *)
Definition touches (hk : string) {R : Type} (o : op R) : Prop :=
  match o with
  | Redis_Expire k _ | Redis_Set k _ _ | Redis_Del k => k = hk
  | _ => False
  end.

(** Operations that create or rewrite no key. *)
Definition writes_nothing {R : Type} (o : op R) : Prop :=
  match o with
  | Redis_Set _ _ _ | Redis_Incr _ | Redis_Expire _ _ => False
  | _ => True
  end.

(** Operations that give [hk], if any expiry, the full TTL, and do not
    delete it. *)
Definition refreshes_only (hk : string) {R : Type} (o : op R) : Prop :=
  match o with
  | Redis_Del k => k ≠ hk
  | Redis_Expire k d | Redis_Set k _ d => k = hk → d = redisProductTTL
  | _ => True
  end.

End Vocabulary.

(* ===================================================================== *)
(** ** Worlds used to run the handlers *)
(* ===================================================================== *)

(** Product 1 before and after a price update. *)
Definition apple100 : Product := mkProduct 1 "Apple" 100.

Definition apple120 : Product := mkProduct 1 "Apple" 120.

(** The world one second after the first read of product 1. *)
Definition world_cached : World :=
  advance 1000 (run (getProductHandler "1") world0).2.

(** The world after a read of product 1 and an update of it whose two
    deletions are lost. *)
Definition world_stale : World :=
  (replay [Fetch "1" []; Update "1" (json_Marshal apple120) [true; true]] world0).2.

(** A keyspace at time 30000 with an entry that has nothing left, an
    entry with 20 seconds left, a counter without expiry, and a key of
    another domain. *)
Definition world_mixed : World :=
  mkWorld fakeProductDB_init
    (mkRedis
       (<["product:1" := mkEntry (json_Marshal apple100) (Some 30000)]>
          (<["product:2" := mkEntry "?" (Some 50000)]>
             (<["product:3:hits" := mkEntry "1" None]>
                (<["session:9" := mkEntry "s" None]> ∅))))
       ["product:1"; "product:2"; "product:3:hits"; "session:9"])
    30000 [] [].

(** The world one second after a first read of product 1 whose SET of
    the hit counter was lost: the entry is cached, the counter is not
    there. *)
Definition world_uncounted : World :=
  (replay [Fetch "1" [false; false; true]; Wait 1000] world0).2.

(** The world 29.6 seconds after the first read of product 1: the entry
    and the counter have 400 milliseconds left. *)
Definition world_closing : World :=
  (replay [Fetch "1" []; Wait 29600] world0).2.

(* ===================================================================== *)
(** ** The cleaner's loop and the vocabulary of the further properties *)
(* ===================================================================== *)

(** What the [select] of [runCacheCleaner] receives: the cancellation of
    the context or a tick of the ticker. *)
Inductive signal : Type :=
| ctx_Done
| ticker_C.

Section Cleaner.
Local Open Scope prog_scope.

(** [runCacheCleaner] (lines 176-187) over the signals its [select]
    receives, in order: it returns at the first [ctx_Done] and runs one
    pass per tick before that.  The answer is [false] when the signals
    run out with the loop still waiting. *)
Fixpoint runCacheCleaner (fuel : nat) (signals : list signal) : Prog bool :=
  match signals with
  | [] => Ret false
  | ctx_Done :: _ => Ret true
  | ticker_C :: signals' =>
      (cleanStaleProductKeys fuel ;;; runCacheCleaner fuel signals')
  end.

End Cleaner.

(** Every record is stored under its own identifier. *)
Definition keyed (db : gmap Z Product) : Prop :=
  ∀ id p, db !! id = Some p → ID p = id.

(** Every cache entry key carries an expiry, at most one full TTL ahead. *)
Definition entries_expire (w : World) : Prop :=
  ∀ id e, kv (redis w) !! redisProductKey id = Some e →
          ∃ t, expire_at e = Some t ∧ t ≤ now w + 30000.

(** The key a go-redis call addresses. *)
Definition op_key {R : Type} (o : op R) : option string :=
  match o with
  | Redis_Get k | Redis_Incr k | Redis_Expire k _ | Redis_Set k _ _
  | Redis_Del k | Redis_TTL k => Some k
  | _ => None
  end.

(** The number of reads of the record of [id] from the database in a
    trace. *)
Definition is_load_of (id : Z) (e : event) : bool :=
  match e with
  | Ev o => match o with DB_Load i => i =? id | _ => false end
  end.

Definition loads_of (id : Z) (tr : list event) : nat :=
  length (List.filter (is_load_of id) tr).

(** Going from [w] to [w'], the clock, the record of [id], its two keys
    and the number of reads of its record from the database are as they
    were. *)
Definition untouched (id : Z) (w w' : World) : Prop :=
  now w' = now w
  ∧ fakeProductDB w' !! id = fakeProductDB w !! id
  ∧ kv (redis w') !! redisProductKey id = kv (redis w) !! redisProductKey id
  ∧ kv (redis w') !! redisProductHitsKey id = kv (redis w) !! redisProductHitsKey id
  ∧ loads_of id (trace w') = loads_of id (trace w).

(** What may happen between two reads of [id] without touching its keys
    or its record: time going by, a pass of the cleaner, a read or an
    update addressed to another identifier. *)
Definition aside (id : Z) (a : activity) : Prop :=
  match a with
  | Wait d => 0 ≤ d
  | Sweep _ _ => True
  | Fetch idStr _ | Update idStr _ _ => strconv_Atoi idStr ≠ Some id
  end.

(** The time that goes by in a history, in milliseconds. *)
Fixpoint span (h : list activity) : Z :=
  match h with
  | [] => 0
  | Wait d :: h' => d + span h'
  | _ :: h' => span h'
  end.

(** A first read of [idStr] on a transport without faults, and one more
    after each of the [pauses]. *)
Definition reads_with_pauses (idStr : string) (pauses : list (list activity))
  : list activity :=
  Fetch idStr [] :: concat (map (λ g, g ++ [Fetch idStr []]) pauses).

(** Time does not run backwards in a history. *)
Definition forward (a : activity) : Prop :=
  match a with
  | Wait d => 0 ≤ d
  | _ => True
  end.

(** [k] is under the prefix of the product keys. *)
Definition under_prefix (k : string) : Prop :=
  ∃ rest, k = redisProductKeyPrefix +:+ rest.

(** The operations of a pass of the cleaner, with what a DEL is issued
    on: a key under the prefix whose TTL reply, in the world the DEL is
    issued in, is stale. *)
Definition sweep_safe (R : Type) (o : op R) (w : World) : Prop :=
  match o with
  | Redis_Del k =>
      under_prefix k ∧ stale (Backend.ttl_value (now w) (redis w) k) = true
  | Redis_Scan _ _ _ | Redis_TTL _ | Log_Printf _ => True
  | _ => False
  end.

(** The operations of the cleaner's loop: it deletes under the prefix
    only and writes nothing. *)
Definition sweep_scoped (R : Type) (o : op R) (w : World) : Prop :=
  match o with
  | Redis_Del k => under_prefix k
  | Redis_Scan _ _ _ | Redis_TTL _ | Log_Printf _ => True
  | _ => False
  end.

Section Warmth.
Context `{JSON}.

(** The cache is warm for [id] until [T]: the database holds [p], the
    entry holds its encoding, the counter holds [c], and both expire at
    [T]. *)
Definition warm_until (T : Z) (id : Z) (p : Product) (c : Z) (w : World) : Prop :=
  fakeProductDB w !! id = Some p
  ∧ kv (redis w) !! redisProductKey id = Some (mkEntry (json_Marshal p) (Some T))
  ∧ kv (redis w) !! redisProductHitsKey id = Some (mkEntry (fmt_d c) (Some T)).

(** The cache is warm for [id]: it is warm for one full TTL from now. *)
Definition warm (id : Z) (p : Product) (c : Z) (w : World) : Prop :=
  warm_until (now w + 30000) id p c w.

End Warmth.

(* ===================================================================== *)
(** ** Requests served concurrently *)
(* ===================================================================== *)

(** What the server runs, each in a goroutine of its own: the two
    handlers, one call per request, and the passes of the cleaner. *)
Inductive request : Type :=
| Get (idStr : string)
| Put (idStr body : string)
| Clean (fuel : nat).

(** A move of the scheduler: the goroutine at index [i] takes its next
    atomic step, or time goes by. *)
Inductive move : Type :=
| Turn (i : nat)
| Pass (d : Z).

(** The pool of goroutines and the world after the moves [ms].  A turn
    given to a goroutine that is over, or to an index outside the pool,
    changes nothing. *)
Fixpoint concurrent {A : Type} (ms : list move) (pool : list (Prog A)) (w : World)
  : list (Prog A) * World :=
  match ms with
  | [] => (pool, w)
  | Turn i :: ms' =>
      match pool !! i with
      | Some p => concurrent ms' (<[i := (step p w).1]> pool) (step p w).2
      | None => concurrent ms' pool w
      end
  | Pass d :: ms' => concurrent ms' pool (advance d w)
  end.

(** Every goroutine of the pool run to its end, one after the other. *)
Fixpoint drain {A : Type} (pool : list (Prog A)) (w : World) : list A * World :=
  match pool with
  | [] => ([], w)
  | p :: pool' =>
      ((run p w).1 :: (drain pool' (run p w).2).1, (drain pool' (run p w).2).2)
  end.

(** The answers of the pool, by index, when the scheduler makes the moves
    [ms] and the goroutines still running are then run to their ends.
    Every complete interleaving of the pool is among these: its moves
    leave nothing to run. *)
Definition answers {A : Type} (ms : list move) (pool : list (Prog A)) (w : World)
  : list A * World :=
  drain (concurrent ms pool w).1 (concurrent ms pool w).2.

(** The number of turns the goroutine at index [i] gets in [ms]. *)
Fixpoint turns (i : nat) (ms : list move) : nat :=
  match ms with
  | [] => 0
  | Turn j :: ms' => ((if Nat.eqb j i then 1 else 0) + turns i ms')%nat
  | Pass _ :: ms' => turns i ms'
  end.

(** Time does not run backwards in a schedule. *)
Definition onward (m : move) : Prop :=
  match m with
  | Pass d => 0 ≤ d
  | Turn _ => True
  end.

(** [good I Q p]: from every world in which [I] holds, each step of [p]
    leaves a world in which [I] holds, and the answer of [p] is in [Q]. *)
Fixpoint good {A : Type} (I : World → Prop) (Q : A → Prop) (p : Prog A) : Prop :=
  match p with
  | Ret a => Q a
  | Call o c => ∀ w, I w → I (exec o w).2 ∧ good I Q (c (exec o w).1)
  end.

Section Concurrency.
Context `{JSON}.
Local Open Scope prog_scope.

(** The goroutine of a request. *)
Definition serve (q : request) : Prog (option response) :=
  match q with
  | Get idStr => (r <- getProductHandler idStr ;; Ret (Some r))
  | Put idStr body => (r <- updateProductHandler idStr body ;; Ret (Some r))
  | Clean fuel => (cleanStaleProductKeys fuel ;;; Ret None)
  end.

(** What is left of an accepted update of [k] once the record is stored:
    the deletion of both keys, then the answer (lines 166-172). *)
Definition invalidation (k : Z) : Prog (option response) :=
  (call (Redis_Del (redisProductKey k)) ;;;
   call (Redis_Del (redisProductHitsKey k)) ;;;
   Ret (Some (RespStatus http_StatusNoContent))).

(** [q] is an update of [k] that the handler accepts. *)
Definition writes (k : Z) (q : request) : Prop :=
  match q with
  | Put idStr body =>
      strconv_Atoi idStr = Some k
      ∧ ∃ input, json_Decode body = Some input ∧ ID input = k
  | _ => False
  end.

(** The cache is in step with the database for [k]: the database holds
    [p] under [k], and the cache entry of [k], when it is live and
    decodes, decodes to [p]. *)
Definition in_sync (k : Z) (p : Product) (w : World) : Prop :=
  fakeProductDB w !! k = Some p
  ∧ ∀ e q,
      Backend.lookup (now w) (redis w) (redisProductKey k) = Some e →
      json_Unmarshal (val e) = Some q →
      q = p.

(** The operations that cannot move the record of [k] or turn its cache
    entry into something else: no store under [k], no INCR on the entry
    key. *)
Definition allowed (k : Z) {R : Type} (o : op R) : Prop :=
  match o with
  | DB_Store i _ => i ≠ k
  | Redis_Incr key => key ≠ redisProductKey k
  | _ => True
  end.

(** A SET of the cache entry of [k] to a value that decodes to another
    record than [p]. *)
Definition stale_set (k : Z) (p : Product) {R : Type} (o : op R) : Prop :=
  match o with
  | Redis_Set key v _ =>
      key = redisProductKey k ∧ ∃ q, json_Unmarshal v = Some q ∧ q ≠ p
  | _ => False
  end.

(** The next step of the goroutine is such a SET: it has loaded a record
    of [k] that is not [p] and is about to write it to the cache. *)
Definition stale_head {A : Type} (k : Z) (p : Product) (prog : Prog A) : Prop :=
  match prog with
  | Call o _ => stale_set k p o
  | Ret _ => False
  end.

(** [tame k p prog]: whatever replies it gets, [prog] issues allowed
    operations only, and a step taken in a world in step with the
    database never leaves it about to write a stale record. *)
Fixpoint tame {A : Type} (k : Z) (p : Product) (prog : Prog A) : Prop :=
  match prog with
  | Ret _ => True
  | Call o c =>
      allowed k o
      ∧ (∀ r, tame k p (c r))
      ∧ (∀ w, in_sync k p w → ¬ stale_head k p (c (exec o w).1))
  end.

(** What a request has to answer for the reads of [k] to agree on [p]. *)
Definition agrees (k : Z) (p : Product) (q : request) (a : option response) : Prop :=
  match q with
  | Get idStr => strconv_Atoi idStr = Some k → a = Some (RespJSON p)
  | _ => True
  end.

End Concurrency.

(* ===================================================================== *)
(** ** Key derivation *)
(* ===================================================================== *)

Lemma uint_no_colon (u : Decimal.uint) :
  mem_char ":" (NilEmpty.string_of_uint u) = false.
Proof. induction u; simpl; auto. Qed.

Lemma fmt_d_no_colon (n : Z) : mem_char ":" (fmt_d n) = false.
Proof.
  unfold fmt_d, NilZero.string_of_int, NilZero.string_of_uint.
  destruct (Z.to_int n) as [u|u]; destruct u; simpl; auto using uint_no_colon.
Qed.

Lemma fmt_d_inj (a b : Z) : fmt_d a = fmt_d b → a = b.
Proof.
  unfold fmt_d. intros E.
  assert (nonnil : ∀ z, Z.to_int z ≠ Decimal.Pos Decimal.Nil ∧
                        Z.to_int z ≠ Decimal.Neg Decimal.Nil).
  { intros [|p|p]; simpl; split; try discriminate;
      intros [= Hp]; exact (Unsigned.to_uint_nonnil p Hp). }
  assert (Z.to_int a = Z.to_int b) as Hab.
  { destruct (nonnil a) as [a1 a2], (nonnil b) as [b1 b2].
    pose proof (NilZero.isi _ a1 a2) as Ha.
    pose proof (NilZero.isi _ b1 b2) as Hb.
    rewrite E in Ha. rewrite Ha in Hb. congruence. }
  rewrite <- (DecimalZ.of_to a), <- (DecimalZ.of_to b). congruence.
Qed.

Lemma mem_char_app_colon (s t : string) : mem_char ":" (s +:+ String ":" t) = true.
Proof. induction s; simpl; auto. rewrite IHs. apply orb_true_r. Qed.

Lemma append_colon_inj (s s' t t' : string) :
  mem_char ":" s = false → mem_char ":" s' = false →
  s +:+ String ":" t = s' +:+ String ":" t' → s = s'.
Proof.
  revert s'. induction s as [|c s IH]; intros [|c' s']; simpl; intros Hs Hs' E.
  - done.
  - injection E as <- _. simpl in Hs'. discriminate.
  - injection E as -> _. simpl in Hs. discriminate.
  - injection E as -> E. apply orb_false_elim in Hs as [_ Hs].
    apply orb_false_elim in Hs' as [_ Hs']. f_equal. eauto.
Qed.

Lemma prefix_cancel (s t : string) :
  redisProductKeyPrefix +:+ s = redisProductKeyPrefix +:+ t → s = t.
Proof. intros [= E]. exact E. Qed.

Lemma redisProductKey_inj (a b : Z) : redisProductKey a = redisProductKey b → a = b.
Proof. intros E. by apply fmt_d_inj, prefix_cancel. Qed.

Lemma redisProductHitsKey_inj (a b : Z) :
  redisProductHitsKey a = redisProductHitsKey b → a = b.
Proof.
  unfold redisProductHitsKey. intros [= E]. apply fmt_d_inj.
  eapply (append_colon_inj _ _ "hits" "hits"); eauto using fmt_d_no_colon.
Qed.

Lemma key_ne_hits (a b : Z) : redisProductKey a ≠ redisProductHitsKey b.
Proof.
  unfold redisProductKey, redisProductHitsKey. intros [= E].
  pose proof (fmt_d_no_colon a) as Ha.
  change (fmt_d a = fmt_d b +:+ String ":" "hits") in E.
  rewrite E in Ha. by rewrite mem_char_app_colon in Ha.
Qed.

Lemma hits_ne_key (a b : Z) : redisProductHitsKey a ≠ redisProductKey b.
Proof. intros E. symmetry in E. by apply key_ne_hits in E. Qed.

(* ===================================================================== *)
(** ** Running programs *)
(* ===================================================================== *)

Lemma run_bind {A B : Type} (p : Prog A) (f : A → Prog B) (w : World) :
  run (bind p f) w = run (f (run p w).1) (run p w).2.
Proof.
  revert w. induction p as [a|R o k IH]; intros w; simpl; [done|].
  destruct (exec o w) as [r w']. apply IH.
Qed.

Lemma run_call {R : Type} (o : op R) (w : World) : run (call o) w = exec o w.
Proof. unfold call. simpl. by destruct (exec o w). Qed.

Lemma run_call_bind {R B : Type} (o : op R) (f : R → Prog B) (w : World) :
  run (bind (call o) f) w = run (f (exec o w).1) (exec o w).2.
Proof. by rewrite run_bind, run_call. Qed.

Lemma redis_call_lost {A : Type} (f : Z → Redis → result A * Redis) (w : World) :
  lost w = true →
  redis_call f w
  = (Err redis_NetError,
     mkWorld (fakeProductDB w) (redis w) (now w) (tail (faults w)) (trace w)).
Proof. unfold lost, redis_call. by destruct (faults w) as [|[] fs]. Qed.

Lemma redis_call_served {A : Type} (f : Z → Redis → result A * Redis) (w : World) :
  lost w = false →
  redis_call f w
  = ((f (now w) (redis w)).1,
     mkWorld (fakeProductDB w) (f (now w) (redis w)).2 (now w)
             (tail (faults w)) (trace w)).
Proof.
  unfold lost, redis_call.
  destruct (faults w) as [|[] fs]; try done; by destruct (f (now w) (redis w)).
Qed.

Lemma lost_record (e : event) (w : World) : lost (record e w) = lost w.
Proof. reflexivity. Qed.

Lemma exec_DB_Load (id : Z) (w : World) :
  exec (DB_Load id) w = (fakeProductDB w !! id, record (Ev (DB_Load id)) w).
Proof. reflexivity. Qed.

(** What every operation leaves alone. *)
Lemma exec_now {R : Type} (o : op R) (w : World) : now (exec o w).2 = now w.
Proof.
  destruct o; simpl; try done;
    unfold redis_call; simpl; destruct (faults w) as [|[] fs]; simpl; try done;
    match goal with |- context [let '(_, _) := ?x in _] => by destruct x end.
Qed.

Lemma exec_trace {R : Type} (o : op R) (w : World) :
  trace (exec o w).2 = trace w ++ [Ev o].
Proof.
  destruct o; simpl; try done;
    unfold redis_call; simpl; destruct (faults w) as [|[] fs]; simpl; try done;
    match goal with |- context [let '(_, _) := ?x in _] => by destruct x end.
Qed.

Lemma exec_db {R : Type} (o : op R) (w : World) :
  fakeProductDB (exec o w).2
  = match o with
    | DB_Store id p => <[id := p]> (fakeProductDB w)
    | _ => fakeProductDB w
    end.
Proof.
  destruct o; simpl; try done;
    unfold redis_call; simpl; destruct (faults w) as [|[] fs]; simpl; try done;
    match goal with |- context [let '(_, _) := ?x in _] => by destruct x end.
Qed.

Lemma always_bind {A B : Type} S (p : Prog A) (f : A → Prog B) (w : World) :
  always S (bind p f) w ↔ always S p w ∧ always S (f (run p w).1) (run p w).2.
Proof.
  revert w. induction p as [a|R o k IH]; intros w; simpl; [tauto|].
  rewrite IH. destruct (exec o w) as [r w']. simpl. tauto.
Qed.

Lemma always_call {R : Type} S (o : op R) (w : World) : always S (call o) w ↔ S _ o w.
Proof. unfold call. simpl. tauto. Qed.

Lemma always_call_bind {R B : Type} S (o : op R) (f : R → Prog B) (w : World) :
  always S (bind (call o) f) w ↔ S _ o w ∧ always S (f (exec o w).1) (exec o w).2.
Proof. by rewrite always_bind, always_call, run_call. Qed.

Lemma always_mono {A : Type} (S S' : ∀ R, op R → World → Prop) (p : Prog A) (w : World) :
  (∀ R (o : op R) w', S R o w' → S' R o w') → always S p w → always S' p w.
Proof.
  intros Himp. revert w. induction p as [a|R o k IH]; intros w; simpl; [done|].
  intros [Ho Hk]. eauto.
Qed.

Lemma always_True {A : Type} (p : Prog A) (w : World) : always (λ _ _ _, True) p w.
Proof. revert w. induction p as [a|R o k IH]; intros w; simpl; auto. Qed.

(** An invariant kept by every operation that satisfies [S] is kept by
    every run that is [always S]. *)
Lemma run_invariant {A : Type} (S : ∀ R, op R → World → Prop) (I : World → Prop) :
  (∀ R (o : op R) w, I w → S R o w → I (exec o w).2) →
  ∀ (p : Prog A) w, always S p w → I w → I (run p w).2.
Proof.
  intros HS p. induction p as [a|R o k IH]; intros w Hal Hw; simpl in *; [done|].
  destruct Hal as [Ho Hal]. destruct (exec o w) as [r w'] eqn:E.
  simpl in *. apply IH; [done|]. specialize (HS _ o w Hw Ho). by rewrite E in HS.
Qed.

(* ===================================================================== *)
(** ** What the operations do to the keyspace *)
(* ===================================================================== *)

Lemma lookup_Some_kv (t : Z) (r : Redis) (key : string) (e : entry) :
  Backend.lookup t r key = Some e → kv r !! key = Some e ∧ Backend.expired t e = false.
Proof.
  unfold Backend.lookup. destruct (kv r !! key) as [e0|]; [|done].
  destruct (Backend.expired t e0) eqn:Hx; [done|]. by intros [= <-].
Qed.

Lemma remove_absent (key : string) (r : Redis) :
  kv r !! key = None → Backend.remove key r = r.
Proof.
  intros Hk. unfold Backend.remove. rewrite delete_id by done. by destruct r.
Qed.

(** Case analysis on whether the call under consideration is lost. *)
Ltac redis_cases :=
  match goal with
  | |- context [redis_call ?f ?w0] =>
      let Hl := fresh "Hl" in
      destruct (lost w0) eqn:Hl;
      [rewrite (redis_call_lost f w0 Hl) | rewrite (redis_call_served f w0 Hl)]
  end.

(** A key found after an operation either was there before with the same
    value, or is the key INCR counted on, or is the key SET wrote to. *)
Lemma exec_kv {R : Type} (o : op R) (w : World) (k : string) (e' : entry) :
  kv (redis (exec o w).2) !! k = Some e' →
  (∃ e, kv (redis w) !! k = Some e ∧ val e' = val e)
  ∨ match o with
    | Redis_Incr key => k = key
    | Redis_Set key v _ => k = key ∧ val e' = v
    | _ => False
    end.
Proof.
  destruct o; simpl; eauto; redis_cases; simpl; eauto.
  - (* GET *) unfold Backend.get. destruct (Backend.lookup _ _ _); simpl; eauto.
  - (* INCR *)
    unfold Backend.incr. destruct (Backend.lookup _ _ _) as [e|]; simpl.
    + destruct (Backend.parse_int (val e)) as [n|]; simpl; eauto.
      destruct (n <? math_MaxInt64); simpl; eauto.
      destruct (decide (key = k)) as [<-|Hne]; [by right|].
      rewrite lookup_insert_ne by done. eauto.
    + destruct (decide (key = k)) as [<-|Hne]; [by right|].
      rewrite lookup_insert_ne by done. eauto.
  - (* EXPIRE *)
    unfold Backend.expire. destruct (Backend.lookup _ _ _) as [e|] eqn:Hlk; simpl; eauto.
    apply lookup_Some_kv in Hlk as [Hkv _].
    destruct (_ <=? _); simpl.
    + destruct (decide (key = k)) as [<-|Hne].
      * by rewrite lookup_delete_eq.
      * rewrite lookup_delete_ne by done. eauto.
    + destruct (decide (key = k)) as [<-|Hne].
      * rewrite lookup_insert_eq. intros [= <-]. left. eauto.
      * rewrite lookup_insert_ne by done. eauto.
  - (* SET *)
    destruct (decide (key = k)) as [<-|Hne].
    + rewrite lookup_insert_eq. intros [= <-]. by right.
    + rewrite lookup_insert_ne by done. eauto.
  - (* DEL *)
    unfold Backend.del. destruct (Backend.lookup _ _ _); simpl;
      (destruct (decide (key = k)) as [<-|Hne];
       [by rewrite lookup_delete_eq | rewrite lookup_delete_ne by done; eauto]).
Qed.

(* ===================================================================== *)
(** ** The operations each handler issues *)
(* ===================================================================== *)

Section Footprints.
Context `{JSON}.

Lemma countHit_always (id : Z) (w : World) :
  always (get_op id) (countHit (redisProductKey id) (redisProductHitsKey id)) w.
Proof.
  unfold countHit. rewrite always_call_bind. split; [done|].
  destruct (popularThreshold <=? _); [|done].
  rewrite !always_call_bind. simpl. tauto.
Qed.

Lemma loadAndFill_always (id : Z) (w : World) :
  always (get_op id) (loadAndFill id (redisProductKey id) (redisProductHitsKey id)) w.
Proof.
  unfold loadAndFill. rewrite always_call_bind. split; [done|].
  rewrite exec_DB_Load. cbn [fst snd].
  destruct (fakeProductDB w !! id) as [p|] eqn:Hdb; [|done].
  rewrite !always_call_bind. simpl. rewrite Hdb.
  repeat split; [left; eauto | by right].
Qed.

Lemma getProductHandler_always (idStr : string) (id : Z) (w : World) :
  strconv_Atoi idStr = Some id → always (get_op id) (getProductHandler idStr) w.
Proof.
  intros Hid. unfold getProductHandler. rewrite Hid.
  rewrite always_call_bind. split; [done|].
  destruct (exec (Redis_Get _) w) as [r w1]. cbn [fst snd].
  rewrite always_bind. destruct r as [data|err].
  - destruct (json_Unmarshal data) as [product|].
    + rewrite always_bind, run_bind. cbn [run fst snd always].
      auto using countHit_always.
    + cbn [run fst snd always]. auto using loadAndFill_always.
  - cbn [run fst snd always]. auto using loadAndFill_always.
Qed.

Lemma sweepKeys_always (keys : list string) (w : World) :
  always sweep_op (sweepKeys keys) w.
Proof.
  revert w. induction keys as [|key keys IH]; intros w; [done|].
  cbn [sweepKeys]. rewrite always_call_bind. split; [done|].
  rewrite always_bind. split; [|apply IH].
  destruct (exec (Redis_TTL key) w).1 as [ttl|]; [|done].
  destruct (stale ttl); [|done]. by rewrite always_call_bind.
Qed.

Lemma cleanLoop_always (fuel : nat) (cursor : Z) (w : World) :
  always sweep_op (cleanLoop fuel cursor) w.
Proof.
  revert cursor w. induction fuel as [|fuel IH]; intros cursor w; [done|].
  cbn [cleanLoop]. rewrite always_call_bind. split; [done|].
  destruct (exec (Redis_Scan _ _ _) w).1 as [[keys next]|].
  - rewrite always_bind. split; [apply sweepKeys_always|].
    destruct (next =? 0); [done|apply IH].
  - by rewrite always_call_bind.
Qed.

Lemma updateProductHandler_always (idStr body : string) (id : Z) (w : World) :
  strconv_Atoi idStr = Some id →
  always (update_op id) (updateProductHandler idStr body) w.
Proof.
  intros Hid. unfold updateProductHandler. rewrite Hid.
  destruct (json_Decode body) as [input|]; [|done].
  case_bool_decide; [done|].
  rewrite !always_call_bind. simpl. tauto.
Qed.

End Footprints.

(* ===================================================================== *)
(** ** Invariants of the cache *)
(* ===================================================================== *)

Lemma add_slot_elem (key k : string) (sl : list string) :
  k ∈ Backend.add_slot key sl ↔ k = key ∨ k ∈ sl.
Proof.
  unfold Backend.add_slot. case_bool_decide as Hin.
  - split; [auto|]. by intros [->|?].
  - rewrite elem_of_app, list_elem_of_singleton. tauto.
Qed.

Lemma store_slots_cover (key : string) (e : entry) (r : Redis) :
  slots_cover r → slots_cover (Backend.store key e r).
Proof.
  intros Hc k. unfold Backend.store. simpl. rewrite add_slot_elem.
  destruct (decide (key = k)) as [<-|Hne]; [auto|].
  rewrite lookup_insert_ne by done. auto.
Qed.

Lemma remove_slots_cover (key : string) (r : Redis) :
  slots_cover r → slots_cover (Backend.remove key r).
Proof.
  intros Hc k. unfold Backend.remove. simpl.
  destruct (decide (key = k)) as [<-|Hne].
  - rewrite lookup_delete_eq. by intros [? ?].
  - rewrite lookup_delete_ne by done. auto.
Qed.

Lemma exec_slots_cover {R : Type} (o : op R) (w : World) :
  slots_cover (redis w) → slots_cover (redis (exec o w).2).
Proof.
  intros Hc. destruct o; simpl; try done; redis_cases; simpl; try done.
  - unfold Backend.get. by destruct (Backend.lookup _ _ _).
  - unfold Backend.incr. destruct (Backend.lookup _ _ _) as [e|]; simpl.
    + destruct (Backend.parse_int _) as [n|]; simpl; [|done].
      destruct (n <? _); simpl; auto using store_slots_cover.
    + auto using store_slots_cover.
  - unfold Backend.expire. destruct (Backend.lookup _ _ _) as [e|]; simpl; [|done].
    destruct (_ <=? _); simpl; auto using store_slots_cover, remove_slots_cover.
  - auto using store_slots_cover.
  - unfold Backend.del.
    destruct (Backend.lookup _ _ _); simpl; auto using remove_slots_cover.
Qed.

Section Invariants.
Context `{JSON}.

Lemma get_op_db (id : Z) {R : Type} (o : op R) (w : World) :
  get_op id R o w → fakeProductDB (exec o w).2 = fakeProductDB w.
Proof. rewrite exec_db. by destruct o. Qed.

Lemma sweep_op_db {R : Type} (o : op R) (w : World) :
  sweep_op R o w → fakeProductDB (exec o w).2 = fakeProductDB w.
Proof. rewrite exec_db. by destruct o. Qed.

Lemma update_op_db (id k : Z) {R : Type} (o : op R) (w : World) :
  id ≠ k → update_op id R o w →
  fakeProductDB (exec o w).2 !! k = fakeProductDB w !! k.
Proof.
  intros Hne Ho. rewrite exec_db. destruct o; try done.
  destruct Ho as [-> _]. by rewrite lookup_insert_ne.
Qed.

Lemma loadAndFill_response (id : Z) (k h : string) (w : World) :
  (run (loadAndFill id k h) w).1 = miss_response id w.
Proof.
  unfold loadAndFill, miss_response. rewrite run_call_bind, exec_DB_Load.
  cbn [fst snd]. destruct (fakeProductDB w !! id); [|done].
  by rewrite !run_call_bind.
Qed.

(** The answer of GET /product/{id} in terms of the reply to its GET. *)
Lemma getProductHandler_response (idStr : string) (id : Z) (w : World) :
  strconv_Atoi idStr = Some id →
  (run (getProductHandler idStr) w).1
  = match (exec (Redis_Get (redisProductKey id)) w).1 with
    | Ok data =>
        match json_Unmarshal data with
        | Some q => RespJSON q
        | None => miss_response id w
        end
    | Err _ => miss_response id w
    end.
Proof.
  intros Hid. unfold getProductHandler. rewrite Hid, run_call_bind.
  pose proof (exec_db (Redis_Get (redisProductKey id)) w) as Hdb.
  destruct (exec (Redis_Get _) w) as [r w1]. cbn [fst snd] in *.
  assert (miss_response id w1 = miss_response id w) as <-.
  { unfold miss_response. by rewrite Hdb. }
  rewrite run_bind. destruct r as [data|err].
  - destruct (json_Unmarshal data) as [q|].
    + by rewrite run_bind.
    + cbn [run fst snd]. apply loadAndFill_response.
  - cbn [run fst snd]. apply loadAndFill_response.
Qed.

(** The reply to GET: an error when the call is lost, else what the
    keyspace holds. *)
Lemma exec_Get_reply (key : string) (w : World) :
  (exec (Redis_Get key) w).1
  = if lost w then Err redis_NetError
    else match Backend.lookup (now w) (redis w) key with
         | Some e => Ok (val e)
         | None => Err redis_Nil
         end.
Proof.
  simpl. redis_cases; rewrite lost_record in *; rewrite Hl; [done|].
  simpl. unfold Backend.get. by destruct (Backend.lookup _ _ _).
Qed.

(** A read of a settled identifier answers the record of the database,
    whichever calls are lost. *)
Lemma getProductHandler_settled_response
    (idStr : string) (k : Z) (p : Product) (w : World) :
  strconv_Atoi idStr = Some k →
  settled k p w →
  (run (getProductHandler idStr) w).1 = RespJSON p.
Proof.
  intros Hid [Hdb Hc]. rewrite (getProductHandler_response idStr k w Hid).
  unfold miss_response. rewrite Hdb, exec_Get_reply.
  destruct (lost w); [done|].
  destruct (Backend.lookup _ _ _) as [e|] eqn:Hlk; [|done].
  apply lookup_Some_kv in Hlk as [Hkv _].
  destruct (json_Unmarshal (val e)) as [q|] eqn:Hq; [|done].
  specialize (Hc e q Hkv Hq). congruence.
Qed.

End Invariants.

(* ===================================================================== *)
(** ** The write path *)
(* ===================================================================== *)

Section WritePath.
Context `{JSON}.

(** C6: an update whose body carries an identifier different from the
    one in the path is answered with the client error 400 and changes
    nothing: the database, every cache key, the clock, the transport
    schedule and the trace of operations are those of the world before
    (no operation at all is issued). *)
Theorem update_mismatch_changes_nothing
    (idStr body : string) (id : Z) (input : Product) (w : World) :
  strconv_Atoi idStr = Some id →
  json_Decode body = Some input →
  ID input ≠ id →
  run (updateProductHandler idStr body) w
  = (http_Error "ID in path and body mismatch" http_StatusBadRequest, w).
Proof.
  intros Hid Hbody Hne. unfold updateProductHandler. rewrite Hid, Hbody.
  by rewrite bool_decide_eq_true_2.
Qed.

Lemma del_absent (t : Z) (key : string) (r : Redis) :
  kv r !! key = None → Backend.del t key r = (Ok 0, r).
Proof.
  intros Hk. unfold Backend.del, Backend.lookup. rewrite Hk.
  by rewrite remove_absent.
Qed.

(** C4: an accepted update first replaces the record in the database,
    then issues DEL for the cache entry key and DEL for the hit-counter
    key, in this order and whatever the cache holds or the transport
    does, and then answers 204; a DEL on a key that is not there answers
    0 removed keys, not an error, and leaves the keyspace as it was. *)
Theorem update_stores_then_deletes_both
    (idStr body : string) (id : Z) (input : Product) (w : World) :
  strconv_Atoi idStr = Some id →
  json_Decode body = Some input →
  ID input = id →
  let record' := mkProduct id (Name input) (Price input) in
  let w' := (run (updateProductHandler idStr body) w).2 in
  (run (updateProductHandler idStr body) w).1 = RespStatus http_StatusNoContent
  ∧ trace w' = trace w ++ [Ev (DB_Store id record');
                           Ev (Redis_Del (redisProductKey id));
                           Ev (Redis_Del (redisProductHitsKey id))]
  ∧ fakeProductDB w' = <[id := record']> (fakeProductDB w)
  ∧ (∀ t key r, kv r !! key = None → Backend.del t key r = (Ok 0, r)).
Proof.
  intros Hid Hbody Heq. cbv zeta. unfold updateProductHandler.
  rewrite Hid, Hbody. rewrite bool_decide_eq_false_2 by (by intros ?).
  rewrite !run_call_bind. cbn [run fst snd].
  rewrite !exec_trace, !exec_db.
  rewrite <- !app_assoc. repeat split; auto using del_absent.
Qed.

End WritePath.

Lemma update_mismatch_changes_nothing_witness :
  run (updateProductHandler "2" (json_Marshal (mkProduct 3 "Cherry" 210))) world0
  = (http_Error "ID in path and body mismatch" http_StatusBadRequest, world0).
Proof.
  apply (update_mismatch_changes_nothing "2" _ 2 (mkProduct 3 "Cherry" 210) world0).
  - reflexivity.
  - vm_compute. reflexivity.
  - simpl. lia.
Defined.

Lemma update_stores_then_deletes_both_witness :
  (run (updateProductHandler "1" (json_Marshal (mkProduct 1 "Apple" 120))) world0).1
  = RespStatus http_StatusNoContent.
Proof.
  apply (update_stores_then_deletes_both "1" _ 1 (mkProduct 1 "Apple" 120) world0).
  - reflexivity.
  - vm_compute. reflexivity.
  - reflexivity.
Defined.

(* ===================================================================== *)
(** ** The read path *)
(* ===================================================================== *)

Lemma nofault_lost (w : World) : faults w = [] → lost w = false.
Proof. unfold lost. by intros ->. Qed.

Lemma exec_Get_redis (key : string) (w : World) :
  redis (exec (Redis_Get key) w).2 = redis w.
Proof.
  simpl. redis_cases; simpl; [done|].
  unfold Backend.get. by destruct (Backend.lookup _ _ _).
Qed.

Lemma exec_nofault {R : Type} (o : op R) (w : World) :
  faults w = [] → faults (exec o w).2 = [].
Proof.
  intros Hf. destruct o; simpl; try done;
    rewrite redis_call_served by (by rewrite lost_record, nofault_lost);
    simpl; by rewrite Hf.
Qed.

(** The reply and the keyspace after each call that is served. *)
Lemma exec_Get_served (key : string) (w : World) :
  lost w = false →
  (exec (Redis_Get key) w).1 = (Backend.get (now w) key (redis w)).1.
Proof. intros Hl. simpl. by rewrite redis_call_served. Qed.

Lemma exec_Incr_served (key : string) (w : World) :
  lost w = false →
  (exec (Redis_Incr key) w).1 = (Backend.incr (now w) key (redis w)).1
  ∧ redis (exec (Redis_Incr key) w).2 = (Backend.incr (now w) key (redis w)).2.
Proof. intros Hl. simpl. by rewrite redis_call_served. Qed.

Lemma exec_Expire_served (key : string) (d : Z) (w : World) :
  lost w = false →
  redis (exec (Redis_Expire key d) w).2 = (Backend.expire (now w) key d (redis w)).2.
Proof. intros Hl. simpl. by rewrite redis_call_served. Qed.

Lemma exec_Set_served (key value : string) (d : Z) (w : World) :
  lost w = false →
  redis (exec (Redis_Set key value d) w).2 = (Backend.set (now w) key value d (redis w)).2.
Proof. intros Hl. simpl. by rewrite redis_call_served. Qed.

Lemma exec_Del_served (key : string) (w : World) :
  lost w = false →
  redis (exec (Redis_Del key) w).2 = Backend.remove key (redis w).
Proof.
  intros Hl. simpl. rewrite redis_call_served by done. simpl.
  unfold Backend.del. by destruct (Backend.lookup _ _ _).
Qed.

Lemma exec_TTL_served (key : string) (w : World) :
  lost w = false →
  (exec (Redis_TTL key) w).1 = Ok (Backend.ttl_value (now w) (redis w) key)
  ∧ redis (exec (Redis_TTL key) w).2 = redis w.
Proof. intros Hl. simpl. by rewrite redis_call_served. Qed.

Lemma exec_Scan_served (cursor : Z) (pat : string) (count : Z) (w : World) :
  lost w = false →
  exec (Redis_Scan cursor pat count) w
  = ((Backend.scan cursor pat count (redis w)).1,
     mkWorld (fakeProductDB w) (redis w) (now w) (tail (faults w))
             (trace w ++ [Ev (Redis_Scan cursor pat count)])).
Proof. intros Hl. simpl. by rewrite redis_call_served. Qed.

(** The full TTL is 30 seconds, that is 30000 milliseconds of the clock. *)
Lemma set_full_ttl (t : Z) (key value : string) (r : Redis) :
  Backend.set t key value redisProductTTL r
  = (Ok "OK"%string, Backend.store key (mkEntry value (Some (t + 30000))) r).
Proof. reflexivity. Qed.

Lemma expire_full_ttl (t : Z) (key : string) (r : Redis) (e : entry) :
  Backend.lookup t r key = Some e →
  Backend.expire t key redisProductTTL r
  = (Ok true, Backend.store key (mkEntry (val e) (Some (t + 30000))) r).
Proof.
  intros Hlk. unfold Backend.expire. rewrite Hlk.
  change (redisProductTTL `div` time_Second * 1000) with 30000.
  destruct (t + 30000 <=? t) eqn:Hle; [lia|done].
Qed.

Section ReadPath.
Context `{JSON}.

(** C2: on a cache miss, and in the same way when the cached value does
    not decode, the read asks the database.  Without a record it answers
    404 and leaves the cache alone.  With a record it issues SET of the
    encoded record under the cache entry key and SET of 1 under the
    hit-counter key, both with the full TTL, and answers the record; on a
    transport without faults both keys then hold these values and expire
    one TTL from now.  No decoding failure reaches the caller. *)
Theorem miss_reads_database_and_fills
    (idStr : string) (id : Z) (w : World) :
  strconv_Atoi idStr = Some id →
  cache_miss id w →
  let resp := (run (getProductHandler idStr) w).1 in
  let w' := (run (getProductHandler idStr) w).2 in
  match fakeProductDB w !! id with
  | None =>
      resp = http_Error "Product not found" http_StatusNotFound
      ∧ redis w' = redis w
      ∧ trace w' = trace w ++ [Ev (Redis_Get (redisProductKey id)); Ev (DB_Load id)]
  | Some p =>
      resp = RespJSON p
      ∧ trace w' = trace w ++
          [Ev (Redis_Get (redisProductKey id)); Ev (DB_Load id);
           Ev (Redis_Set (redisProductKey id) (json_Marshal p) redisProductTTL);
           Ev (Redis_Set (redisProductHitsKey id) "1" redisProductTTL)]
      ∧ (faults w = [] →
         kv (redis w') !! redisProductKey id
         = Some (mkEntry (json_Marshal p) (Some (now w + 30000)))
         ∧ kv (redis w') !! redisProductHitsKey id
           = Some (mkEntry "1" (Some (now w + 30000))))
  end.
Proof.
  intros Hid Hmiss. cbv zeta.
  rewrite (getProductHandler_response idStr id w Hid).
  unfold getProductHandler, cache_miss in *. rewrite Hid, run_call_bind.
  pose proof (exec_db (Redis_Get (redisProductKey id)) w) as Hdb.
  pose proof (exec_trace (Redis_Get (redisProductKey id)) w) as Htr.
  pose proof (exec_Get_redis (redisProductKey id) w) as Hre.
  pose proof (exec_now (Redis_Get (redisProductKey id)) w) as Hnow.
  pose proof (exec_nofault (Redis_Get (redisProductKey id)) w) as Hnf.
  destruct (exec (Redis_Get _) w) as [r w1]. cbn [fst snd] in *.
  assert (run (cached <- match r with
                         | Ok data =>
                             match json_Unmarshal data with
                             | Some product =>
                                 (countHit (redisProductKey id) (redisProductHitsKey id) ;;;
                                  Ret (Some product))
                             | None => Ret None
                             end
                         | Err _ => Ret None
                         end ;;
               match cached with
               | Some product => Ret (RespJSON product)
               | None => loadAndFill id (redisProductKey id) (redisProductHitsKey id)
               end)%prog w1
          = run (loadAndFill id (redisProductKey id) (redisProductHitsKey id)) w1) as ->.
  { rewrite run_bind. destruct r as [data|err]; [|done]. by rewrite Hmiss. }
  assert (match r with
          | Ok data => match json_Unmarshal data with
                       | Some q => RespJSON q
                       | None => miss_response id w
                       end
          | Err _ => miss_response id w
          end = miss_response id w) as ->.
  { destruct r as [data|err]; [|done]. by rewrite Hmiss. }
  unfold loadAndFill, miss_response. rewrite run_call_bind, exec_DB_Load.
  cbn [fst snd]. rewrite Hdb.
  destruct (fakeProductDB w !! id) as [p|] eqn:Hp.
  - rewrite !run_call_bind. cbn [run fst snd].
    rewrite !exec_trace. cbn [trace record]. rewrite Htr, <- !app_assoc.
    split; [done|]. split; [done|]. intros Hf. specialize (Hnf Hf).
    set (w2 := record (Ev (DB_Load id)) w1).
    assert (faults w2 = []) as Hf2 by done.
    set (w3 := (exec (Redis_Set (redisProductKey id) _ _) w2).2).
    assert (faults w3 = []) as Hf3 by by apply exec_nofault.
    rewrite (exec_Set_served _ _ _ w3), set_full_ttl by by apply nofault_lost.
    unfold w3. rewrite exec_now.
    rewrite (exec_Set_served _ _ _ w2), set_full_ttl by by apply nofault_lost.
    cbn [snd Backend.store kv now redis w2 record]. rewrite Hnow.
    rewrite lookup_insert_eq, lookup_insert_ne, lookup_insert_eq
      by apply hits_ne_key.
    done.
  - cbn [run fst snd redis trace record]. rewrite Hre, Htr, <- !app_assoc. done.
Qed.

End ReadPath.

Lemma miss_reads_database_and_fills_witness :
  (run (getProductHandler "1") world0).1 = RespJSON (mkProduct 1 "Apple" 100).
Proof.
  apply (miss_reads_database_and_fills "1" 1 world0).
  - reflexivity.
  - exact I.
Defined.

(* ===================================================================== *)
(** ** Cache hits *)
(* ===================================================================== *)

Lemma lookup_store_eq (t : Z) (key : string) (e : entry) (r : Redis) :
  Backend.lookup t (Backend.store key e r) key
  = if Backend.expired t e then None else Some e.
Proof. unfold Backend.lookup, Backend.store. simpl. by rewrite lookup_insert_eq. Qed.

Lemma lookup_store_ne (t : Z) (key k : string) (e : entry) (r : Redis) :
  key ≠ k → Backend.lookup t (Backend.store key e r) k = Backend.lookup t r k.
Proof.
  intros Hne. unfold Backend.lookup, Backend.store. simpl.
  by rewrite lookup_insert_ne.
Qed.

Lemma incr_counts (t : Z) (key : string) (r : Redis) (n : Z) :
  count_of (Backend.lookup t r key) = Some n →
  n < math_MaxInt64 →
  Backend.incr t key r
  = (Ok (n + 1),
     Backend.store key
       (mkEntry (fmt_d (n + 1)) (expiry_of (Backend.lookup t r key))) r).
Proof.
  intros Hc Hn. unfold Backend.incr.
  destruct (Backend.lookup t r key) as [c0|]; simpl in *.
  - rewrite Hc. by destruct (n <? math_MaxInt64) eqn:Hlt; [|lia].
  - by injection Hc as <-.
Qed.

Lemma expired_expiry_of (t : Z) (r : Redis) (key v : string) :
  Backend.expired t (mkEntry v (expiry_of (Backend.lookup t r key))) = false.
Proof.
  destruct (Backend.lookup t r key) as [c0|] eqn:Hlk; [|done].
  apply lookup_Some_kv in Hlk as [_ Hx]. by destruct c0.
Qed.

Section Hits.
Context `{JSON}.

(** The keyspace, the replies and the trace of [countHit] on a
    transport without faults. *)
Lemma countHit_nofault (id : Z) (w : World) (e : entry) (n : Z) :
  faults w = [] →
  Backend.lookup (now w) (redis w) (redisProductKey id) = Some e →
  count_of (Backend.lookup (now w) (redis w) (redisProductHitsKey id)) = Some n →
  n < math_MaxInt64 →
  let key := redisProductKey id in
  let hitsKey := redisProductHitsKey id in
  let counted :=
    Backend.store hitsKey
      (mkEntry (fmt_d (n + 1))
               (expiry_of (Backend.lookup (now w) (redis w) hitsKey)))
      (redis w) in
  let w' := (run (countHit key hitsKey) w).2 in
  fakeProductDB w' = fakeProductDB w
  ∧ now w' = now w
  ∧ faults w' = []
  ∧ (if popularThreshold <=? n + 1
     then redis w'
          = Backend.store hitsKey (mkEntry (fmt_d (n + 1)) (Some (now w + 30000)))
              (Backend.store key (mkEntry (val e) (Some (now w + 30000))) counted)
          ∧ trace w' = trace w ++ [Ev (Redis_Incr hitsKey);
                                   Ev (Redis_Expire key redisProductTTL);
                                   Ev (Redis_Expire hitsKey redisProductTTL)]
     else redis w' = counted
          ∧ trace w' = trace w ++ [Ev (Redis_Incr hitsKey)]).
Proof.
  intros Hf Hkey Hcnt Hn. cbv zeta. unfold countHit. rewrite run_call_bind.
  destruct (exec_Incr_served (redisProductHitsKey id) w) as [Hr Hre];
    [by apply nofault_lost|].
  rewrite (incr_counts _ _ _ n) in Hr, Hre by done. cbn [fst snd] in Hr, Hre.
  pose proof (exec_db (Redis_Incr (redisProductHitsKey id)) w) as Hdb.
  pose proof (exec_trace (Redis_Incr (redisProductHitsKey id)) w) as Htr.
  pose proof (exec_now (Redis_Incr (redisProductHitsKey id)) w) as Hnow.
  pose proof (exec_nofault (Redis_Incr (redisProductHitsKey id)) w Hf) as Hnf.
  destruct (exec (Redis_Incr _) w) as [r w1]. cbn [fst snd] in *. subst r.
  cbn [int_val]. destruct (popularThreshold <=? n + 1).
  - rewrite !run_call_bind. cbn [run fst snd].
    assert (faults (exec (Redis_Expire (redisProductKey id) redisProductTTL) w1).2 = [])
      as Hf2 by by apply exec_nofault.
    rewrite !exec_db, !exec_now, !exec_trace, Htr, <- !app_assoc.
    rewrite exec_nofault by done. repeat split; try done.
    rewrite exec_Expire_served by by apply nofault_lost.
    rewrite exec_now, (exec_Expire_served _ _ w1) by by apply nofault_lost.
    rewrite Hre, Hnow.
    rewrite (expire_full_ttl _ (redisProductKey id) _ e)
      by (rewrite lookup_store_ne by apply hits_ne_key; done).
    cbn [snd].
    rewrite (expire_full_ttl _ _ _
               (mkEntry (fmt_d (n + 1))
                  (expiry_of (Backend.lookup (now w) (redis w) (redisProductHitsKey id))))).
    + done.
    + rewrite lookup_store_ne by apply key_ne_hits.
      by rewrite lookup_store_eq, expired_expiry_of.
  - cbn [run fst snd]. by rewrite Htr.
Qed.

(** The keyspace and the trace after a read that hits, on a transport
    without faults: those of [countHit] after the GET. *)
Lemma hit_keyspace
    (idStr : string) (id : Z) (w : World) (e : entry) (p : Product) (n : Z) :
  strconv_Atoi idStr = Some id →
  faults w = [] →
  Backend.lookup (now w) (redis w) (redisProductKey id) = Some e →
  json_Unmarshal (val e) = Some p →
  count_of (Backend.lookup (now w) (redis w) (redisProductHitsKey id)) = Some n →
  n < math_MaxInt64 →
  let key := redisProductKey id in
  let hitsKey := redisProductHitsKey id in
  let counted :=
    Backend.store hitsKey
      (mkEntry (fmt_d (n + 1))
               (expiry_of (Backend.lookup (now w) (redis w) hitsKey)))
      (redis w) in
  let w' := (run (getProductHandler idStr) w).2 in
  fakeProductDB w' = fakeProductDB w
  ∧ now w' = now w
  ∧ faults w' = []
  ∧ (if popularThreshold <=? n + 1
     then redis w'
          = Backend.store hitsKey (mkEntry (fmt_d (n + 1)) (Some (now w + 30000)))
              (Backend.store key (mkEntry (val e) (Some (now w + 30000))) counted)
          ∧ trace w' = trace w ++ [Ev (Redis_Get key); Ev (Redis_Incr hitsKey);
                                   Ev (Redis_Expire key redisProductTTL);
                                   Ev (Redis_Expire hitsKey redisProductTTL)]
     else redis w' = counted
          ∧ trace w' = trace w ++ [Ev (Redis_Get key); Ev (Redis_Incr hitsKey)]).
Proof.
  intros Hid Hf Hkey Hp Hcnt Hn. cbv zeta.
  unfold getProductHandler. rewrite Hid, run_call_bind.
  pose proof (exec_Get_served (redisProductKey id) w (nofault_lost w Hf)) as Hr.
  unfold Backend.get in Hr. rewrite Hkey in Hr. cbn [fst] in Hr.
  pose proof (exec_db (Redis_Get (redisProductKey id)) w) as Hdb.
  pose proof (exec_trace (Redis_Get (redisProductKey id)) w) as Htr.
  pose proof (exec_Get_redis (redisProductKey id) w) as Hre.
  pose proof (exec_now (Redis_Get (redisProductKey id)) w) as Hnow.
  pose proof (exec_nofault (Redis_Get (redisProductKey id)) w Hf) as Hnf.
  destruct (exec (Redis_Get _) w) as [r w1]. cbn [fst snd] in *. subst r.
  rewrite Hp. rewrite !run_bind. cbn [run fst snd].
  destruct (countHit_nofault id w1 e n) as (Hdb' & Hnow' & Hnf' & Hhit);
    [by rewrite ?Hre, ?Hnow..|done|].
  rewrite Hre, Hnow, Htr, <- ?app_assoc in Hhit.
  by rewrite Hdb', Hdb, Hnow', Hnow.
Qed.

(** C3: a read that finds a decodable entry on a transport without
    faults counts the hit (a missing counter becomes 1) and answers the
    cached record.  If and only if the count after the increment is at
    least [popularThreshold], it sets the expiry of the cache entry and
    of the hit counter to one full TTL from now; otherwise both keep the
    expiry they had.  In particular, when the count reaches the threshold
    on an entry that was created with the full TTL and is read later
    within that window, the entry expires later than it would have. *)
Theorem hit_counts_and_refreshes_popular
    (idStr : string) (id : Z) (w : World) (e : entry) (p : Product) (n : Z) :
  strconv_Atoi idStr = Some id →
  faults w = [] →
  Backend.lookup (now w) (redis w) (redisProductKey id) = Some e →
  json_Unmarshal (val e) = Some p →
  count_of (Backend.lookup (now w) (redis w) (redisProductHitsKey id)) = Some n →
  n < math_MaxInt64 →
  let old_expiry := expiry_of (Backend.lookup (now w) (redis w) (redisProductHitsKey id)) in
  let popular := popularThreshold <=? n + 1 in
  let w' := (run (getProductHandler idStr) w).2 in
  (run (getProductHandler idStr) w).1 = RespJSON p
  ∧ fakeProductDB w' = fakeProductDB w
  ∧ kv (redis w') !! redisProductHitsKey id
    = Some (mkEntry (fmt_d (n + 1))
                    (if popular then Some (now w + 30000) else old_expiry))
  ∧ kv (redis w') !! redisProductKey id
    = Some (mkEntry (val e)
                    (if popular then Some (now w + 30000) else expire_at e))
  ∧ trace w' = trace w ++
      [Ev (Redis_Get (redisProductKey id)); Ev (Redis_Incr (redisProductHitsKey id))]
      ++ (if popular
          then [Ev (Redis_Expire (redisProductKey id) redisProductTTL);
                Ev (Redis_Expire (redisProductHitsKey id) redisProductTTL)]
          else [])
  ∧ (n + 1 = popularThreshold →
     ∀ created, expire_at e = Some (created + 30000) → created < now w →
     ∃ e', kv (redis w') !! redisProductKey id = Some e'
           ∧ expire_at e' = Some (now w + 30000)
           ∧ created + 30000 < now w + 30000).
Proof.
  intros Hid Hf Hkey Hp Hcnt Hn. cbv zeta. split.
  { rewrite (getProductHandler_response idStr id w Hid).
    rewrite exec_Get_served by by apply nofault_lost.
    unfold Backend.get. rewrite Hkey. cbn [fst]. by rewrite Hp. }
  destruct (hit_keyspace idStr id w e p n Hid Hf Hkey Hp Hcnt Hn)
    as (Hdb & _ & _ & Hhit).
  split; [done|].
  destruct (popularThreshold <=? n + 1) eqn:Hpop.
  - destruct Hhit as [-> ->]. cbn [Backend.store kv].
    rewrite lookup_insert_eq, lookup_insert_ne, lookup_insert_eq by apply hits_ne_key.
    split; [done|]. split; [done|]. split; [done|].
    intros _ created _ Hlt. eexists. split; [done|]. split; [done|]. lia.
  - destruct Hhit as [-> ->]. cbn [Backend.store kv].
    rewrite lookup_insert_eq, lookup_insert_ne by apply hits_ne_key.
    apply lookup_Some_kv in Hkey as [-> _]. destruct e.
    split; [done|]. split; [done|]. split; [done|].
    unfold popularThreshold in *. lia.
Qed.

End Hits.

Lemma hit_counts_and_refreshes_popular_witness :
  (run (getProductHandler "1") world_cached).1 = RespJSON (mkProduct 1 "Apple" 100)
  ∧ kv (redis (run (getProductHandler "1") world_cached).2) !! redisProductKey 1
    = Some (mkEntry (json_Marshal (mkProduct 1 "Apple" 100)) (Some 31000)).
Proof.
  destruct (hit_counts_and_refreshes_popular "1" 1 world_cached
              (mkEntry (json_Marshal (mkProduct 1 "Apple" 100)) (Some 30000))
              (mkProduct 1 "Apple" 100) 1) as (Hresp & _ & _ & Hkey & _).
  - reflexivity.
  - reflexivity.
  - vm_compute. reflexivity.
  - vm_compute. reflexivity.
  - vm_compute. reflexivity.
  - vm_compute. reflexivity.
  - split; [exact Hresp | exact Hkey].
Defined.

(* ===================================================================== *)
(** ** Requests served one after the other *)
(* ===================================================================== *)

Section Sequential.
Context `{JSON}.

Lemma perform_Fetch_world (idStr : string) (fs : list bool) (w : World) :
  (perform (Fetch idStr fs) w).2 = (run (getProductHandler idStr) (with_faults fs w)).2.
Proof. simpl. by destruct (run _ _). Qed.

Lemma perform_Update_world (idStr body : string) (fs : list bool) (w : World) :
  (perform (Update idStr body fs) w).2
  = (run (updateProductHandler idStr body) (with_faults fs w)).2.
Proof. simpl. by destruct (run _ _). Qed.

(** An accepted update leaves no entry under the cache entry key when its
    first DEL is served. *)
Lemma update_effect (idStr body : string) (id : Z) (input : Product) (w : World) :
  strconv_Atoi idStr = Some id →
  json_Decode body = Some input →
  ID input = id →
  let w' := (run (updateProductHandler idStr body) w).2 in
  fakeProductDB w' = <[id := mkProduct id (Name input) (Price input)]> (fakeProductDB w)
  ∧ (∀ k e', kv (redis w') !! k = Some e' → kv (redis w) !! k = Some e')
  ∧ (lost w = false → kv (redis w') !! redisProductKey id = None).
Proof.
  intros Hid Hbody Heq. cbv zeta. unfold updateProductHandler.
  rewrite Hid, Hbody. rewrite bool_decide_eq_false_2 by (by intros ?).
  rewrite !run_call_bind. cbn [run fst snd]. rewrite !exec_db.
  split; [done|].
  set (w1 := (exec (DB_Store _ _) w).2).
  set (w2 := (exec (Redis_Del (redisProductKey id)) w1).2).
  assert (∀ key w0 k e', kv (redis (exec (Redis_Del key) w0).2) !! k = Some e' →
                         kv (redis w0) !! k = Some e') as Hdel.
  { intros key w0 k e'. simpl. redis_cases; simpl; [done|].
    unfold Backend.del. destruct (Backend.lookup _ _ _); simpl;
      intros [_ ?]%lookup_delete_Some; done. }
  split.
  - intros k e' Hk. by apply Hdel, Hdel in Hk.
  - intros Hl. destruct (kv _ !! _) as [e'|] eqn:Hk; [|done].
    apply Hdel in Hk. unfold w2 in Hk.
    rewrite exec_Del_served in Hk by done. simpl in Hk.
    by rewrite lookup_delete_eq in Hk.
Qed.


End Sequential.

(* ===================================================================== *)
(** ** Cache entries come from the database *)
(* ===================================================================== *)

Section Orphans.
Context `{JSON}.

Lemma service_op_no_orphans {R : Type} (o : op R) (w : World) :
  service_op R o w → no_orphans w → no_orphans (exec o w).2.
Proof.
  intros Ho Hw id e' q Hk Hq.
  assert (∀ i, is_Some (fakeProductDB w !! i) → is_Some (fakeProductDB (exec o w).2 !! i))
    as Hdb.
  { intros i Hi. rewrite exec_db. destruct o; try done.
    rewrite lookup_insert_is_Some. destruct (decide (id0 = i)); auto. }
  apply Hdb. apply exec_kv in Hk as [(e & He & Hv)|Hk].
  - rewrite Hv in Hq. eauto.
  - destruct o; simpl in Hk; try done.
    + destruct Ho as [[i Ho]|[[i Ho]|Ho]]; simpl in Ho; try done.
      rewrite Ho in Hk. by apply key_ne_hits in Hk.
    + destruct Hk as [<- _].
      destruct Ho as [[i Ho]|[[i Ho]|Ho]]; simpl in Ho; try done.
      destruct Ho as [_ [[Hkey (p & Hp & _)]|[Hkey _]]].
      * apply redisProductKey_inj in Hkey as ->. by rewrite Hp.
      * by apply key_ne_hits in Hkey.
Qed.

Lemma perform_no_orphans (a : activity) (w : World) :
  no_orphans w → no_orphans (perform a w).2.
Proof.
  intros Hw.
  assert (∀ A (p : Prog A) w0, always service_op p w0 → no_orphans w0 →
                               no_orphans (run p w0).2) as Hrun.
  { intros A p w0. apply run_invariant. intros R o w1 Hw1 Ho.
    by apply service_op_no_orphans. }
  destruct a as [idStr fs|idStr body fs|fuel fs|d].
  - rewrite perform_Fetch_world. destruct (strconv_Atoi idStr) as [id|] eqn:Hid.
    + apply Hrun; [|done].
      eapply always_mono; [|by apply getProductHandler_always].
      intros R o w1 Ho. left. by exists id.
    + unfold getProductHandler. by rewrite Hid.
  - rewrite perform_Update_world. destruct (strconv_Atoi idStr) as [id|] eqn:Hid.
    + apply Hrun; [|done].
      eapply always_mono; [|by apply updateProductHandler_always].
      intros R o w1 Ho. right. left. by exists id.
    + unfold updateProductHandler. by rewrite Hid.
  - simpl. apply Hrun; [|done].
    eapply always_mono; [|apply cleanLoop_always].
    intros R o w1 Ho. by right; right.
  - done.
Qed.

(** Every world the service reaches from start-up by serving requests one
    after the other is free of orphans, whatever calls were lost. *)
Lemma replay_no_orphans (h : list activity) (w : World) :
  no_orphans w → no_orphans (replay h w).2.
Proof.
  revert w. induction h as [|a h IH]; intros w Hw; [done|].
  cbn [replay]. pose proof (perform_no_orphans a w Hw) as Hw1.
  destruct (perform a w) as [r w1]. specialize (IH w1 Hw1).
  by destruct (replay h w1).
Qed.

Lemma world0_no_orphans : no_orphans world0.
Proof.
  intros id e q Hk.
  change ((∅ : gmap string entry) !! redisProductKey id = Some e) in Hk.
  by rewrite lookup_empty in Hk.
Qed.


End Orphans.

(* ===================================================================== *)
(** ** Reads after writes *)
(* ===================================================================== *)

Section Consistency.
Context `{JSON}.


(** C7 (amended): for an identifier the database holds, a GET that
    fails is a cache miss and the read answers the record of the
    database; whatever cache calls fail, the answer is a product and never
    an error; the failures of the calls after the GET never change the
    answer; and when the cache entry, if it decodes, agrees with the
    database, the answer is the record of the database under every
    transport schedule, so that no cache error changes it. *)
Theorem cache_errors_fall_back_to_database
    (idStr : string) (id : Z) (p : Product) (w : World) :
  strconv_Atoi idStr = Some id →
  fakeProductDB w !! id = Some p →
  (lost w = true →
   cache_miss id w ∧ (run (getProductHandler idStr) w).1 = RespJSON p)
  ∧ (∀ fs, ∃ q, (run (getProductHandler idStr) (with_faults fs w)).1 = RespJSON q)
  ∧ (∀ b fs fs',
       (run (getProductHandler idStr) (with_faults (b :: fs) w)).1
       = (run (getProductHandler idStr) (with_faults (b :: fs') w)).1)
  ∧ (coherent_at id w →
     ∀ fs, (run (getProductHandler idStr) (with_faults fs w)).1 = RespJSON p).
Proof.
  intros Hid Hdb. split; [|split; [|split]].
  - intros Hl. split.
    + unfold cache_miss. by rewrite exec_Get_reply, Hl.
    + rewrite (getProductHandler_response idStr id w Hid), exec_Get_reply.
      unfold miss_response. by rewrite Hdb, Hl.
  - intros fs. rewrite (getProductHandler_response idStr id _ Hid).
    unfold miss_response. simpl fakeProductDB. rewrite Hdb.
    destruct (exec _ _).1 as [data|]; [|eauto].
    destruct (json_Unmarshal data); eauto.
  - intros b fs fs'. rewrite !(getProductHandler_response idStr id _ Hid).
    by rewrite !exec_Get_reply.
  - intros Hc fs. by apply (getProductHandler_settled_response idStr id).
Qed.

End Consistency.

(** C8 as stated fails: in [world_stale] the database holds the new
    price, and of two reads of product 1 with no update between them the
    first answers the cached price and the second, after the entry has
    expired, the price of the database.  The same happens, without any
    lost call, after a read that overlaps the update. *)
Lemma repeated_reads_can_differ :
  fakeProductDB world_stale !! 1 = Some apple120
  ∧ (replay [Fetch "1" []; Wait 31000; Fetch "1" []] world_stale).1
    = [Some (RespJSON apple100); None; Some (RespJSON apple120)]
  ∧ (replay [Fetch "1" []; Wait 31000; Fetch "1" []]
       (interleave [0; 0; 1; 1; 1; 0; 0]%nat
          [getProductHandler "1"; updateProductHandler "1" (json_Marshal apple120)]
          world0).2).1
    = [Some (RespJSON apple100); None; Some (RespJSON apple120)].
Proof. vm_compute. repeat split. Qed.


(** C7 as stated fails in its last clause: in [world_stale], where the
    database holds the new price of product 1 and the cache the old one,
    the read answers the old price when its GET is served and the new one
    when its GET is lost. *)
Lemma response_can_depend_on_cache_error :
  fakeProductDB world_stale !! 1 = Some apple120
  ∧ (run (getProductHandler "1") (with_faults [] world_stale)).1 = RespJSON apple100
  ∧ (run (getProductHandler "1") (with_faults [true] world_stale)).1 = RespJSON apple120.
Proof. vm_compute. repeat split. Qed.

Lemma cache_errors_fall_back_to_database_witness :
  (run (getProductHandler "1") (with_faults [true; true; true] world_cached)).1
  = RespJSON apple100.
Proof.
  destruct (cache_errors_fall_back_to_database "1" 1 apple100
              (with_faults [true; true; true] world_cached)) as (Hlost & _).
  - reflexivity.
  - vm_compute. reflexivity.
  - exact (proj2 (Hlost eq_refl)).
Defined.

(* ===================================================================== *)
(** ** The cache cleaner *)
(* ===================================================================== *)

Lemma ttl_value_kv (t : Z) (r r' : Redis) (k : string) :
  kv r !! k = kv r' !! k → Backend.ttl_value t r k = Backend.ttl_value t r' k.
Proof. unfold Backend.ttl_value, Backend.lookup. by intros ->. Qed.

Lemma swept_trans (S1 S2 : string → bool) (t : Z) (r r1 r2 : Redis) :
  swept S1 t r r1 → swept S2 t r1 r2 → swept (λ k, S1 k || S2 k) t r r2.
Proof.
  intros [Hs1 H1] [Hs2 H2]. split; [congruence|]. intros k.
  rewrite H2. specialize (H1 k).
  destruct (S1 k && stale (Backend.ttl_value t r k)) eqn:Hc1.
  - apply andb_true_iff in Hc1 as [-> ->]. rewrite H1. simpl.
    by destruct (S2 k && _).
  - rewrite <- (ttl_value_kv t r r1 k) by done. rewrite H1.
    destruct (stale (Backend.ttl_value t r k)); [|by rewrite !andb_false_r].
    rewrite andb_true_r in Hc1. by rewrite Hc1.
Qed.

Lemma swept_ext (S S' : string → bool) (t : Z) (r r' : Redis) :
  (∀ k, is_Some (kv r !! k) → S k = true ↔ S' k = true) →
  swept S t r r' → swept S' t r r'.
Proof.
  intros Hext [Hs Hk]. split; [done|]. intros k. rewrite Hk.
  destruct (kv r !! k) as [e|] eqn:He.
  - assert (S k = S' k) as ->; [|done].
    apply eq_true_iff_eq, Hext. by rewrite He.
  - by destruct (_ && _), (_ && _).
Qed.

Lemma sweepKeys_nofault (keys : list string) (w : World) :
  faults w = [] →
  let w' := (run (sweepKeys keys) w).2 in
  fakeProductDB w' = fakeProductDB w
  ∧ now w' = now w
  ∧ faults w' = []
  ∧ swept (λ k, bool_decide (k ∈ keys)) (now w) (redis w) (redis w').
Proof.
  revert w. induction keys as [|key keys IH]; intros w Hf; cbv zeta.
  - cbn [sweepKeys run snd]. by repeat split.
  - cbn [sweepKeys]. rewrite run_call_bind.
    destruct (exec_TTL_served key w (nofault_lost w Hf)) as [Hr Hre].
    pose proof (exec_db (Redis_TTL key) w) as Hdb.
    pose proof (exec_now (Redis_TTL key) w) as Hnow.
    pose proof (exec_nofault (Redis_TTL key) w Hf) as Hnf.
    destruct (exec (Redis_TTL key) w) as [r w1]. cbn [fst snd] in *. subst r.
    rewrite run_bind.
    set (w2 := (run (if stale (Backend.ttl_value (now w) (redis w) key)
                     then (call (Redis_Del key) ;;; Ret ())%prog
                     else Ret ()) w1).2).
    assert (fakeProductDB w2 = fakeProductDB w ∧ now w2 = now w ∧ faults w2 = []
            ∧ swept (λ k, bool_decide (k = key)) (now w) (redis w) (redis w2))
      as (Hdb2 & Hnow2 & Hnf2 & Hsw2).
    { unfold w2. destruct (stale _) eqn:Hst.
      - rewrite run_call_bind. cbn [run snd].
        rewrite exec_db, exec_now, exec_nofault by done.
        rewrite exec_Del_served by by apply nofault_lost. rewrite Hre.
        repeat split; try done. intros k. simpl. case_bool_decide as Hk.
        + subst k. by rewrite Hst, lookup_delete_eq.
        + by rewrite lookup_delete_ne.
      - cbn [run snd]. rewrite Hre. repeat split; try done. intros k.
        case_bool_decide as Hk; [|done]. subst k. by rewrite Hst. }
    destruct (IH w2 Hnf2) as (Hdb3 & Hnow3 & Hnf3 & Hsw3). rewrite Hnow2 in Hsw3.
    split; [congruence|]. split; [congruence|]. split; [done|].
    eapply swept_ext; [|exact (swept_trans _ _ _ _ _ _ Hsw2 Hsw3)].
    intros k _. cbn beta. rewrite orb_true_iff, !bool_decide_eq_true.
    by rewrite elem_of_cons.
Qed.

(** The pattern selects the keys that start with the prefix. *)
Lemma glob_match_prefix (pre key : string) :
  Backend.glob_match (pre +:+ "*") key = true ↔ ∃ rest, key = pre +:+ rest.
Proof.
  revert key. induction pre as [|c pre IH]; intros key.
  - split; [by exists key | done].
  - change (String c pre +:+ "*") with (String c (pre +:+ "*")).
    assert (∃ d pat, pre +:+ "*" = String d pat) as (d & pat & Hpat).
    { destruct pre; [by exists "*"%char, EmptyString | by eexists _, _]. }
    cbn [Backend.glob_match]. rewrite Hpat. rewrite <- Hpat.
    destruct key as [|k key].
    + split; [done|]. by intros [rest ?].
    + rewrite andb_true_iff, IH. split.
      * intros [->%Ascii.eqb_eq [rest ->]]. by exists rest.
      * intros [rest [= -> ->]]. split; [apply Ascii.eqb_refl | by exists rest].
Qed.

Lemma cleanLoop_nofault (fuel i : nat) (w : World) :
  faults w = [] →
  (length (slots (redis w)) - i < 100 * fuel)%nat →
  let res := run (cleanLoop fuel (Z.of_nat i)) w in
  res.1 = Some tt
  ∧ fakeProductDB res.2 = fakeProductDB w
  ∧ now res.2 = now w
  ∧ swept (λ k, bool_decide (k ∈ drop i (slots (redis w)))
                && Backend.glob_match productPattern k)
          (now w) (redis w) (redis res.2).
Proof.
  revert i w. induction fuel as [|fuel IH]; intros i w Hf Hfuel; cbv zeta; [lia|].
  cbn [cleanLoop]. rewrite run_call_bind.
  rewrite exec_Scan_served by by apply nofault_lost. cbn [fst snd Backend.scan].
  rewrite Nat2Z.id. change (Z.to_nat scanCount) with 100%nat.
  set (page := take 100 (drop i (slots (redis w)))).
  set (keys := List.filter _ page).
  set (w1 := mkWorld _ _ _ _ _).
  assert (faults w1 = []) as Hf1 by (simpl; by rewrite Hf).
  rewrite run_bind.
  destruct (sweepKeys_nofault keys w1 Hf1) as (Hdb2 & Hnow2 & Hnf2 & Hsw2).
  set (w2 := (run (sweepKeys keys) w1).2) in *.
  simpl in Hdb2, Hnow2, Hsw2.
  assert (swept (λ k, bool_decide (k ∈ page) && Backend.glob_match productPattern k)
                (now w) (redis w) (redis w2)) as Hpage.
  { eapply swept_ext; [|exact Hsw2]. intros k Hk. cbn beta.
    rewrite andb_true_iff, !bool_decide_eq_true. unfold keys.
    rewrite list_elem_of_In, filter_In, <- list_elem_of_In, andb_true_iff.
    rewrite bool_decide_eq_true. unfold productPattern. tauto. }
  destruct (i + 100 <? length (slots (redis w)))%nat eqn:Hmore.
  - apply Nat.ltb_lt in Hmore.
    replace (Z.of_nat i + scanCount =? 0) with false
      by (symmetry; apply Z.eqb_neq; unfold scanCount; lia).
    replace (Z.of_nat i + scanCount) with (Z.of_nat (i + 100))
      by (unfold scanCount; lia).
    destruct Hpage as [Hsl Hpage'].
    destruct (IH (i + 100)%nat w2 Hnf2) as (Hres & Hdb3 & Hnow3 & Hsw3).
    { rewrite Hsl. lia. }
    rewrite Hnow2, Hsl in Hsw3.
    split; [done|]. split; [congruence|]. split; [congruence|].
    eapply swept_ext; [|exact (swept_trans _ _ _ _ _ _ (conj Hsl Hpage') Hsw3)].
    intros k _. cbn beta.
    rewrite orb_true_iff, !andb_true_iff, !bool_decide_eq_true.
    assert (k ∈ drop i (slots (redis w))
            ↔ k ∈ page ∨ k ∈ drop (i + 100) (slots (redis w))) as ->; [|tauto].
    rewrite <- drop_drop, <- elem_of_app. unfold page. by rewrite take_drop.
  - apply Nat.ltb_ge in Hmore. cbn [Z.eqb run fst snd].
    split; [done|]. split; [done|]. split; [done|].
    eapply swept_ext; [|exact Hpage]. intros k _. cbn beta. unfold page.
    rewrite take_ge; [done|]. rewrite length_drop. lia.
Qed.

(** The reply of TTL for a key in the table is stale exactly when the key
    has no expiry or less than 500 milliseconds left. *)
Lemma stale_reply_remaining (w : World) (k : string) (e : entry) :
  kv (redis w) !! k = Some e →
  (Backend.ttl_value (now w) (redis w) k = -1
   ∨ Backend.ttl_value (now w) (redis w) k ≤ 0)
  ↔ match expire_at e with
    | None => True
    | Some t => t - now w < 500
    end.
Proof.
  intros Hk. unfold Backend.ttl_value, Backend.lookup, Backend.expired.
  rewrite Hk. destruct (expire_at e) as [t|] eqn:Hx; [|rewrite Hx; tauto].
  destruct (t <? now w) eqn:Hlt.
  - apply Z.ltb_lt in Hlt. split; [lia|by right].
  - apply Z.ltb_ge in Hlt. rewrite Hx. unfold time_Second.
    pose proof (Z.mul_div_le (t - now w + 500) 1000 eq_refl) as Hlo.
    pose proof (Z.mul_succ_div_gt (t - now w + 500) 1000 eq_refl) as Hhi.
    lia.
Qed.

(** C5 (amended): on a transport without faults, one pass of the
    cleaner over a keyspace (with fuel for all its SCAN pages) runs to the
    end, leaves the database alone, removes every key under the prefix
    [product:] whose TTL reply is stale - no expiry (-1) or nothing left
    (at most 0) - and leaves every other key as it was: the keys outside
    the prefix and the keys whose TTL reply is positive.  The reply counts
    whole seconds, rounded to the nearest: the reply of a key in the table
    is stale exactly when the key has no expiry or less than 500
    milliseconds left, so a key that has between 0 and 499 milliseconds
    left is removed while it is still live, and a key is left alone when
    it has 500 milliseconds or more. *)
Theorem sweep_deletes_exactly_stale (fuel : nat) (w : World) :
  faults w = [] →
  slots_cover (redis w) →
  (length (slots (redis w)) < 100 * fuel)%nat →
  let res := run (cleanStaleProductKeys fuel) w in
  let reply k := Backend.ttl_value (now w) (redis w) k in
  res.1 = Some tt
  ∧ fakeProductDB res.2 = fakeProductDB w
  ∧ (∀ k rest, k = redisProductKeyPrefix +:+ rest →
               reply k = -1 ∨ reply k ≤ 0 →
               kv (redis res.2) !! k = None)
  ∧ (∀ k, (¬ ∃ rest, k = redisProductKeyPrefix +:+ rest) ∨ 0 < reply k →
          kv (redis res.2) !! k = kv (redis w) !! k)
  ∧ (∀ k e, kv (redis w) !! k = Some e →
            (reply k = -1 ∨ reply k ≤ 0)
            ↔ match expire_at e with
              | None => True
              | Some t => t - now w < 500
              end).
Proof.
  intros Hf Hcover Hfuel. cbv zeta. unfold cleanStaleProductKeys.
  destruct (cleanLoop_nofault fuel 0 w Hf) as (Hres & Hdb & _ & _ & Hsw); [lia|].
  change (Z.of_nat 0) with 0 in *. rewrite drop_0 in Hsw.
  split; [done|]. split; [done|]. split; [|split; [|apply stale_reply_remaining]].
  - intros k rest Hk Hst. rewrite Hsw.
    destruct (kv (redis w) !! k) as [e|] eqn:He; [|by destruct (_ && _)].
    rewrite bool_decide_eq_true_2 by (apply Hcover; by rewrite He).
    replace (Backend.glob_match productPattern k) with true
      by (symmetry; apply glob_match_prefix; eauto).
    replace (stale _) with true; [done|].
    symmetry. unfold stale. apply orb_true_iff.
    destruct Hst as [->|Hle]; [by right | left; by apply Z.leb_le].
  - intros k Hk. rewrite Hsw. destruct Hk as [Hk|Hk].
    + replace (Backend.glob_match productPattern k) with false;
        [by rewrite andb_false_r|].
      symmetry. apply not_true_is_false. unfold productPattern.
      by rewrite glob_match_prefix.
    + replace (stale _) with false; [by rewrite andb_false_r|].
      symmetry. unfold stale. apply orb_false_iff.
      split; [apply Z.leb_gt | apply Z.eqb_neq]; lia.
Qed.

Lemma slots_cover_Forall (r : Redis) :
  map_Forall (λ k _, k ∈ slots r) (kv r) → slots_cover r.
Proof. intros Hall k [e Hk]. exact (Hall k e Hk). Qed.

Lemma sweep_deletes_exactly_stale_witness :
  let w' := (run (cleanStaleProductKeys 1) world_mixed).2 in
  kv (redis w') !! "product:1" = None
  ∧ kv (redis w') !! "product:3:hits" = None
  ∧ kv (redis w') !! "product:2" = Some (mkEntry "?" (Some 50000))
  ∧ kv (redis w') !! "session:9" = Some (mkEntry "s" None).
Proof.
  destruct (sweep_deletes_exactly_stale 1 world_mixed) as (_ & _ & Hgone & Hkept & _).
  - reflexivity.
  - apply slots_cover_Forall, (bool_decide_unpack _). vm_compute. reflexivity.
  - simpl. lia.
  - cbv zeta. split; [|split; [|split]].
    + apply (Hgone _ "1"); [reflexivity | right; vm_compute; discriminate].
    + apply (Hgone _ "3:hits"); [reflexivity | left; reflexivity].
    + rewrite Hkept; [reflexivity | right; vm_compute; reflexivity].
    + rewrite Hkept; [reflexivity | left]. intros [rest Hrest]. discriminate Hrest.
Defined.

(** C5 as stated fails.  29.6 seconds after the first read of product 1
    its entry has 400 milliseconds left: a read is served from the cache
    (its trace holds no access to the database), TTL answers 0 for the
    entry, and a pass of the cleaner removes the entry and the counter,
    which had a positive time left. *)
Lemma sweep_removes_live_entry :
  kv (redis world_closing) !! redisProductKey 1
  = Some (mkEntry (json_Marshal apple100) (Some (now world_closing + 400)))
  ∧ run (getProductHandler "1") world_closing
    = (RespJSON apple100,
       mkWorld (fakeProductDB world_closing)
         (Backend.store (redisProductHitsKey 1)
            (mkEntry "2" (Some (now world_closing + 30000)))
            (Backend.store (redisProductKey 1)
               (mkEntry (json_Marshal apple100) (Some (now world_closing + 30000)))
               (redis world_closing)))
         (now world_closing) []
         (trace world_closing
          ++ [Ev (Redis_Get (redisProductKey 1)); Ev (Redis_Incr (redisProductHitsKey 1));
              Ev (Redis_Expire (redisProductKey 1) redisProductTTL);
              Ev (Redis_Expire (redisProductHitsKey 1) redisProductTTL)]))
  ∧ Backend.ttl_value (now world_closing) (redis world_closing) (redisProductKey 1) = 0
  ∧ (run (cleanStaleProductKeys 1) world_closing).1 = Some tt
  ∧ kv (redis (run (cleanStaleProductKeys 1) world_closing).2) !! redisProductKey 1 = None
  ∧ kv (redis (run (cleanStaleProductKeys 1) world_closing).2) !! redisProductHitsKey 1
    = None.
Proof. vm_compute. repeat split. Qed.

(* ===================================================================== *)
(** ** Hit counters without expiry *)
(* ===================================================================== *)

Lemma lookup_unexpired (t : Z) (r : Redis) (k : string) (c : entry) :
  kv r !! k = Some c → Backend.expired t c = false → Backend.lookup t r k = Some c.
Proof. intros Hk Hx. unfold Backend.lookup. by rewrite Hk, Hx. Qed.

Lemma incr_keeps_expiry (t : Z) (key hk : string) (r : Redis) (c : entry) :
  kv r !! hk = Some c → Backend.expired t c = false →
  ∃ c', kv (Backend.incr t key r).2 !! hk = Some c' ∧ expire_at c' = expire_at c.
Proof.
  intros Hk Hx. unfold Backend.incr.
  destruct (decide (key = hk)) as [->|Hne].
  - rewrite (lookup_unexpired t r hk c) by done.
    destruct (Backend.parse_int (val c)) as [n|]; [|by exists c].
    destruct (n <? math_MaxInt64); [|by exists c].
    simpl. rewrite lookup_insert_eq. by eexists.
  - destruct (Backend.lookup t r key) as [e|].
    + destruct (Backend.parse_int (val e)) as [n|]; [|by exists c].
      destruct (n <? math_MaxInt64); [|by exists c].
      simpl. rewrite lookup_insert_ne by done. by exists c.
    + simpl. rewrite lookup_insert_ne by done. by exists c.
Qed.

Lemma expire_other (t : Z) (key hk : string) (d : Z) (r : Redis) :
  key ≠ hk → kv (Backend.expire t key d r).2 !! hk = kv r !! hk.
Proof.
  intros Hne. unfold Backend.expire. destruct (Backend.lookup t r key); [|done].
  destruct (_ <=? _); simpl.
  - by rewrite lookup_delete_ne.
  - by rewrite lookup_insert_ne.
Qed.

Lemma persistent_unexpired (t : Z) (c : entry) :
  expire_at c = None → Backend.expired t c = false.
Proof. unfold Backend.expired. by intros ->. Qed.

(** An operation that does not touch [hk] leaves it persistent. *)
Lemma exec_persistent (hk : string) {R : Type} (o : op R) (w : World) :
  ¬ touches hk o → persistent hk w → persistent hk (exec o w).2.
Proof.
  intros Ht (c & Hc & Hx). unfold persistent.
  destruct o; simpl in *; try (by exists c); redis_cases; simpl; try (by exists c).
  - unfold Backend.get. destruct (Backend.lookup _ _ _); by exists c.
  - destruct (incr_keeps_expiry (now w) key hk (redis w) c Hc) as (c' & Hc' & Hx');
      [by apply persistent_unexpired|].
    exists c'. split; [done|congruence].
  - rewrite expire_other by done. by exists c.
  - rewrite lookup_insert_ne by done. by exists c.
  - unfold Backend.del. destruct (Backend.lookup _ _ _); simpl;
      rewrite lookup_delete_ne by done; by exists c.
Qed.

(** An operation that writes nothing leaves [hk] persistent or removes
    it, and does not bring it back. *)
Lemma exec_persistent_or_absent (hk : string) {R : Type} (o : op R) (w : World) :
  writes_nothing o →
  persistent hk w ∨ absent hk w →
  persistent hk (exec o w).2 ∨ absent hk (exec o w).2.
Proof.
  intros Ho Hw. unfold persistent, absent in *.
  destruct o; simpl in *; try done; redis_cases; simpl; try done.
  - unfold Backend.get. by destruct (Backend.lookup _ _ _).
  - assert (kv (Backend.del (now w) key (redis w)).2 = delete key (kv (redis w))) as ->.
    { unfold Backend.del. by destruct (Backend.lookup _ _ _). }
    destruct (decide (key = hk)) as [->|Hne].
    + right. apply lookup_delete_eq.
    + by rewrite lookup_delete_ne.
Qed.

(** An operation that only refreshes leaves [hk] persistent or expiring
    one full TTL from now. *)
Lemma exec_persistent_or_expiring (hk : string) {R : Type} (o : op R) (w : World) :
  refreshes_only hk o →
  persistent hk w ∨ expiring hk (now w + 30000) w →
  persistent hk (exec o w).2 ∨ expiring hk (now w + 30000) (exec o w).2.
Proof.
  intros Ho Hw. unfold persistent, expiring in *.
  assert (∃ c, kv (redis w) !! hk = Some c
               ∧ Backend.expired (now w) c = false
               ∧ (expire_at c = None ∨ expire_at c = Some (now w + 30000)))
    as (c & Hc & Hx & Hex).
  { destruct Hw as [(c & Hc & Hn)|(c & Hc & Hs)]; exists c; repeat split; auto.
    - by apply persistent_unexpired.
    - unfold Backend.expired. rewrite Hs. apply Z.ltb_ge. lia. }
  destruct o; simpl in *; try done; redis_cases; simpl; try done.
  - unfold Backend.get. by destruct (Backend.lookup _ _ _).
  - destruct (incr_keeps_expiry (now w) key hk (redis w) c Hc Hx) as (c' & Hc' & Hx').
    rewrite <- Hx' in Hex. destruct Hex; eauto.
  - destruct (decide (key = hk)) as [->|Hne].
    + rewrite Ho by done.
      rewrite (expire_full_ttl _ _ _ c) by by apply lookup_unexpired.
      simpl. rewrite lookup_insert_eq. right. by eexists.
    + by rewrite expire_other.
  - destruct (decide (key = hk)) as [->|Hne].
    + rewrite Ho by done. rewrite lookup_insert_eq. right. by eexists.
    + by rewrite lookup_insert_ne.
  - unfold Backend.del. destruct (Backend.lookup _ _ _); simpl;
      by rewrite lookup_delete_ne.
Qed.

Lemma run_slots_cover {A : Type} (p : Prog A) (w : World) :
  slots_cover (redis w) → slots_cover (redis (run p w).2).
Proof.
  apply (run_invariant (λ _ _ _, True) (λ w', slots_cover (redis w')));
    [|apply always_True].
  intros R o w' Hc _. by apply exec_slots_cover.
Qed.

Section Counters.
Context `{JSON}.

Lemma get_op_refreshes_only (id : Z) {R : Type} (o : op R) (w : World) :
  get_op id R o w → refreshes_only (redisProductHitsKey id) o.
Proof. destruct o; simpl; try done; by intros [? ?]. Qed.

Lemma get_op_other (id id' : Z) {R : Type} (o : op R) (w : World) :
  id' ≠ id → get_op id' R o w → ¬ touches (redisProductHitsKey id) o.
Proof.
  intros Hne Ho Ht. destruct o; simpl in *; try done; subst.
  - destruct Ho as [[Hk|Hk] _].
    + by apply hits_ne_key in Hk.
    + by apply redisProductHitsKey_inj in Hk.
  - destruct Ho as [_ [[Hk _]|[Hk _]]].
    + by apply hits_ne_key in Hk.
    + by apply redisProductHitsKey_inj in Hk.
Qed.

Lemma update_op_other (id id' : Z) {R : Type} (o : op R) (w : World) :
  id' ≠ id → update_op id' R o w → ¬ touches (redisProductHitsKey id) o.
Proof.
  intros Hne Ho Ht. destruct o; simpl in *; try done; subst.
  destruct Ho as [Hk|Hk].
  - by apply hits_ne_key in Hk.
  - by apply redisProductHitsKey_inj in Hk.
Qed.

Lemma update_op_writes_nothing (id : Z) {R : Type} (o : op R) (w : World) :
  update_op id R o w → writes_nothing o.
Proof. by destruct o. Qed.

Lemma sweep_op_writes_nothing {R : Type} (o : op R) (w : World) :
  sweep_op R o w → writes_nothing o.
Proof. by destruct o. Qed.

(** What one activity can do to a persistent counter: only a read of the
    same identifier can give it an expiry (one full TTL from now), only an
    update of the same identifier or a pass of the cleaner can remove it;
    everything else, time included, leaves it persistent. *)
Lemma perform_persistent (id : Z) (a : activity) (w : World) :
  persistent (redisProductHitsKey id) w →
  let hk := redisProductHitsKey id in
  let w' := (perform a w).2 in
  match a with
  | Fetch idStr _ =>
      persistent hk w'
      ∨ (strconv_Atoi idStr = Some id ∧ expiring hk (now w + 30000) w')
  | Update idStr _ _ =>
      persistent hk w' ∨ (strconv_Atoi idStr = Some id ∧ absent hk w')
  | Sweep _ _ => persistent hk w' ∨ absent hk w'
  | Wait _ => persistent hk w'
  end.
Proof.
  intros Hp. cbv zeta. destruct a as [idStr fs|idStr body fs|fuel fs|d]; simpl.
  - assert ((let '(r, w') := run (getProductHandler idStr) (with_faults fs w) in
             (Some r, w')).2 = (run (getProductHandler idStr) (with_faults fs w)).2)
      as -> by by destruct (run _ _).
    destruct (strconv_Atoi idStr) as [id'|] eqn:Hid.
    + destruct (decide (id' = id)) as [->|Hne].
      * destruct (run_invariant (A := response) (get_op id)
                    (λ w', now w' = now w
                           ∧ (persistent (redisProductHitsKey id) w'
                              ∨ expiring (redisProductHitsKey id) (now w + 30000) w')))
          with (p := getProductHandler idStr) (w := with_faults fs w) as [_ [?|?]]; auto.
        -- intros R o w' [Hnow Hw'] Ho. rewrite exec_now. split; [done|].
           rewrite <- Hnow. apply exec_persistent_or_expiring; [|by rewrite Hnow].
           by eapply get_op_refreshes_only.
        -- by apply getProductHandler_always.
      * left. apply (run_invariant (get_op id')); [|by apply getProductHandler_always|done].
        intros R o w' Hw' Ho. apply exec_persistent; [|done].
        by eapply get_op_other.
    + left. unfold getProductHandler. by rewrite Hid.
  - assert ((let '(r, w') := run (updateProductHandler idStr body) (with_faults fs w) in
             (Some r, w')).2 = (run (updateProductHandler idStr body) (with_faults fs w)).2)
      as -> by by destruct (run _ _).
    destruct (strconv_Atoi idStr) as [id'|] eqn:Hid.
    + destruct (decide (id' = id)) as [->|Hne].
      * destruct (run_invariant (A := response) (update_op id)
          (λ w', persistent (redisProductHitsKey id) w'
                 ∨ absent (redisProductHitsKey id) w'))
          with (p := updateProductHandler idStr body) (w := with_faults fs w)
          as [?|?]; auto.
        -- intros R o w' Hw' Ho. apply exec_persistent_or_absent; [|done].
           by eapply update_op_writes_nothing.
        -- by apply updateProductHandler_always.
      * left. apply (run_invariant (update_op id'));
          [|by apply updateProductHandler_always|done].
        intros R o w' Hw' Ho. apply exec_persistent; [|done].
        by eapply update_op_other.
    + left. unfold updateProductHandler. by rewrite Hid.
  - apply (run_invariant sweep_op
             (λ w', persistent (redisProductHitsKey id) w'
                    ∨ absent (redisProductHitsKey id) w'));
      [|apply cleanLoop_always|by left].
    intros R o w' Hw' Ho. apply exec_persistent_or_absent; [|done].
    by eapply sweep_op_writes_nothing.
  - done.
Qed.

(** A read that misses runs [loadAndFill] after its GET. *)
Lemma miss_runs_loadAndFill (idStr : string) (id : Z) (w : World) :
  strconv_Atoi idStr = Some id →
  cache_miss id w →
  run (getProductHandler idStr) w
  = run (loadAndFill id (redisProductKey id) (redisProductHitsKey id))
        (exec (Redis_Get (redisProductKey id)) w).2.
Proof.
  intros Hid Hmiss. unfold getProductHandler, cache_miss in *.
  rewrite Hid, run_call_bind, run_bind.
  destruct (exec (Redis_Get _) w).1 as [data|err]; [|done]. by rewrite Hmiss.
Qed.

(** The counter after a miss-fill on a transport without faults. *)
Lemma miss_fill_counter (idStr : string) (id : Z) (w : World) (p : Product) :
  strconv_Atoi idStr = Some id →
  cache_miss id w →
  faults w = [] →
  fakeProductDB w !! id = Some p →
  kv (redis (run (getProductHandler idStr) w).2) !! redisProductHitsKey id
  = Some (mkEntry "1" (Some (now w + 30000))).
Proof.
  intros Hid Hmiss Hf Hp. rewrite (miss_runs_loadAndFill idStr id w Hid Hmiss).
  pose proof (exec_db (Redis_Get (redisProductKey id)) w) as Hdb.
  pose proof (exec_now (Redis_Get (redisProductKey id)) w) as Hnow.
  pose proof (exec_nofault (Redis_Get (redisProductKey id)) w Hf) as Hnf.
  destruct (exec (Redis_Get _) w) as [r w1]. cbn [fst snd] in *.
  unfold loadAndFill. rewrite run_call_bind, exec_DB_Load. cbn [fst snd].
  rewrite Hdb, Hp, !run_call_bind. cbn [run snd].
  set (w2 := record (Ev (DB_Load id)) w1).
  assert (faults w2 = []) as Hf2 by done.
  rewrite exec_Set_served, set_full_ttl
    by (apply nofault_lost; by apply exec_nofault).
  cbn [snd Backend.store kv]. rewrite lookup_insert_eq, exec_now.
  unfold w2. simpl. by rewrite Hnow.
Qed.

(** The counter after an accepted update on a transport without faults. *)
Lemma update_deletes_counter
    (idStr body : string) (id : Z) (input : Product) (w : World) :
  strconv_Atoi idStr = Some id →
  json_Decode body = Some input →
  ID input = id →
  faults w = [] →
  kv (redis (run (updateProductHandler idStr body) w).2) !! redisProductHitsKey id = None.
Proof.
  intros Hid Hbody Heq Hf. unfold updateProductHandler.
  rewrite Hid, Hbody. rewrite bool_decide_eq_false_2 by (by intros ?).
  rewrite !run_call_bind. cbn [run snd].
  rewrite (exec_Del_served (redisProductHitsKey id)).
  - simpl. apply lookup_delete_eq.
  - apply nofault_lost. by rewrite !exec_nofault.
Qed.

End Counters.

Section CounterLeak.
Context `{JSON}.

(** C10 (amended): a read that hits while the hit-counter key is missing
    leaves the counter at 1 without expiry (1 is below the threshold, so
    no EXPIRE follows the INCR), and no lapse of time makes it expire.
    From then on every activity leaves the counter persistent except
    four: a later hit of the same identifier, which brings the count to
    the threshold and gives the counter the full TTL; a miss-fill of the
    same identifier, once the entry has expired, which rewrites the
    counter as 1 with the full TTL; an update of the same identifier,
    which deletes it; and a pass of the cleaner, which deletes it as a
    key without expiry. *)
Theorem counter_recreated_without_expiry
    (idStr : string) (id : Z) (w : World) (e : entry) (p : Product) :
  strconv_Atoi idStr = Some id →
  faults w = [] →
  slots_cover (redis w) →
  Backend.lookup (now w) (redis w) (redisProductKey id) = Some e →
  json_Unmarshal (val e) = Some p →
  Backend.lookup (now w) (redis w) (redisProductHitsKey id) = None →
  let hk := redisProductHitsKey id in
  let w' := (run (getProductHandler idStr) w).2 in
  kv (redis w') !! hk = Some (mkEntry "1" None)
  ∧ (∀ t, Backend.lookup t (redis w') hk = Some (mkEntry "1" None))
  ∧ (∀ w1 a,
       persistent hk w1 →
       match a with
       | Fetch s _ =>
           persistent hk (perform a w1).2
           ∨ (strconv_Atoi s = Some id ∧ expiring hk (now w1 + 30000) (perform a w1).2)
       | Update s _ _ =>
           persistent hk (perform a w1).2
           ∨ (strconv_Atoi s = Some id ∧ absent hk (perform a w1).2)
       | Sweep _ _ => persistent hk (perform a w1).2 ∨ absent hk (perform a w1).2
       | Wait _ => persistent hk (perform a w1).2
       end)
  ∧ (∀ d, Backend.expired (now w + d) e = false →
          kv (redis (perform (Fetch idStr []) (advance d w')).2) !! hk
          = Some (mkEntry "2" (Some (now w + d + 30000))))
  ∧ (∀ d q, Backend.expired (now w + d) e = true →
            fakeProductDB w !! id = Some q →
            kv (redis (perform (Fetch idStr []) (advance d w')).2) !! hk
            = Some (mkEntry "1" (Some (now w + d + 30000))))
  ∧ (∀ d body input, json_Decode body = Some input → ID input = id →
                     kv (redis (perform (Update idStr body []) (advance d w')).2) !! hk
                     = None)
  ∧ (∀ d fuel, (length (slots (redis w')) < 100 * fuel)%nat →
               kv (redis (perform (Sweep fuel []) (advance d w')).2) !! hk = None).
Proof.
  intros Hid Hf Hcover Hkey Hp Hhits. cbv zeta.
  destruct (hit_keyspace idStr id w e p 0 Hid Hf Hkey Hp) as (Hdb & Hnow & Hnf & Hre & _).
  { by rewrite Hhits. }
  { done. }
  rewrite Hhits in Hre. cbn [expiry_of] in Hre. change (fmt_d (0 + 1)) with "1"%string in Hre.
  pose proof (run_slots_cover (getProductHandler idStr) w Hcover) as Hcover'.
  set (w' := (run (getProductHandler idStr) w).2) in *.
  assert (kv (redis w') !! redisProductHitsKey id = Some (mkEntry "1" None)) as Hone.
  { rewrite Hre. apply lookup_insert_eq. }
  assert (∀ t, Backend.lookup t (redis w') (redisProductHitsKey id)
               = Some (mkEntry "1" None)) as Hlive.
  { intros t. by apply lookup_unexpired. }
  apply lookup_Some_kv in Hkey as [Hkv _].
  assert (kv (redis w') !! redisProductKey id = Some e) as Hentry.
  { rewrite Hre. simpl. by rewrite lookup_insert_ne by apply hits_ne_key. }
  split; [done|]. split; [done|]. split; [|split; [|split; [|split]]].
  - intros w1 a Hw1. apply (perform_persistent id a w1 Hw1).
  - intros d Hx. rewrite perform_Fetch_world.
    destruct (hit_keyspace idStr id (with_faults [] (advance d w')) e p 1 Hid)
      as (_ & _ & _ & -> & _); simpl; try done.
    + rewrite Hnow. by apply lookup_unexpired.
    + by rewrite Hlive.
    + rewrite lookup_insert_eq, Hnow. done.
  - intros d q Hx Hq. rewrite perform_Fetch_world.
    rewrite (miss_fill_counter idStr id _ q Hid); simpl; try done.
    + by rewrite Hnow.
    + unfold cache_miss. rewrite exec_Get_reply. simpl.
      unfold Backend.lookup. by rewrite Hentry, Hnow, Hx.
    + by rewrite Hdb.
  - intros d body input Hbody Heq. rewrite perform_Update_world.
    by apply (update_deletes_counter idStr body id input).
  - intros d fuel Hfuel. simpl.
    destruct (cleanLoop_nofault fuel 0 (with_faults [] (advance d w')))
      as (_ & _ & _ & _ & Hsw); simpl; [done|lia|].
    unfold cleanStaleProductKeys. change (Z.of_nat 0) with 0 in Hsw.
    rewrite Hsw, drop_0.
    rewrite bool_decide_eq_true_2 by (apply Hcover'; by rewrite Hone).
    replace (Backend.glob_match productPattern (redisProductHitsKey id)) with true.
    + unfold Backend.ttl_value. by rewrite Hlive.
    + symmetry. apply glob_match_prefix. by eexists.
Qed.

End CounterLeak.

Lemma counter_recreated_without_expiry_witness :
  kv (redis (run (getProductHandler "1") world_uncounted).2) !! redisProductHitsKey 1
  = Some (mkEntry "1" None).
Proof.
  apply (counter_recreated_without_expiry "1" 1 world_uncounted
           (mkEntry (json_Marshal apple100) (Some 30000)) apple100).
  - reflexivity.
  - vm_compute. reflexivity.
  - apply slots_cover_Forall, (bool_decide_unpack _). vm_compute. reflexivity.
  - vm_compute. reflexivity.
  - vm_compute. reflexivity.
  - vm_compute. reflexivity.
Defined.

(** C10 as stated fails.  After the hit that recreates the counter of
    product 1 without expiry, the entry expires and the next read misses:
    it issues no EXPIRE and the cleaner has not run, yet its SET leaves
    the counter with an expiry.  Likewise an update of product 1 removes
    the counter. *)
Lemma persistent_counter_ended_by_fill_or_update :
  let w1 := (run (getProductHandler "1") world_uncounted).2 in
  let w2 := (replay [Wait 29001; Fetch "1" []] w1).2 in
  let w3 := (replay [Update "1" (json_Marshal apple120) []] w1).2 in
  kv (redis w1) !! redisProductHitsKey 1 = Some (mkEntry "1" None)
  ∧ trace w2 = trace w1 ++
      [Ev (Redis_Get "product:1"); Ev (DB_Load 1);
       Ev (Redis_Set "product:1" (json_Marshal apple100) redisProductTTL);
       Ev (Redis_Set "product:1:hits" "1" redisProductTTL)]
  ∧ kv (redis w2) !! redisProductHitsKey 1 = Some (mkEntry "1" (Some 60001))
  ∧ trace w3 = trace w1 ++
      [Ev (DB_Store 1 apple120); Ev (Redis_Del "product:1");
       Ev (Redis_Del "product:1:hits")]
  ∧ kv (redis w3) !! redisProductHitsKey 1 = None.
Proof. vm_compute. repeat split. Qed.

(* ===================================================================== *)
(** ** Further properties: keys and outcomes of the requests *)
(* ===================================================================== *)

(** X1: key derivation never collides: two identifiers share a cache
    entry key, or a hit-counter key, only when they are equal, and no
    cache entry key is the hit-counter key of any identifier. *)
Theorem cache_keys_never_collide (a b : Z) :
  (redisProductKey a = redisProductKey b ↔ a = b)
  ∧ (redisProductHitsKey a = redisProductHitsKey b ↔ a = b)
  ∧ redisProductKey a ≠ redisProductHitsKey b.
Proof.
  split; [|split].
  - split; [apply redisProductKey_inj | by intros ->].
  - split; [apply redisProductHitsKey_inj | by intros ->].
  - apply key_ne_hits.
Qed.

(** X2: both keys of every identifier fall under the pattern the cleaner
    scans with, so no key the handlers create is out of its reach. *)
Theorem cache_keys_match_cleaner_pattern (id : Z) :
  Backend.glob_match (redisProductKeyPrefix +:+ "*") (redisProductKey id) = true
  ∧ Backend.glob_match (redisProductKeyPrefix +:+ "*") (redisProductHitsKey id) = true.
Proof. split; apply glob_match_prefix; by eexists. Qed.

Section Outcomes.
Context `{JSON}.

(** X3: PUT /product/{id} is all or nothing.  Either the path identifier
    parses, the body decodes and both identifiers agree, and then the
    answer is 204 and the database holds the new record under the path
    identifier; or the answer is 400 and the world is exactly the one
    before: no operation was issued. *)
Theorem update_all_or_nothing (idStr body : string) (w : World) :
  (∃ id input,
     strconv_Atoi idStr = Some id ∧ json_Decode body = Some input ∧ ID input = id
     ∧ (run (updateProductHandler idStr body) w).1 = RespStatus http_StatusNoContent
     ∧ fakeProductDB (run (updateProductHandler idStr body) w).2
       = <[id := mkProduct id (Name input) (Price input)]> (fakeProductDB w))
  ∨ (∃ msg,
       run (updateProductHandler idStr body) w
       = (http_Error msg http_StatusBadRequest, w)).
Proof.
  unfold updateProductHandler.
  destruct (strconv_Atoi idStr) as [id|] eqn:Hid; [|right; by eexists].
  destruct (json_Decode body) as [input|] eqn:Hbody; [|right; by eexists].
  case_bool_decide as Heq; [right; by eexists|].
  left. exists id, input.
  rewrite !run_call_bind. cbn [run fst snd]. by rewrite !exec_db.
Qed.

(** X4: GET /product/{id} answers 400 without issuing any operation when
    the identifier does not parse; otherwise it answers a product, or 404
    and then the database holds no record under the identifier.  No lost
    cache call produces any other answer. *)
Theorem read_outcomes (idStr : string) (w : World) :
  match strconv_Atoi idStr with
  | None =>
      run (getProductHandler idStr) w
      = (http_Error "Invalid product id" http_StatusBadRequest, w)
  | Some id =>
      (∃ q, (run (getProductHandler idStr) w).1 = RespJSON q)
      ∨ ((run (getProductHandler idStr) w).1
         = http_Error "Product not found" http_StatusNotFound
         ∧ fakeProductDB w !! id = None)
  end.
Proof.
  destruct (strconv_Atoi idStr) as [id|] eqn:Hid.
  - rewrite (getProductHandler_response idStr id w Hid). unfold miss_response.
    destruct (exec _ _).1 as [data|].
    + destruct (json_Unmarshal data); [by eauto|].
      destruct (fakeProductDB w !! id); eauto.
    + destruct (fakeProductDB w !! id); eauto.
  - unfold getProductHandler. by rewrite Hid.
Qed.

(** X5: a read of an identifier the database does not hold answers 404
    and caches nothing: the keyspace and the database are as before,
    whatever cache calls are lost (in a world without orphan entries). *)
Theorem unknown_id_is_not_cached (idStr : string) (id : Z) (w : World) :
  strconv_Atoi idStr = Some id →
  fakeProductDB w !! id = None →
  no_orphans w →
  (run (getProductHandler idStr) w).1
  = http_Error "Product not found" http_StatusNotFound
  ∧ redis (run (getProductHandler idStr) w).2 = redis w
  ∧ fakeProductDB (run (getProductHandler idStr) w).2 = fakeProductDB w.
Proof.
  intros Hid Hnone Horph.
  assert (cache_miss id w) as Hmiss.
  { unfold cache_miss. rewrite exec_Get_reply. destruct (lost w); [done|].
    destruct (Backend.lookup _ _ _) as [e|] eqn:Hlk; [|done].
    apply lookup_Some_kv in Hlk as [Hkv _].
    destruct (json_Unmarshal (val e)) as [q|] eqn:Hq; [|done].
    destruct (Horph id e q Hkv Hq) as [p Hp]. congruence. }
  rewrite (miss_runs_loadAndFill idStr id w Hid Hmiss).
  unfold loadAndFill. rewrite run_call_bind, exec_DB_Load. cbn [fst snd].
  rewrite exec_db, Hnone. cbn [run fst snd record redis fakeProductDB].
  by rewrite exec_Get_redis, exec_db.
Qed.

End Outcomes.

Lemma unknown_id_is_not_cached_witness :
  (run (getProductHandler "9") (with_faults [true] world_cached)).1
  = http_Error "Product not found" http_StatusNotFound.
Proof.
  apply (unknown_id_is_not_cached "9" 9 (with_faults [true] world_cached)).
  - reflexivity.
  - reflexivity.
  - pose proof (perform_no_orphans (Fetch "1" []) world0 world0_no_orphans) as Hw.
    rewrite perform_Fetch_world in Hw. exact Hw.
Defined.

(* ===================================================================== *)
(** ** Further properties: what the requests leave alone *)
(* ===================================================================== *)

(** A call that does not address [k] leaves [k] as it was. *)
Lemma exec_other_key {R : Type} (o : op R) (w : World) (k : string) :
  op_key o ≠ Some k → kv (redis (exec o w).2) !! k = kv (redis w) !! k.
Proof.
  intros Hk. assert (∀ key, op_key o = Some key → key ≠ k) as Hne by congruence.
  destruct o; simpl in *; try done; redis_cases; simpl; try done.
  - unfold Backend.get. by destruct (Backend.lookup _ _ _).
  - unfold Backend.incr. destruct (Backend.lookup _ _ _) as [e|]; simpl.
    + destruct (Backend.parse_int _) as [n|]; [|done].
      destruct (n <? _); [|done]. simpl. by rewrite lookup_insert_ne by auto.
    + by rewrite lookup_insert_ne by auto.
  - by rewrite expire_other by auto.
  - by rewrite lookup_insert_ne by auto.
  - unfold Backend.del. destruct (Backend.lookup _ _ _); simpl;
      by rewrite lookup_delete_ne by auto.
Qed.

Section Frames.
Context `{JSON}.

(** An invariant kept by the operations of the service, by a change of
    transport schedule and by the lapse of time of an activity is kept by
    the activity. *)
Lemma perform_invariant (I : World → Prop) (a : activity) (w : World) :
  (∀ R (o : op R) w', service_op R o w' → I w' → I (exec o w').2) →
  (∀ fs w', I w' → I (with_faults fs w')) →
  match a with Wait d => I w → I (advance d w) | _ => True end →
  I w → I (perform a w).2.
Proof.
  intros Hop Hfs Hwait Hw.
  assert (∀ A (p : Prog A) w0, always service_op p w0 → I w0 → I (run p w0).2) as Hrun.
  { intros A p w0. apply run_invariant. intros R o w1 Hw1 Ho. by apply Hop. }
  destruct a as [idStr fs|idStr body fs|fuel fs|d].
  - rewrite perform_Fetch_world. destruct (strconv_Atoi idStr) as [id|] eqn:Hid.
    + apply Hrun; [|by apply Hfs].
      eapply always_mono; [|by apply getProductHandler_always].
      intros R o w1 Ho. left. by exists id.
    + unfold getProductHandler. rewrite Hid. by apply Hfs.
  - rewrite perform_Update_world. destruct (strconv_Atoi idStr) as [id|] eqn:Hid.
    + apply Hrun; [|by apply Hfs].
      eapply always_mono; [|by apply updateProductHandler_always].
      intros R o w1 Ho. right. left. by exists id.
    + unfold updateProductHandler. rewrite Hid. by apply Hfs.
  - simpl. apply Hrun; [|by apply Hfs].
    eapply always_mono; [|apply cleanLoop_always].
    intros R o w1 Ho. by right; right.
  - by apply Hwait.
Qed.

Lemma replay_cons (a : activity) (h : list activity) (w : World) :
  (replay (a :: h) w).2 = (replay h (perform a w).2).2.
Proof.
  cbn [replay]. destruct (perform a w) as [r w1]. cbn [snd].
  by destruct (replay h w1).
Qed.

(** X6: every record the database holds is stored under its own
    identifier, and every history of requests, cleaner passes and lost
    calls keeps it so: an update stores its record under the path
    identifier with that identifier in it. *)
Theorem records_stay_keyed (h : list activity) (w : World) :
  keyed (fakeProductDB w) → keyed (fakeProductDB (replay h w).2).
Proof.
  revert w. induction h as [|a h IH]; intros w Hw; [done|].
  rewrite replay_cons. apply IH.
  apply (perform_invariant (λ w', keyed (fakeProductDB w'))); try done.
  - intros R o w' Ho Hk. rewrite exec_db. destruct o; try done.
    destruct Ho as [[i Ho]|[[i Ho]|Ho]]; simpl in Ho; try done.
    destruct Ho as [-> Hid]. intros j q.
    destruct (decide (i = j)) as [<-|Hne].
    + rewrite lookup_insert_eq. by intros [= <-].
    + rewrite lookup_insert_ne by done. apply Hk.
  - by destruct a.
Qed.

(** X7: the service never drops a record, and only an update writes the
    database: a history without updates leaves the database exactly as it
    was, whatever the reads, the cleaner and the transport do. *)
Theorem database_changes_only_by_updates (h : list activity) (w : World) :
  (∀ id, is_Some (fakeProductDB w !! id) →
         is_Some (fakeProductDB (replay h w).2 !! id))
  ∧ (Forall (λ a, match a with Update _ _ _ => False | _ => True end) h →
     fakeProductDB (replay h w).2 = fakeProductDB w).
Proof.
  split.
  - revert w. induction h as [|a h IH]; intros w id Hid; [done|].
    rewrite replay_cons. apply IH.
    apply (perform_invariant (λ w', is_Some (fakeProductDB w' !! id))); try done.
    + intros R o w' _ Hk. rewrite exec_db. destruct o; try done.
      rewrite lookup_insert_is_Some. destruct (decide (id0 = id)); auto.
    + by destruct a.
  - intros Hh. revert w. induction Hh as [|a h Ha Hh IH]; intros w; [done|].
    rewrite replay_cons, IH.
    destruct a as [idStr fs|idStr body fs|fuel fs|d]; try done.
    + rewrite perform_Fetch_world. destruct (strconv_Atoi idStr) as [id|] eqn:Hid.
      * apply (run_invariant (get_op id)
                 (λ w', fakeProductDB w' = fakeProductDB w));
          [|by apply getProductHandler_always|done].
        intros R o w' Hw' Ho. by rewrite (get_op_db id).
      * unfold getProductHandler. by rewrite Hid.
    + simpl. apply (run_invariant sweep_op
                      (λ w', fakeProductDB w' = fakeProductDB w));
        [|apply cleanLoop_always|done].
      intros R o w' Hw' Ho. by rewrite sweep_op_db.
Qed.

Lemma get_op_key (id : Z) {R : Type} (o : op R) (w : World) (k : string) :
  get_op id R o w → k ≠ redisProductKey id → k ≠ redisProductHitsKey id →
  op_key o ≠ Some k.
Proof.
  intros Ho Hk Hh. destruct o; simpl in *; try done; intros [= <-]; try done.
  - by destruct Ho as [[?|?] _].
  - by destruct Ho as [_ [[? _]|[? _]]].
Qed.

Lemma update_op_key (id : Z) {R : Type} (o : op R) (w : World) (k : string) :
  update_op id R o w → k ≠ redisProductKey id → k ≠ redisProductHitsKey id →
  op_key o ≠ Some k.
Proof.
  intros Ho Hk Hh. destruct o; simpl in *; try done; intros [= <-].
  by destruct Ho.
Qed.

(** X8: requests of different identifiers do not interfere.  A read or
    an update addressed to [id] leaves every key other than the two keys
    of [id] exactly as it was, and the update leaves every other record
    of the database as it was, whichever calls are lost. *)
Theorem requests_touch_only_their_keys
    (idStr body : string) (id : Z) (fs : list bool) (w : World) (k : string) :
  strconv_Atoi idStr = Some id →
  k ≠ redisProductKey id →
  k ≠ redisProductHitsKey id →
  kv (redis (perform (Fetch idStr fs) w).2) !! k = kv (redis w) !! k
  ∧ kv (redis (perform (Update idStr body fs) w).2) !! k = kv (redis w) !! k
  ∧ ∀ id', id' ≠ id →
           fakeProductDB (perform (Update idStr body fs) w).2 !! id'
           = fakeProductDB w !! id'.
Proof.
  intros Hid Hk Hh. rewrite perform_Fetch_world, perform_Update_world.
  split; [|split].
  - apply (run_invariant (get_op id)
             (λ w', kv (redis w') !! k = kv (redis w) !! k));
      [|by apply getProductHandler_always|done].
    intros R o w' Hw' Ho. rewrite exec_other_key; [done|].
    by eapply get_op_key.
  - apply (run_invariant (update_op id)
             (λ w', kv (redis w') !! k = kv (redis w) !! k));
      [|by apply updateProductHandler_always|done].
    intros R o w' Hw' Ho. rewrite exec_other_key; [done|].
    by eapply update_op_key.
  - intros id' Hne.
    apply (run_invariant (update_op id)
             (λ w', fakeProductDB w' !! id' = fakeProductDB w !! id'));
      [|by apply updateProductHandler_always|done].
    intros R o w' Hw' Ho. by rewrite (update_op_db id).
Qed.

(** X9: the write path caches nothing.  Whatever its outcome and
    whichever calls are lost, an update creates no key and rewrites no
    key; and when it is accepted on a transport without faults, both keys
    of its identifier are gone afterwards, so that the next read is the
    one that repopulates the cache. *)
Theorem update_caches_nothing (idStr body : string) (w : World) :
  (∀ k e', kv (redis (run (updateProductHandler idStr body) w).2) !! k = Some e' →
           kv (redis w) !! k = Some e')
  ∧ (∀ id input,
       strconv_Atoi idStr = Some id → json_Decode body = Some input →
       ID input = id → faults w = [] →
       kv (redis (run (updateProductHandler idStr body) w).2) !! redisProductKey id
       = None
       ∧ kv (redis (run (updateProductHandler idStr body) w).2)
           !! redisProductHitsKey id = None).
Proof.
  split.
  - intros k e'. destruct (strconv_Atoi idStr) as [id|] eqn:Hid.
    + apply (run_invariant (update_op id)
               (λ w', kv (redis w') !! k = Some e' → kv (redis w) !! k = Some e'));
        [|by apply updateProductHandler_always|done].
      intros R o w' Hw' Ho Hk. apply Hw'.
      destruct o; simpl in Ho; try done.
      revert Hk. simpl. redis_cases; simpl; [done|].
      unfold Backend.del. destruct (Backend.lookup _ _ _); simpl;
        by intros [_ ?]%lookup_delete_Some.
    + unfold updateProductHandler. by rewrite Hid.
  - intros id input Hid Hbody Heq Hf. split.
    + destruct (update_effect idStr body id input w Hid Hbody Heq) as (_ & _ & Hdel).
      apply Hdel. by apply nofault_lost.
    + by apply (update_deletes_counter idStr body id input).
Qed.

End Frames.

Lemma keyed_Forall (db : gmap Z Product) :
  map_Forall (λ i q, ID q = i) db → keyed db.
Proof. intros Hall id p Hp. exact (Hall id p Hp). Qed.

Lemma records_stay_keyed_witness :
  keyed (fakeProductDB
           (replay [Update "7" (json_Marshal (mkProduct 7 "Kiwi" 30)) [true];
                    Fetch "7" []; Sweep 1 []] world0).2).
Proof.
  apply (records_stay_keyed _ world0).
  apply keyed_Forall, (bool_decide_unpack _). vm_compute. reflexivity.
Defined.

Lemma requests_touch_only_their_keys_witness :
  kv (redis (perform (Fetch "2" [false; true]) world_cached).2) !! redisProductKey 1
  = kv (redis world_cached) !! redisProductKey 1.
Proof.
  apply (requests_touch_only_their_keys "2" "{}" 2 [false; true] world_cached
           (redisProductKey 1)).
  - reflexivity.
  - vm_compute. discriminate.
  - vm_compute. discriminate.
Defined.

(* ===================================================================== *)
(** ** Further properties: the cleaner under lost calls and its loop *)
(* ===================================================================== *)

Lemma exec_TTL_reply (key : string) (w : World) :
  (exec (Redis_TTL key) w).1
  = (if lost w then Err redis_NetError
     else Ok (Backend.ttl_value (now w) (redis w) key))
  ∧ redis (exec (Redis_TTL key) w).2 = redis w.
Proof. simpl. redis_cases; rewrite lost_record in *; by rewrite Hl. Qed.

Lemma exec_Scan_reply (cursor : Z) (pat : string) (count : Z) (w : World)
    (keys : list string) (next : Z) :
  (exec (Redis_Scan cursor pat count) w).1 = Ok (keys, next) →
  Forall (λ k, Backend.glob_match pat k = true) keys.
Proof.
  simpl. redis_cases; simpl; [done|]. intros [= <- _].
  apply Forall_forall. intros k [_ Hk%andb_true_iff]%list_elem_of_In%filter_In.
  tauto.
Qed.

Lemma sweepKeys_safe (keys : list string) (w : World) :
  Forall under_prefix keys → always sweep_safe (sweepKeys keys) w.
Proof.
  intros Hkeys. revert w. induction Hkeys as [|key keys Hkey Hkeys IH]; intros w; [done|].
  cbn [sweepKeys]. rewrite always_call_bind. split; [done|].
  rewrite always_bind. split; [|apply IH].
  destruct (exec_TTL_reply key w) as [Hr Hre].
  pose proof (exec_now (Redis_TTL key) w) as Hnow.
  destruct (exec (Redis_TTL key) w) as [r w1]. cbn [fst snd] in *.
  destruct r as [ttl|]; [|done]. destruct (stale ttl) eqn:Hst; [|done].
  rewrite always_call_bind. split; [|done]. split; [done|].
  destruct (lost w); [done|]. injection Hr as ->. by rewrite Hre, Hnow.
Qed.

Lemma cleanLoop_safe (fuel : nat) (cursor : Z) (w : World) :
  always sweep_safe (cleanLoop fuel cursor) w.
Proof.
  revert cursor w. induction fuel as [|fuel IH]; intros cursor w; [done|].
  cbn [cleanLoop]. rewrite always_call_bind. split; [done|].
  destruct (exec (Redis_Scan _ _ _) w).1 as [[keys next]|] eqn:Hscan.
  - rewrite always_bind. split.
    + apply sweepKeys_safe.
      eapply Forall_impl; [exact (exec_Scan_reply _ _ _ _ _ _ Hscan)|].
      intros k Hk. by apply glob_match_prefix.
    + destruct (next =? 0); [done|apply IH].
  - by rewrite always_call_bind.
Qed.

Lemma sweep_safe_scoped {R : Type} (o : op R) (w : World) :
  sweep_safe R o w → sweep_scoped R o w.
Proof. destruct o; simpl; tauto. Qed.

Lemma runCacheCleaner_scoped (fuel : nat) (signals : list signal) (w : World) :
  always sweep_scoped (runCacheCleaner fuel signals) w.
Proof.
  revert w. induction signals as [|[] signals IH]; intros w; try done.
  cbn [runCacheCleaner]. rewrite always_bind. split; [|apply IH].
  eapply always_mono; [|apply cleanLoop_safe]. intros R o w'. apply sweep_safe_scoped.
Qed.

(** A DEL removes its key and leaves the other keys alone, served or not. *)
Lemma exec_Del_kv (key k : string) (w : World) :
  kv (redis (exec (Redis_Del key) w).2) !! k = kv (redis w) !! k
  ∨ (k = key ∧ kv (redis (exec (Redis_Del key) w).2) !! k = None).
Proof.
  simpl. redis_cases; simpl; [by left|].
  assert (kv (Backend.del (now w) key (redis w)).2 = delete key (kv (redis w))) as ->.
  { unfold Backend.del. by destruct (Backend.lookup _ _ _). }
  destruct (decide (key = k)) as [->|Hne].
  - right. by rewrite lookup_delete_eq.
  - left. by rewrite lookup_delete_ne.
Qed.

(** X10: a pass of the cleaner is safe under any transport schedule and
    any bound on its SCAN calls: it leaves the database alone, it creates
    and rewrites no key, and a key it removes is a key under the prefix
    whose TTL reply at the start of the pass was stale. *)
Theorem sweep_is_safe_under_faults (fuel : nat) (w : World) :
  fakeProductDB (run (cleanStaleProductKeys fuel) w).2 = fakeProductDB w
  ∧ ∀ k,
      kv (redis (run (cleanStaleProductKeys fuel) w).2) !! k = kv (redis w) !! k
      ∨ (kv (redis (run (cleanStaleProductKeys fuel) w).2) !! k = None
         ∧ under_prefix k
         ∧ stale (Backend.ttl_value (now w) (redis w) k) = true).
Proof.
  pose (I := λ w', fakeProductDB w' = fakeProductDB w ∧ now w' = now w
                   ∧ ∀ k, kv (redis w') !! k = kv (redis w) !! k
                          ∨ (kv (redis w') !! k = None ∧ under_prefix k
                             ∧ stale (Backend.ttl_value (now w) (redis w) k) = true)).
  assert (I (run (cleanStaleProductKeys fuel) w).2) as (Hdb & _ & Hkv).
  { apply (run_invariant sweep_safe I); [|apply cleanLoop_safe|].
    - intros R o w' (Hdb & Hnow & Hkv) Ho. unfold I.
      rewrite exec_db, exec_now.
      destruct o; simpl in Ho; try done; split; try done; split; try done;
        intros k; try (rewrite exec_other_key by done; apply Hkv);
        try (rewrite (proj2 (exec_TTL_reply _ _)); apply Hkv); try apply Hkv.
      destruct (exec_Del_kv key k w') as [->|[-> ->]]; [apply Hkv|].
      destruct (Hkv key) as [Hsame|(_ & ? & ?)]; [|by right].
      right. split; [done|]. destruct Ho as [Hpre Hst]. split; [done|].
      by rewrite <- Hnow, <- (ttl_value_kv (now w') (redis w') (redis w) key).
    - unfold I. repeat split; auto. }
  done.
Qed.

Lemma run_nofault {A : Type} (p : Prog A) (w : World) :
  faults w = [] → faults (run p w).2 = [].
Proof.
  apply (run_invariant (λ _ _ _, True) (λ w', faults w' = [])); [|apply always_True].
  intros R o w' Hf _. by apply exec_nofault.
Qed.

(** X11: the pass is idempotent: on a transport without faults, a second
    pass right after a first one changes nothing in the keyspace. *)
Theorem sweep_is_idempotent (fuel : nat) (w : World) :
  faults w = [] →
  (length (slots (redis w)) < 100 * fuel)%nat →
  let w1 := (run (cleanStaleProductKeys fuel) w).2 in
  let w2 := (run (cleanStaleProductKeys fuel) w1).2 in
  (run (cleanStaleProductKeys fuel) w1).1 = Some tt
  ∧ kv (redis w2) = kv (redis w1)
  ∧ slots (redis w2) = slots (redis w1).
Proof.
  intros Hf Hfuel. cbv zeta. unfold cleanStaleProductKeys.
  destruct (cleanLoop_nofault fuel 0 w Hf) as (_ & _ & Hnow & Hsl & Hkv); [lia|].
  pose proof (run_nofault (cleanLoop fuel (Z.of_nat 0)) w Hf) as Hf1.
  set (w1 := (run (cleanLoop fuel (Z.of_nat 0)) w).2) in *.
  destruct (cleanLoop_nofault fuel 0 w1 Hf1) as (Hres & _ & _ & Hsl2 & Hkv2).
  { rewrite Hsl. lia. }
  change (Z.of_nat 0) with 0 in *. split; [done|]. split; [|done].
  apply map_eq. intros k. rewrite Hkv2.
  destruct (_ && stale (Backend.ttl_value (now w1) (redis w1) k)) eqn:Hc; [|done].
  apply andb_true_iff in Hc as [Hsel Hst]. rewrite Hsl in Hsel.
  rewrite drop_0 in *. specialize (Hkv k). rewrite Hsel in Hkv.
  destruct (stale (Backend.ttl_value (now w) (redis w) k)) eqn:Hst0.
  - symmetry. exact Hkv.
  - simpl in Hkv. rewrite Hnow in Hst.
    rewrite (ttl_value_kv (now w) (redis w1) (redis w) k Hkv) in Hst. congruence.
Qed.

(** X12: the cleaner's loop returns only on cancellation, and whatever
    the ticks and the transport do it leaves the database alone, creates
    and rewrites no key, and removes keys under the prefix only. *)
Theorem cleaner_loop_is_confined (fuel : nat) (signals : list signal) (w : World) :
  ((run (runCacheCleaner fuel signals) w).1 = true ↔ ctx_Done ∈ signals)
  ∧ fakeProductDB (run (runCacheCleaner fuel signals) w).2 = fakeProductDB w
  ∧ ∀ k,
      kv (redis (run (runCacheCleaner fuel signals) w).2) !! k = kv (redis w) !! k
      ∨ (kv (redis (run (runCacheCleaner fuel signals) w).2) !! k = None
         ∧ under_prefix k).
Proof.
  split.
  - revert w. induction signals as [|[] signals IH]; intros w.
    + split; [done|]. by intros ?%elem_of_nil.
    + split; [intros _; by left | done].
    + cbn [runCacheCleaner]. rewrite run_bind, IH, elem_of_cons.
      split; [auto|]. by intros [?|?].
  - pose (I := λ w', fakeProductDB w' = fakeProductDB w
                     ∧ ∀ k, kv (redis w') !! k = kv (redis w) !! k
                            ∨ (kv (redis w') !! k = None ∧ under_prefix k)).
    apply (run_invariant sweep_scoped I); [|apply runCacheCleaner_scoped|by split; auto].
    intros R o w' (Hdb & Hkv) Ho. unfold I. rewrite exec_db.
    destruct o; simpl in Ho; try done; split; try done;
      intros k; try (rewrite exec_other_key by done; apply Hkv);
      try (rewrite (proj2 (exec_TTL_reply _ _)); apply Hkv); try apply Hkv.
    destruct (exec_Del_kv key k w') as [->|[-> ->]]; [apply Hkv|].
    right. split; [done|]. apply Ho.
Qed.

(** X13: a leaked key does not survive a tick: on a transport without
    faults, every key under the prefix that has no expiry when the
    cleaner's loop receives a tick is gone when the loop stops, whatever
    signals follow the tick. *)
Theorem tick_reclaims_keys_without_expiry
    (fuel : nat) (signals : list signal) (w : World) (k : string) (c : entry) :
  faults w = [] →
  slots_cover (redis w) →
  (length (slots (redis w)) < 100 * fuel)%nat →
  under_prefix k →
  kv (redis w) !! k = Some c →
  expire_at c = None →
  kv (redis (run (runCacheCleaner fuel (ticker_C :: signals)) w).2) !! k = None.
Proof.
  intros Hf Hcover Hfuel Hpre Hk Hx. cbn [runCacheCleaner]. rewrite run_bind.
  assert (kv (redis (run (cleanStaleProductKeys fuel) w).2) !! k = None) as Hgone.
  { unfold cleanStaleProductKeys.
    destruct (cleanLoop_nofault fuel 0 w Hf) as (_ & _ & _ & _ & Hsw); [lia|].
    change (Z.of_nat 0) with 0 in Hsw. rewrite Hsw, drop_0.
    rewrite bool_decide_eq_true_2 by (apply Hcover; by rewrite Hk).
    replace (Backend.glob_match productPattern k) with true
      by (symmetry; by apply glob_match_prefix).
    unfold Backend.ttl_value.
    by rewrite (lookup_unexpired _ _ _ c Hk (persistent_unexpired _ c Hx)), Hx. }
  set (w1 := (run (cleanStaleProductKeys fuel) w).2) in *.
  apply (run_invariant sweep_scoped (λ w', kv (redis w') !! k = None));
    [|apply runCacheCleaner_scoped|done].
  intros R o w' Hw' Ho. destruct o; simpl in Ho; try done;
    try (by rewrite exec_other_key);
    try (by rewrite (proj2 (exec_TTL_reply _ _))).
  by destruct (exec_Del_kv key k w') as [->|[_ ->]].
Qed.

Lemma sweep_is_idempotent_witness :
  let w1 := (run (cleanStaleProductKeys 1) world_mixed).2 in
  let w2 := (run (cleanStaleProductKeys 1) w1).2 in
  (run (cleanStaleProductKeys 1) w1).1 = Some tt
  ∧ kv (redis w2) = kv (redis w1)
  ∧ slots (redis w2) = slots (redis w1).
Proof.
  apply (sweep_is_idempotent 1 world_mixed); [reflexivity | simpl; lia].
Defined.

Lemma tick_reclaims_keys_without_expiry_witness :
  kv (redis (run (runCacheCleaner 1 [ticker_C; ticker_C; ctx_Done]) world_mixed).2)
    !! "product:3:hits" = None.
Proof.
  apply (tick_reclaims_keys_without_expiry 1 [ticker_C; ctx_Done] world_mixed
           "product:3:hits" (mkEntry "1" None)).
  - reflexivity.
  - apply slots_cover_Forall, (bool_decide_unpack _). vm_compute. reflexivity.
  - simpl. lia.
  - by exists "3:hits".
  - reflexivity.
  - reflexivity.
Defined.

(* ===================================================================== *)
(** ** Further properties: every cache entry expires *)
(* ===================================================================== *)

(** A key found after an operation either was there before with the same
    expiry, or is the key INCR counted on, or carries the expiry EXPIRE or
    SET gave it. *)
Lemma exec_expiry {R : Type} (o : op R) (w : World) (k : string) (e' : entry) :
  kv (redis (exec o w).2) !! k = Some e' →
  (∃ e, kv (redis w) !! k = Some e ∧ expire_at e' = expire_at e)
  ∨ match o with
    | Redis_Incr key => k = key
    | Redis_Expire key d =>
        k = key ∧ expire_at e' = Some (now w + d `div` time_Second * 1000)
    | Redis_Set key _ d =>
        k = key
        ∧ expire_at e' = (if 0 <? d then Some (now w + d `div` time_Millisecond)
                          else None)
    | _ => False
    end.
Proof.
  destruct o; simpl; eauto; redis_cases; simpl; eauto.
  - (* GET *) unfold Backend.get. destruct (Backend.lookup _ _ _); simpl; eauto.
  - (* INCR *)
    unfold Backend.incr. destruct (Backend.lookup _ _ _) as [e|]; simpl.
    + destruct (Backend.parse_int (val e)) as [n|]; simpl; eauto.
      destruct (n <? math_MaxInt64); simpl; eauto.
      destruct (decide (key = k)) as [<-|Hne]; [by right|].
      rewrite lookup_insert_ne by done. eauto.
    + destruct (decide (key = k)) as [<-|Hne]; [by right|].
      rewrite lookup_insert_ne by done. eauto.
  - (* EXPIRE *)
    unfold Backend.expire. destruct (Backend.lookup _ _ _) as [e|] eqn:Hlk; simpl; eauto.
    destruct (_ <=? _); simpl.
    + destruct (decide (key = k)) as [<-|Hne].
      * by rewrite lookup_delete_eq.
      * rewrite lookup_delete_ne by done. eauto.
    + destruct (decide (key = k)) as [<-|Hne].
      * rewrite lookup_insert_eq. intros [= <-]. by right.
      * rewrite lookup_insert_ne by done. eauto.
  - (* SET *)
    destruct (decide (key = k)) as [<-|Hne].
    + rewrite lookup_insert_eq. intros [= <-]. by right.
    + rewrite lookup_insert_ne by done. eauto.
  - (* DEL *)
    unfold Backend.del. destruct (Backend.lookup _ _ _); simpl;
      (destruct (decide (key = k)) as [<-|Hne];
       [by rewrite lookup_delete_eq | rewrite lookup_delete_ne by done; eauto]).
Qed.

Section Expiry.
Context `{JSON}.

Lemma exec_entries_expire {R : Type} (o : op R) (w : World) :
  service_op R o w → entries_expire w → entries_expire (exec o w).2.
Proof.
  intros Ho Hw id e Hk. rewrite exec_now.
  destruct (exec_expiry o w _ _ Hk) as [(e0 & Hk0 & ->)|Hnew]; [by apply (Hw id)|].
  destruct o; try done;
    destruct Ho as [[i Ho]|[[i Ho]|Ho]]; simpl in Ho; try done.
  - subst. by apply key_ne_hits in Hnew.
  - destruct Hnew as [_ ->], Ho as [_ ->]. exists (now w + 30000). split; [done|lia].
  - destruct Hnew as [_ ->], Ho as [-> _]. exists (now w + 30000). split; [done|lia].
Qed.

(** X14: a cache entry never stays for good.  If every cache entry key
    carries an expiry at most one TTL ahead, then so it is after every
    history of requests, cleaner passes, lost calls and lapses of time:
    SET and EXPIRE are only issued with the full TTL, and INCR is never
    issued on an entry key.  So TTL never answers -1 for an entry key and
    never more than the full TTL. *)
Theorem entries_always_expire (h : list activity) (w : World) :
  Forall forward h →
  entries_expire w →
  let w' := (replay h w).2 in
  entries_expire w'
  ∧ ∀ id, Backend.ttl_value (now w') (redis w') (redisProductKey id) ≠ -1
          ∧ Backend.ttl_value (now w') (redis w') (redisProductKey id)
            ≤ redisProductTTL.
Proof.
  intros Hh Hw. cbv zeta.
  assert (entries_expire (replay h w).2) as Hall.
  { revert w Hw. induction Hh as [|a h Ha Hh IH]; intros w Hw; [done|].
    rewrite replay_cons. apply IH.
    apply (perform_invariant entries_expire); try done.
    - intros R o w' Ho Hk. by apply exec_entries_expire.
    - destruct a as [| | |d]; try done. intros _ id e Hk.
      destruct (Hw id e Hk) as (t & Ht & Hle). exists t. split; [done|].
      simpl in *. lia. }
  split; [done|]. intros id. unfold Backend.ttl_value.
  destruct (Backend.lookup _ _ _) as [e|] eqn:Hlk; [|done].
  apply lookup_Some_kv in Hlk as [Hk _].
  destruct (Hall id e Hk) as (t & -> & Hle).
  assert ((t - now (replay h w).2 + 500) `div` 1000 < 31) as Hq
    by (apply Z.div_lt_upper_bound; lia).
  unfold redisProductTTL, time_Second. lia.
Qed.

End Expiry.

Lemma entries_always_expire_witness :
  let w' := (replay [Fetch "1" []; Wait 1000; Fetch "1" []; Sweep 1 []] world0).2 in
  entries_expire w'
  ∧ ∀ id, Backend.ttl_value (now w') (redis w') (redisProductKey id) ≠ -1
          ∧ Backend.ttl_value (now w') (redis w') (redisProductKey id)
            ≤ redisProductTTL.
Proof.
  apply (entries_always_expire _ world0).
  - repeat constructor. simpl. lia.
  - intros id e Hk. simpl in Hk. by rewrite lookup_empty in Hk.
Defined.

(* ===================================================================== *)
(** ** Requests served concurrently *)
(* ===================================================================== *)

(** The schedules of [interleave] are the schedules of [concurrent] in
    which no time goes by. *)
Lemma interleave_concurrent {A : Type} (sched : list nat) (pool : list (Prog A))
    (w : World) :
  interleave sched pool w = concurrent (map Turn sched) pool w.
Proof.
  revert pool w. induction sched as [|i sched IH]; intros pool w; [done|].
  cbn [interleave map concurrent]. destruct (pool !! i) as [p|]; [|apply IH].
  destruct (step p w) as [p' w']. apply IH.
Qed.

Lemma concurrent_app {A : Type} (ms ms' : list move) (pool : list (Prog A)) (w : World) :
  concurrent (ms ++ ms') pool w
  = concurrent ms' (concurrent ms pool w).1 (concurrent ms pool w).2.
Proof.
  revert pool w. induction ms as [|[i|d] ms IH]; intros pool w; [done|..].
  - cbn [app concurrent]. destruct (pool !! i); apply IH.
  - cbn [app concurrent]. apply IH.
Qed.

Lemma concurrent_length {A : Type} (ms : list move) (pool : list (Prog A)) (w : World) :
  length (concurrent ms pool w).1 = length pool.
Proof.
  revert pool w. induction ms as [|[i|d] ms IH]; intros pool w; [done|..].
  - cbn [concurrent]. destruct (pool !! i); [|apply IH].
    by rewrite IH, length_insert.
  - cbn [concurrent]. apply IH.
Qed.

(** A goroutine that gets no turn stays as it is. *)
Lemma concurrent_idle {A : Type} (ms : list move) (pool : list (Prog A)) (w : World)
    (i : nat) :
  turns i ms = 0%nat → (concurrent ms pool w).1 !! i = pool !! i.
Proof.
  revert pool w. induction ms as [|[j|d] ms IH]; intros pool w Hi; [done|..].
  - cbn [turns] in Hi. destruct (Nat.eqb j i) eqn:Hji; [done|].
    apply Nat.eqb_neq in Hji. cbn [concurrent].
    destruct (pool !! j); [|by apply IH].
    rewrite IH by done. by apply list_lookup_insert_ne.
  - cbn [concurrent]. by apply IH.
Qed.

Lemma good_mono {A : Type} (I : World → Prop) (Q Q' : A → Prop) (p : Prog A) :
  (∀ a, Q a → Q' a) → good I Q p → good I Q' p.
Proof.
  intros HQ. induction p as [a|R o c IH]; simpl; [apply HQ|].
  intros Hg w Hw. destruct (Hg w Hw) as [? ?]. split; [done|]. by apply IH.
Qed.

Lemma good_bind {A B : Type} (I : World → Prop) (Q1 : A → Prop) (Q : B → Prop)
    (p : Prog A) (f : A → Prog B) :
  good I Q1 p → (∀ a, Q1 a → good I Q (f a)) → good I Q (bind p f).
Proof.
  intros Hp Hf. induction p as [a|R o c IH]; simpl in *; [by apply Hf|].
  intros w Hw. destruct (Hp w Hw) as [? ?]. split; [done|]. by apply IH.
Qed.

Lemma good_step {A : Type} (I : World → Prop) (Q : A → Prop) (p : Prog A) (w : World) :
  good I Q p → I w → good I Q (step p w).1 ∧ I (step p w).2.
Proof.
  destruct p as [a|R o c]; simpl; [done|]. intros Hg Hw.
  specialize (Hg w Hw). destruct (exec o w) as [r w']. simpl in *. tauto.
Qed.

Lemma good_run {A : Type} (I : World → Prop) (Q : A → Prop) (p : Prog A) (w : World) :
  good I Q p → I w → Q (run p w).1 ∧ I (run p w).2.
Proof.
  revert w. induction p as [a|R o c IH]; intros w; simpl; [done|].
  intros Hg Hw. specialize (Hg w Hw). destruct (exec o w) as [r w']. simpl in *.
  apply IH; tauto.
Qed.

(** An invariant that every goroutine of the pool keeps, and that the
    lapse of time keeps, holds after every schedule, and the goroutines
    still keep it. *)
Lemma concurrent_good {A : Type} (I : World → Prop) (Q : nat → A → Prop)
    (ms : list move) (pool : list (Prog A)) (w : World) :
  (∀ d w', 0 ≤ d → I w' → I (advance d w')) →
  Forall onward ms →
  (∀ i p, pool !! i = Some p → good I (Q i) p) →
  I w →
  (∀ i p, (concurrent ms pool w).1 !! i = Some p → good I (Q i) p)
  ∧ I (concurrent ms pool w).2.
Proof.
  intros Hadv Hms. revert pool w.
  induction Hms as [|m ms Hm Hms IH]; intros pool w Hpool Hw; [done|].
  destruct m as [i|d]; cbn [concurrent].
  - destruct (pool !! i) as [p|] eqn:Hp; [|by apply IH].
    destruct (good_step I (Q i) p w (Hpool i p Hp) Hw) as [Hg' Hw'].
    apply IH; [|done]. intros j q Hj.
    destruct (decide (i = j)) as [<-|Hne].
    + rewrite list_lookup_insert_eq in Hj by (by eapply lookup_lt_Some).
      by injection Hj as <-.
    + rewrite list_lookup_insert_ne in Hj by done. by apply Hpool.
  - apply IH; [done|]. by apply Hadv.
Qed.

Lemma drain_good {A : Type} (I : World → Prop) (Q : nat → A → Prop)
    (pool : list (Prog A)) (w : World) :
  (∀ i p, pool !! i = Some p → good I (Q i) p) →
  I w →
  length (drain pool w).1 = length pool
  ∧ (∀ i a, (drain pool w).1 !! i = Some a → Q i a)
  ∧ I (drain pool w).2.
Proof.
  revert Q w. induction pool as [|p pool IH]; intros Q w Hpool Hw; [done|].
  cbn [drain fst snd].
  destruct (good_run I (Q 0%nat) p w (Hpool 0%nat p eq_refl) Hw) as [Ha Hw1].
  destruct (IH (λ i, Q (S i)) (run p w).2) as (Hlen & Hrest & Hw2); [|done|].
  { intros i q Hq. by apply (Hpool (S i)). }
  split; [simpl; by rewrite Hlen|]. split; [|done].
  intros [|i] a Hi; simpl in Hi; [by injection Hi as <- | by apply Hrest].
Qed.

(** Every goroutine of the pool answers, and answers as [Q] says. *)
Lemma answers_good {A : Type} (I : World → Prop) (Q : nat → A → Prop)
    (ms : list move) (pool : list (Prog A)) (w : World) (i : nat) :
  (∀ d w', 0 ≤ d → I w' → I (advance d w')) →
  Forall onward ms →
  (∀ j p, pool !! j = Some p → good I (Q j) p) →
  I w →
  (i < length pool)%nat →
  ∃ a, (answers ms pool w).1 !! i = Some a ∧ Q i a.
Proof.
  intros Hadv Hms Hpool Hw Hi. unfold answers.
  destruct (concurrent_good I Q ms pool w Hadv Hms Hpool Hw) as [Hpool' Hw'].
  destruct (drain_good I Q _ _ Hpool' Hw') as (Hlen & Hall & _).
  rewrite concurrent_length in Hlen.
  destruct (lookup_lt_is_Some_2 (drain (concurrent ms pool w).1 (concurrent ms pool w).2).1 i)
    as [a Ha]; [lia|].
  exists a. split; [done|]. by apply Hall.
Qed.

(** A key that is live after an operation either was live before with the
    same value, or is the key INCR counted on, or is the key SET wrote
    to. *)
Lemma exec_live {R : Type} (o : op R) (w : World) (k : string) (e' : entry) :
  Backend.lookup (now w) (redis (exec o w).2) k = Some e' →
  (∃ e, Backend.lookup (now w) (redis w) k = Some e ∧ val e' = val e)
  ∨ match o with
    | Redis_Incr key => k = key
    | Redis_Set key v _ => k = key ∧ val e' = v
    | _ => False
    end.
Proof.
  destruct o; simpl; eauto; redis_cases; simpl; eauto.
  - (* GET *) unfold Backend.get. destruct (Backend.lookup _ _ key); simpl; eauto.
  - (* INCR *)
    destruct (decide (key = k)) as [<-|Hne]; [by right|].
    unfold Backend.incr. destruct (Backend.lookup _ _ key) as [e|]; simpl.
    + destruct (Backend.parse_int (val e)) as [n|]; simpl; eauto.
      destruct (n <? math_MaxInt64); simpl; eauto.
      rewrite lookup_store_ne by done. eauto.
    + rewrite lookup_store_ne by done. eauto.
  - (* EXPIRE *)
    unfold Backend.expire. destruct (Backend.lookup _ _ key) as [e|] eqn:Hlk; simpl; eauto.
    destruct (_ <=? _); simpl.
    + unfold Backend.lookup, Backend.remove. simpl.
      destruct (decide (key = k)) as [<-|Hne].
      * by rewrite lookup_delete_eq.
      * rewrite lookup_delete_ne by done. eauto.
    + destruct (decide (key = k)) as [<-|Hne].
      * rewrite lookup_store_eq. destruct (Backend.expired _ _); [done|].
        intros [= <-]. left. eauto.
      * rewrite lookup_store_ne by done. eauto.
  - (* SET *)
    destruct (decide (key = k)) as [<-|Hne].
    + rewrite lookup_store_eq. destruct (Backend.expired _ _); [done|].
      intros [= <-]. by right.
    + rewrite lookup_store_ne by done. eauto.
  - (* DEL *)
    assert (kv (Backend.del (now w) key (redis w)).2 = delete key (kv (redis w))) as Hd.
    { unfold Backend.del. by destruct (Backend.lookup _ _ key). }
    unfold Backend.lookup at 1. rewrite Hd.
    destruct (decide (key = k)) as [<-|Hne].
    + by rewrite lookup_delete_eq.
    + rewrite lookup_delete_ne by done. eauto.
Qed.

Section InSync.
Context `{JSON}.

(** An allowed operation that is no stale SET keeps the cache in step. *)
Lemma exec_in_sync (k : Z) (p : Product) {R : Type} (o : op R) (w : World) :
  allowed k o → ¬ stale_set k p o → in_sync k p w → in_sync k p (exec o w).2.
Proof.
  intros Hal Hst [Hdb Hc]. split.
  - rewrite exec_db. destruct o; try done. simpl in Hal. by rewrite lookup_insert_ne.
  - intros e' q. rewrite exec_now. intros Hlk Hq.
    destruct (exec_live o w _ _ Hlk) as [(e & He & Hv)|Hnew].
    + apply (Hc e q He). by rewrite <- Hv.
    + destruct o; try done; simpl in *.
      * by subst.
      * destruct Hnew as [<- Hv]. destruct (decide (q = p)) as [|Hne]; [done|].
        destruct Hst. split; [done|]. exists q. by rewrite <- Hv.
Qed.

(** So does the lapse of time: an entry that is live later is live now. *)
Lemma advance_in_sync (k : Z) (p : Product) (d : Z) (w : World) :
  0 ≤ d → in_sync k p w → in_sync k p (advance d w).
Proof.
  intros Hd [Hdb Hc]. split; [done|]. intros e q Hlk Hq. apply (Hc e q); [|done].
  revert Hlk. unfold Backend.lookup, Backend.expired. simpl.
  destruct (kv (redis w) !! redisProductKey k) as [e0|]; [|done].
  destruct (expire_at e0) as [t|]; [|done].
  destruct (t <? now w + d) eqn:E1; [done|].
  destruct (t <? now w) eqn:E2; [lia|done].
Qed.

Lemma tame_good {A : Type} (k : Z) (p : Product) (prog : Prog A) :
  tame k p prog → ¬ stale_head k p prog → good (in_sync k p) (λ _, True) prog.
Proof.
  induction prog as [a|R o c IH]; simpl; [done|].
  intros (Hal & Hc & Hnext) Hst w Hw. split; [by apply exec_in_sync|].
  apply IH; [apply Hc | by apply Hnext].
Qed.

Lemma tame_step {A : Type} (k : Z) (p : Product) (prog : Prog A) (w : World) :
  tame k p prog → tame k p (step prog w).1.
Proof.
  destruct prog as [a|R o c]; simpl; [done|]. intros (_ & Hc & _).
  destruct (exec o w). apply Hc.
Qed.

Lemma tame_bind {A B : Type} (k : Z) (p : Product) (p1 : Prog A) (f : A → Prog B) :
  tame k p p1 →
  (∀ a, tame k p (f a)) →
  (∀ a, ¬ stale_head k p (f a)) →
  tame k p (bind p1 f).
Proof.
  intros H1 Hf Hh. induction p1 as [a|R o c IH]; simpl in *; [apply Hf|].
  destruct H1 as (Hal & Hc & Hnext). split; [done|]. split; [intros r; by apply IH|].
  intros w Hw. specialize (Hnext w Hw).
  destruct (c (exec o w).1) as [a|R' o' c']; simpl in *; [apply Hh|done].
Qed.

Lemma stale_head_bind {A B : Type} (k : Z) (p : Product) (p1 : Prog A) (f : A → Prog B) :
  ¬ stale_head k p p1 → (∀ a, ¬ stale_head k p (f a)) → ¬ stale_head k p (bind p1 f).
Proof. destruct p1; simpl; auto. Qed.

Lemma tame_call {R : Type} (k : Z) (p : Product) (o : op R) :
  allowed k o → tame k p (call o).
Proof. intros Hal. simpl. auto. Qed.

(** The goroutines of the requests are tame. *)
Lemma countHit_tame (k : Z) (p : Product) (id : Z) :
  tame k p (countHit (redisProductKey id) (redisProductHitsKey id)).
Proof.
  unfold countHit. apply tame_bind.
  - apply tame_call. apply hits_ne_key.
  - intros r. destruct (popularThreshold <=? int_val r); [|done].
    apply tame_bind; [by apply tame_call| |by intros _ []].
    intros _. apply tame_bind; [by apply tame_call|done|by intros _ []].
  - intros r. destruct (popularThreshold <=? int_val r); by intros [].
Qed.

Lemma loadAndFill_tame (k : Z) (p : Product) (id : Z) :
  readable p →
  tame k p (loadAndFill id (redisProductKey id) (redisProductHitsKey id)).
Proof.
  intros Hp. unfold loadAndFill. split; [done|]. split.
  - intros [q|]; [|done]. split; [done|]. split.
    + intros r. split; [done|]. split; [done|]. by intros w _ [].
    + intros w _ [E _]. by apply hits_ne_key in E.
  - intros w [Hdb _]. rewrite exec_DB_Load. cbn [fst].
    destruct (fakeProductDB w !! id) as [q|] eqn:Hq; [|by intros []].
    intros [E (q' & Hq' & Hne)]. apply redisProductKey_inj in E. subst id.
    rewrite Hdb in Hq. injection Hq as <-. rewrite Hp in Hq'. by injection Hq' as <-.
Qed.

Lemma loadAndFill_head (k : Z) (p : Product) (id : Z) (key hk : string) :
  ¬ stale_head k p (loadAndFill id key hk).
Proof. by intros []. Qed.

Lemma getProductHandler_tame (k : Z) (p : Product) (idStr : string) :
  readable p → tame k p (getProductHandler idStr).
Proof.
  intros Hp. unfold getProductHandler. destruct (strconv_Atoi idStr) as [id|]; [|done].
  apply tame_bind; [by apply tame_call| |].
  - intros r. apply tame_bind.
    + destruct r as [data|]; [|done]. destruct (json_Unmarshal data); [|done].
      apply tame_bind; [apply countHit_tame|done|by intros _ []].
    + intros [product|]; [done|by apply loadAndFill_tame].
    + intros [product|]; [by intros [] | apply loadAndFill_head].
  - intros r. apply stale_head_bind.
    + destruct r as [data|]; [|by intros []]. destruct (json_Unmarshal data); [|by intros []].
      apply stale_head_bind; [|by intros _ []].
      unfold countHit. by intros [].
    + intros [product|]; [by intros [] | apply loadAndFill_head].
Qed.

Lemma updateProductHandler_tame (k : Z) (p : Product) (idStr body : string) :
  ¬ writes k (Put idStr body) → tame k p (updateProductHandler idStr body).
Proof.
  intros Hw. unfold updateProductHandler.
  destruct (strconv_Atoi idStr) as [id|] eqn:Hid; [|done].
  destruct (json_Decode body) as [input|] eqn:Hbody; [|done].
  case_bool_decide as Heq; [done|].
  assert (id ≠ k) as Hne.
  { intros ->. apply Hw. split; [done|]. exists input. split; [done|].
    by destruct (decide (ID input = k)). }
  apply tame_bind; [by apply tame_call| |by intros _ []].
  intros _. apply tame_bind; [by apply tame_call| |by intros _ []].
  intros _. apply tame_bind; [by apply tame_call|done|by intros _ []].
Qed.

Lemma sweepKeys_tame (k : Z) (p : Product) (keys : list string) :
  tame k p (sweepKeys keys) ∧ ¬ stale_head k p (sweepKeys keys).
Proof.
  induction keys as [|key keys [IH1 IH2]]; [split; [done|by intros []]|].
  split; [|by intros []]. cbn [sweepKeys].
  apply tame_bind; [by apply tame_call| |].
  - intros r. apply tame_bind; [|done|done].
    destruct r as [ttl|]; [|done]. destruct (stale ttl); [|done].
    apply tame_bind; [by apply tame_call|done|by intros _ []].
  - intros r. apply stale_head_bind; [|done].
    destruct r as [ttl|]; [|by intros []]. destruct (stale ttl); by intros [].
Qed.

Lemma cleanLoop_tame (k : Z) (p : Product) (fuel : nat) (cursor : Z) :
  tame k p (cleanLoop fuel cursor) ∧ ¬ stale_head k p (cleanLoop fuel cursor).
Proof.
  revert cursor. induction fuel as [|fuel IH]; intros cursor; [split; [done|by intros []]|].
  split; [|by intros []]. cbn [cleanLoop].
  apply tame_bind; [by apply tame_call| |].
  - intros [[keys next]|].
    + apply tame_bind; [apply sweepKeys_tame| |].
      * intros _. destruct (next =? 0); [done|apply IH].
      * intros _. destruct (next =? 0); [by intros []|apply IH].
    + apply tame_bind; [by apply tame_call|done|by intros _ []].
  - intros [[keys next]|].
    + apply stale_head_bind; [apply sweepKeys_tame|].
      intros _. destruct (next =? 0); [by intros []|apply IH].
    + by intros [].
Qed.

Lemma serve_tame (k : Z) (p : Product) (q : request) :
  readable p → ¬ writes k q → tame k p (serve q).
Proof.
  intros Hp Hq. destruct q as [idStr|idStr body|fuel]; cbn [serve].
  - apply tame_bind; [by apply getProductHandler_tame|done|by intros _ []].
  - apply tame_bind; [by apply updateProductHandler_tame|done|by intros _ []].
  - apply tame_bind; [apply cleanLoop_tame|done|by intros _ []].
Qed.

(** A request that has not begun is not about to write to the cache. *)
Lemma serve_head (k : Z) (p : Product) (q : request) : ¬ stale_head k p (serve q).
Proof.
  destruct q as [idStr|idStr body|fuel]; cbn [serve].
  - unfold getProductHandler. destruct (strconv_Atoi idStr); by intros [].
  - unfold updateProductHandler. destruct (strconv_Atoi idStr); [|by intros []].
    destruct (json_Decode body); [|by intros []]. case_bool_decide; by intros [].
  - apply stale_head_bind; [apply cleanLoop_tame|by intros _ []].
Qed.

(** In a world in step with the database, a read of [k] answers the
    record of the database, from the cache or from the database, and
    leaves the cache in step. *)
Lemma loadAndFill_good (k : Z) (p : Product) :
  readable p →
  good (in_sync k p) (λ r, r = RespJSON p)
       (loadAndFill k (redisProductKey k) (redisProductHitsKey k)).
Proof.
  intros Hp w Hw. split; [apply exec_in_sync; [done|by intros []|done]|].
  rewrite exec_DB_Load. cbn [fst bind]. destruct Hw as [Hdb _]. rewrite Hdb.
  intros w1 Hw1. split.
  { apply exec_in_sync; [done| |done]. intros [_ (q & Hq & Hne)].
    rewrite Hp in Hq. by injection Hq as <-. }
  intros w2 Hw2. split; [|done].
  apply exec_in_sync; [done| |done]. intros [E _]. by apply hits_ne_key in E.
Qed.

Lemma getProductHandler_good (k : Z) (p : Product) (idStr : string) :
  readable p →
  strconv_Atoi idStr = Some k →
  good (in_sync k p) (λ r, r = RespJSON p) (getProductHandler idStr).
Proof.
  intros Hp Hid. unfold getProductHandler. rewrite Hid.
  intros w Hw. split; [apply exec_in_sync; [done|by intros []|done]|].
  rewrite exec_Get_reply. cbn [bind].
  destruct (lost w); [by apply loadAndFill_good|].
  destruct (Backend.lookup _ _ _) as [e|] eqn:Hlk; [|by apply loadAndFill_good].
  destruct (json_Unmarshal (val e)) as [q|] eqn:Hq; [|by apply loadAndFill_good].
  destruct Hw as [_ Hc]. rewrite (Hc e q Hlk Hq).
  apply (good_bind _ (λ c, c = Some p)); [|by intros _ ->].
  apply (good_bind _ (λ _, True)); [|done].
  apply tame_good; [apply countHit_tame|]. unfold countHit. by intros [].
Qed.

(** Every request that is no accepted update of [k] keeps the cache in
    step, and answers [p] if it is a read of [k]. *)
Lemma serve_good (k : Z) (p : Product) (q : request) :
  readable p → ¬ writes k q → good (in_sync k p) (agrees k p q) (serve q).
Proof.
  intros Hp Hq. destruct q as [idStr|idStr body|fuel].
  - destruct (decide (strconv_Atoi idStr = Some k)) as [Hid|Hid].
    + cbn [serve]. apply (good_bind _ (λ r, r = RespJSON p)).
      * by apply getProductHandler_good.
      * by intros _ -> _.
    + eapply good_mono; [|apply tame_good; [by apply serve_tame|apply serve_head]].
      by intros a _ ?.
  - apply tame_good; [by apply serve_tame|apply serve_head].
  - apply tame_good; [by apply serve_tame|apply serve_head].
Qed.

End InSync.

Section Overlaps.
Context `{JSON}.

Lemma serve_Put_accepted (idStr body : string) (k : Z) (input : Product) :
  strconv_Atoi idStr = Some k →
  json_Decode body = Some input →
  ID input = k →
  serve (Put idStr body)
  = Call (DB_Store k (mkProduct k (Name input) (Price input))) (λ _, invalidation k).
Proof.
  intros Hid Hbody Heq. cbn [serve]. unfold updateProductHandler.
  rewrite Hid, Hbody. by rewrite bool_decide_eq_false_2 by (by intros ?).
Qed.

(** A tame goroutine does not write the record of [k]. *)
Lemma step_tame_db {A : Type} (k : Z) (p : Product) (prog : Prog A) (w : World) :
  tame k p prog → fakeProductDB (step prog w).2 !! k = fakeProductDB w !! k.
Proof.
  destruct prog as [a|R o c]; [done|]. intros (Hal & _ & _). simpl.
  pose proof (exec_db o w) as Hdb. destruct (exec o w) as [r w']. simpl in *.
  rewrite Hdb. destruct o; try done. simpl in Hal. by rewrite lookup_insert_ne.
Qed.

(** While the goroutine at index 0 gets no turn, it stays as it is, the
    others stay tame, and the record of [k] stays as it is. *)
Lemma concurrent_waiting {A : Type} (k : Z) (p : Product) (ms : list move)
    (u : Prog A) (rest : list (Prog A)) (w : World) :
  turns 0 ms = 0%nat →
  Forall (tame k p) rest →
  ∃ rest',
    (concurrent ms (u :: rest) w).1 = u :: rest'
    ∧ Forall (tame k p) rest'
    ∧ fakeProductDB (concurrent ms (u :: rest) w).2 !! k = fakeProductDB w !! k.
Proof.
  revert rest w. induction ms as [|[i|d] ms IH]; intros rest w Hms Hrest.
  - by exists rest.
  - destruct i as [|i]; [done|]. cbn [turns Nat.eqb] in Hms. cbn [concurrent].
    change ((u :: rest) !! S i) with (rest !! i).
    destruct (rest !! i) as [q|] eqn:Hq; [|by apply IH].
    change (<[S i := (step q w).1]> (u :: rest)) with (u :: <[i := (step q w).1]> rest).
    assert (tame k p q) as Htq by (eapply Forall_lookup_1; eauto).
    destruct (IH (<[i := (step q w).1]> rest) (step q w).2 Hms) as (rest' & E & Ht & Hdb).
    { apply Forall_insert; [done|]. by apply tame_step. }
    exists rest'. split; [done|]. split; [done|]. rewrite Hdb. by eapply step_tame_db.
  - cbn [concurrent]. destruct (IH rest (advance d w) Hms Hrest) as (rest' & ? & ? & ?).
    by exists rest'.
Qed.

(** After the one turn in which an accepted update stores its record, it
    is about to delete the cache entry, the database holds the record,
    and the other goroutines are tame. *)
Lemma concurrent_stored (idStr body : string) (k : Z) (input : Product)
    (ms : list move) (rest : list (Prog (option response))) (w : World) :
  strconv_Atoi idStr = Some k →
  json_Decode body = Some input →
  ID input = k →
  let record' := mkProduct k (Name input) (Price input) in
  turns 0 ms = 1%nat →
  Forall (tame k record') rest →
  ∃ rest',
    (concurrent ms (serve (Put idStr body) :: rest) w).1 = invalidation k :: rest'
    ∧ Forall (tame k record') rest'
    ∧ fakeProductDB (concurrent ms (serve (Put idStr body) :: rest) w).2 !! k
      = Some record'.
Proof.
  intros Hid Hbody Heq record'. revert rest w.
  induction ms as [|[i|d] ms IH]; intros rest w Hms Hrest; [done|..].
  - destruct i as [|i].
    + cbn [turns Nat.eqb] in Hms. injection Hms as Hms. cbn [concurrent].
      change ((serve (Put idStr body) :: rest) !! 0%nat) with (Some (serve (Put idStr body))).
      rewrite (serve_Put_accepted idStr body k input Hid Hbody Heq).
      destruct (concurrent_waiting k record' ms (invalidation k) rest
                  (exec (DB_Store k record') w).2 Hms Hrest) as (rest' & E & Ht & Hdb).
      exists rest'. split; [exact E|]. split; [done|].
      etrans; [exact Hdb|]. rewrite exec_db. apply lookup_insert_eq.
    + cbn [turns Nat.eqb] in Hms. cbn [concurrent].
      change ((serve (Put idStr body) :: rest) !! S i) with (rest !! i).
      destruct (rest !! i) as [q|] eqn:Hq; [|by apply IH].
      change (<[S i := (step q w).1]> (serve (Put idStr body) :: rest))
        with (serve (Put idStr body) :: <[i := (step q w).1]> rest).
      apply IH; [done|]. apply Forall_insert; [done|]. apply tame_step.
      eapply Forall_lookup_1; eauto.
  - cbn [concurrent]. by apply IH.
Qed.

End Overlaps.

Section Agreement.
Context `{JSON}.

(** C1 (amended): an accepted update of [k] runs in a pool with any
    other requests that are no accepted updates of [k], under any
    schedule, from any world.  Take the moment when the update has stored
    its record and its DEL of the cache entry key comes next.  If this DEL
    reaches the cache, and no goroutine is at that moment about to SET the
    cache entry of [k] to another record than the new one (a read that
    loaded the record before the store and has not written it yet), then
    the DEL leaves no cache entry for [k], and every read of [k] that has
    not begun by then answers the record the update wrote: under every
    later schedule, whatever the requests in flight, the cleaner, the
    lapse of time and the lost calls do, given that the codec reads the
    record back. *)
Theorem read_after_served_invalidation
    (idStr body : string) (k : Z) (input : Product) (reqs : list request)
    (before after : list move) (w : World) :
  strconv_Atoi idStr = Some k →
  json_Decode body = Some input →
  ID input = k →
  let record' := mkProduct k (Name input) (Price input) in
  let pool1 := (concurrent before (map serve (Put idStr body :: reqs)) w).1 in
  let w1 := (concurrent before (map serve (Put idStr body :: reqs)) w).2 in
  readable record' →
  Forall (λ q, ¬ writes k q) reqs →
  turns 0 before = 1%nat →
  lost w1 = false →
  Forall (λ prog, ¬ stale_head k record' prog) pool1 →
  Forall onward after →
  kv (redis (concurrent [Turn 0%nat] pool1 w1).2) !! redisProductKey k = None
  ∧ ∀ (j : nat) idStr',
      reqs !! j = Some (Get idStr') →
      strconv_Atoi idStr' = Some k →
      turns (S j) before = 0%nat →
      (answers (Turn 0%nat :: after) pool1 w1).1 !! S j
      = Some (Some (RespJSON record')).
Proof.
  intros Hid Hbody Heq record' pool1 w1 Hp Hreqs Hturn Hl Hheads Hafter.
  assert (Forall (tame k record') (map serve reqs)) as Htame.
  { apply Forall_fmap. eapply Forall_impl; [exact Hreqs|].
    intros q Hq. by apply serve_tame. }
  destruct (concurrent_stored idStr body k input before (map serve reqs) w
              Hid Hbody Heq Hturn Htame) as (rest & Hpool & Hrest & Hdb).
  fold record' in Hdb. change (serve (Put idStr body) :: map serve reqs)
    with (map serve (Put idStr body :: reqs)) in Hpool, Hdb.
  fold pool1 in Hpool. fold w1 in Hdb.
  set (w2 := (exec (Redis_Del (redisProductKey k)) w1).2).
  set (pool2 := (call (Redis_Del (redisProductHitsKey k));;;
                 Ret (Some (RespStatus http_StatusNoContent)))%prog :: rest).
  assert (concurrent [Turn 0%nat] pool1 w1 = (pool2, w2)) as Hdel.
  { rewrite Hpool. cbn [concurrent]. unfold pool2, w2.
    change ((invalidation k :: rest) !! 0%nat) with (Some (invalidation k)).
    cbn [invalidation bind call step].
    by destruct (exec (Redis_Del (redisProductKey k)) w1). }
  assert (kv (redis w2) !! redisProductKey k = None) as Hgone.
  { unfold w2. rewrite exec_Del_served by done. apply lookup_delete_eq. }
  split; [by rewrite Hdel|].
  intros j idStr' Hj Hid' Hidle.
  assert (in_sync k record' w2) as Hsync.
  { split.
    - unfold w2. by rewrite exec_db.
    - intros e q. unfold Backend.lookup. by rewrite Hgone. }
  assert (answers (Turn 0%nat :: after) pool1 w1 = answers after pool2 w2) as ->.
  { unfold answers. change (Turn 0%nat :: after) with ([Turn 0%nat] ++ after).
    by rewrite concurrent_app, Hdel. }
  destruct (answers_good (in_sync k record')
              (λ i a, i = S j → a = Some (RespJSON record'))
              after pool2 w2 (S j)) as (a & Ha & Ea); try done.
  - intros d w'. apply advance_in_sync.
  - intros [|i] prog Hi.
    + injection Hi as <-. eapply good_mono; [by intros a _ ?|].
      apply tame_good; [|by intros []].
      split; [done|]. split; [done|]. by intros w' _ [].
    + change (pool2 !! S i) with (rest !! i) in Hi.
      destruct (decide (i = j)) as [->|Hne].
      * assert (pool1 !! S j = Some (serve (Get idStr'))) as Hsame.
        { unfold pool1. rewrite concurrent_idle by done.
          change (map serve (Put idStr body :: reqs) !! S j)
            with (map serve reqs !! j).
          by rewrite list_lookup_fmap, Hj. }
        rewrite Hpool in Hsame. change ((invalidation k :: rest) !! S j)
          with (rest !! j) in Hsame.
        rewrite Hsame in Hi. injection Hi as <-.
        eapply good_mono; [|apply (serve_good k record' (Get idStr')); [done|by intros []]].
        intros a Ha _. by apply Ha.
      * eapply good_mono; [intros a _ [= ?]; done|].
        apply tame_good; [by eapply Forall_lookup_1|].
        rewrite Hpool in Hheads. apply Forall_cons in Hheads as [_ Hheads].
        by eapply (Forall_lookup_1 _ _ _ _ Hheads).
  - unfold pool2. simpl.
    assert (length pool1 = S (length reqs)) as Hlen.
    { unfold pool1. rewrite concurrent_length. simpl. by rewrite length_fmap. }
    rewrite Hpool in Hlen. simpl in Hlen. apply lookup_lt_Some in Hj. lia.
  - by rewrite Ha, Ea.
Qed.

(** C8 (amended): if the database holds [p] under [k], the cache entry of
    [k], when it is live and decodes, decodes to [p], and the codec reads
    [p] back, then every read of [k] answers [p], be it served from the
    cache or from the database: in every pool of requests without
    accepted update of [k], under every schedule of their atomic steps,
    whatever the reads and updates of other identifiers, the passes of the
    cleaner, the lapse of time and the lost cache calls. *)
Theorem repeated_reads_agree_when_in_sync
    (k : Z) (p : Product) (reqs : list request) (ms : list move) (w : World) :
  in_sync k p w →
  readable p →
  Forall (λ q, ¬ writes k q) reqs →
  Forall onward ms →
  ∀ (i : nat) idStr,
    reqs !! i = Some (Get idStr) →
    strconv_Atoi idStr = Some k →
    (answers ms (map serve reqs) w).1 !! i = Some (Some (RespJSON p)).
Proof.
  intros Hw Hp Hreqs Hms i idStr Hi Hid.
  destruct (answers_good (in_sync k p)
              (λ j a, ∀ q, reqs !! j = Some q → agrees k p q a)
              ms (map serve reqs) w i) as (a & Ha & Ea); try done.
  - intros d w'. apply advance_in_sync.
  - intros j prog Hj. rewrite list_lookup_fmap in Hj.
    destruct (reqs !! j) as [q|] eqn:Hq; [|done]. injection Hj as <-.
    eapply good_mono; [|apply (serve_good k p q Hp)].
    + by intros a Ha q' [= <-].
    + exact (Forall_lookup_1 _ _ _ _ Hreqs Hq).
  - rewrite length_fmap. by eapply lookup_lt_Some.
  - rewrite Ha. by rewrite (Ea _ Hi Hid).
Qed.

End Agreement.

Lemma read_after_served_invalidation_witness :
  kv (redis (concurrent [Turn 1; Turn 1; Turn 1; Turn 0; Turn 0]%nat
               (map serve [Put "1" (json_Marshal apple120); Get "1"; Get "1"])
               world0).2) !! redisProductKey 1 = None
  ∧ (answers ([Turn 1; Turn 1; Turn 1; Turn 0]
              ++ Turn 0 :: [Turn 2; Turn 1; Pass 5; Turn 0; Turn 2])%nat
       (map serve [Put "1" (json_Marshal apple120); Get "1"; Get "1"]) world0).1
    !! 2%nat = Some (Some (RespJSON apple120)).
Proof.
  destruct (read_after_served_invalidation "1" (json_Marshal apple120) 1 apple120
              [Get "1"; Get "1"] [Turn 1; Turn 1; Turn 1; Turn 0]%nat
              [Turn 2; Turn 1; Pass 5; Turn 0; Turn 2]%nat world0)
    as [Hgone Hread].
  - reflexivity.
  - vm_compute. reflexivity.
  - reflexivity.
  - vm_compute. reflexivity.
  - repeat constructor; intros [].
  - reflexivity.
  - vm_compute. reflexivity.
  - repeat constructor; first [solve [intros []] | intros [E _]; discriminate E].
  - repeat constructor. simpl. lia.
  - split.
    + change [Turn 1; Turn 1; Turn 1; Turn 0; Turn 0]%nat
        with ([Turn 1; Turn 1; Turn 1; Turn 0] ++ [Turn 0])%nat.
      rewrite concurrent_app. exact Hgone.
    + unfold answers. rewrite concurrent_app.
      exact (Hread 1%nat "1"%string eq_refl eq_refl eq_refl).
Defined.

(** C1 as stated fails.  First run: a read of product 1 misses the cache
    and loads the record; an update then stores the new price and issues
    both deletions; the read then fills the cache with the record it had
    loaded.  Both requests are over, and the read that begins now answers
    the price from before the update.  Second run: requests are served
    one after the other, the DEL of the cache entry is lost, and the read
    after the update answers the cached price from before it.  Third run:
    after the first run the product is read every 20 seconds; each read
    sets the expiry of the stale entry anew, and four minutes after the
    update the read still answers the price from before it.  Fourth: in
    the first run, at the moment the update is about to issue its DEL of
    the cache entry, the read is about to SET the entry to the record
    from before the update.  Fifth: a read that begins after the update
    has stored the record and before it issues its DEL is served from the
    entry that is still cached, and answers the price from before the
    update. *)
Lemma read_after_update_can_be_stale :
  (let '(pool, w) :=
     interleave [0; 0; 1; 1; 1; 0; 0]%nat
       [getProductHandler "1"; updateProductHandler "1" (json_Marshal apple120)]
       world0 in
   pool = [Ret (RespJSON apple100); Ret (RespStatus http_StatusNoContent)]
   ∧ fakeProductDB w !! 1 = Some apple120
   ∧ (run (getProductHandler "1") w).1 = RespJSON apple100)
  ∧ (replay [Fetch "1" []; Update "1" (json_Marshal apple120) [true]; Fetch "1" []]
            world0).1
    = [Some (RespJSON apple100); Some (RespStatus http_StatusNoContent);
       Some (RespJSON apple100)]
  ∧ (replay (concat (replicate 12 [Wait 20000; Fetch "1" []]))
       (interleave [0; 0; 1; 1; 1; 0; 0]%nat
          [getProductHandler "1"; updateProductHandler "1" (json_Marshal apple120)]
          world0).2).1
    = concat (replicate 12 [None; Some (RespJSON apple100)])
  ∧ (concurrent [Turn 1; Turn 1; Turn 0]%nat
       (map serve [Put "1" (json_Marshal apple120); Get "1"]) world0).1
    = [invalidation 1;
       Call (Redis_Set (redisProductKey 1) (json_Marshal apple100) redisProductTTL)
         (λ _, Call (Redis_Set (redisProductHitsKey 1) "1" redisProductTTL)
                 (λ _, Ret (Some (RespJSON apple100))))]
  ∧ json_Unmarshal (json_Marshal apple100) = Some apple100
  ∧ (answers [Turn 1; Turn 1; Turn 0; Turn 0; Turn 0; Turn 1; Turn 1]%nat
       (map serve [Put "1" (json_Marshal apple120); Get "1"; Get "1"]) world0).1
    = [Some (RespStatus http_StatusNoContent); Some (RespJSON apple100);
       Some (RespJSON apple100)]
  ∧ (answers [Turn 0; Turn 1; Turn 1; Turn 1; Turn 1; Turn 0; Turn 0]%nat
       (map serve [Put "1" (json_Marshal apple120); Get "1"]) world_cached).1
    = [Some (RespStatus http_StatusNoContent); Some (RespJSON apple100)].
Proof. vm_compute. repeat split. Qed.

Lemma repeated_reads_agree_when_in_sync_witness :
  (answers [Turn 0; Turn 0; Turn 0; Turn 0; Pass 40000; Turn 1; Turn 2; Turn 1]%nat
     (map serve [Get "1"; Get "1"; Clean 1]) world_cached).1 !! 0%nat
  = Some (Some (RespJSON apple100))
  ∧ (answers [Turn 0; Turn 0; Turn 0; Turn 0; Pass 40000; Turn 1; Turn 2; Turn 1]%nat
       (map serve [Get "1"; Get "1"; Clean 1]) world_cached).1 !! 1%nat
    = Some (Some (RespJSON apple100))
  ∧ trace (answers [Turn 0; Turn 0; Turn 0; Turn 0; Pass 40000; Turn 1; Turn 2; Turn 1]%nat
             (map serve [Get "1"; Get "1"; Clean 1]) world_cached).2
    = trace world_cached
      ++ [Ev (Redis_Get (redisProductKey 1)); Ev (Redis_Incr (redisProductHitsKey 1));
          Ev (Redis_Expire (redisProductKey 1) redisProductTTL);
          Ev (Redis_Expire (redisProductHitsKey 1) redisProductTTL);
          Ev (Redis_Get (redisProductKey 1));
          Ev (Redis_Scan 0 productPattern scanCount);
          Ev (DB_Load 1);
          Ev (Redis_Set (redisProductKey 1) (json_Marshal apple100) redisProductTTL);
          Ev (Redis_Set (redisProductHitsKey 1) "1" redisProductTTL);
          Ev (Redis_TTL (redisProductKey 1)); Ev (Redis_TTL (redisProductHitsKey 1))].
Proof.
  assert (in_sync 1 apple100 world_cached) as Hsync.
  { split; [reflexivity|]. intros e q Hlk Hq. vm_compute in Hlk.
    injection Hlk as <-. vm_compute in Hq. by injection Hq as <-. }
  assert (readable apple100) as Hp by (vm_compute; reflexivity).
  assert (Forall (λ q, ¬ writes 1 q) [Get "1"; Get "1"; Clean 1]) as Hreqs
    by (repeat constructor; intros []).
  assert (Forall onward [Turn 0; Turn 0; Turn 0; Turn 0; Pass 40000; Turn 1; Turn 2;
                         Turn 1]%nat) as Hms
    by (repeat constructor; simpl; lia).
  split; [|split].
  - exact (repeated_reads_agree_when_in_sync 1 apple100 _ _ world_cached
             Hsync Hp Hreqs Hms 0%nat "1"%string eq_refl eq_refl).
  - exact (repeated_reads_agree_when_in_sync 1 apple100 _ _ world_cached
             Hsync Hp Hreqs Hms 1%nat "1"%string eq_refl eq_refl).
  - vm_compute. reflexivity.
Defined.

(* ===================================================================== *)
(** ** Further properties: reads of a product that stays popular *)
(* ===================================================================== *)

(** INCR reads back the counters it writes. *)
Lemma parse_int_fmt_d (n : Z) :
  math_MinInt64 ≤ n ≤ math_MaxInt64 → Backend.parse_int (fmt_d n) = Some n.
Proof.
  intros Hn. unfold Backend.parse_int.
  assert (Z.to_int n ≠ Decimal.Pos Decimal.Nil ∧ Z.to_int n ≠ Decimal.Neg Decimal.Nil)
    as [H1 H2].
  { destruct n as [|q|q]; simpl; split; try discriminate;
      intros [= Hq]; exact (Unsigned.to_uint_nonnil q Hq). }
  unfold fmt_d at 1. rewrite (NilZero.isi _ H1 H2). cbv zeta.
  rewrite DecimalZ.of_to, bool_decide_eq_true_2 by done.
  destruct (math_MinInt64 <=? n) eqn:Hlo; [|lia].
  destruct (n <=? math_MaxInt64) eqn:Hhi; [done|lia].
Qed.

Lemma loads_of_app (id : Z) (tr tr' : list event) :
  loads_of id (tr ++ tr') = (loads_of id tr + loads_of id tr')%nat.
Proof. unfold loads_of. rewrite List.filter_app. apply length_app. Qed.

(** An operation that is no read of the record of [id] from the database
    adds none to the count. *)
Lemma exec_loads_of (id : Z) {R : Type} (o : op R) (w : World) :
  is_load_of id (Ev o) = false →
  loads_of id (trace (exec o w).2) = loads_of id (trace w).
Proof.
  intros Ho. rewrite exec_trace, loads_of_app. unfold loads_of at 2.
  cbn [List.filter]. rewrite Ho. simpl. lia.
Qed.

(** A key with 500 milliseconds or more left has a positive TTL reply. *)
Lemma live_not_stale (w : World) (k : string) (e : entry) (T : Z) :
  kv (redis w) !! k = Some e →
  expire_at e = Some T →
  now w + 500 ≤ T →
  stale (Backend.ttl_value (now w) (redis w) k) = false.
Proof.
  intros Hk Hx HT. destruct (stale _) eqn:Hst; [|done]. exfalso.
  pose proof (proj1 (stale_reply_remaining w k e Hk)) as Hrem. rewrite Hx in Hrem.
  unfold stale in Hst. apply orb_true_iff in Hst as [Hle%Z.leb_le|Heq%Z.eqb_eq].
  - specialize (Hrem (or_intror Hle)). lia.
  - specialize (Hrem (or_introl Heq)). lia.
Qed.

Lemma untouched_refl (id : Z) (w : World) : untouched id w w.
Proof. by repeat split. Qed.

Section Popular.
Context `{JSON}.

Lemma replay_step (a : activity) (h : list activity) (w : World) :
  replay (a :: h) w
  = ((perform a w).1 :: (replay h (perform a w).2).1, (replay h (perform a w).2).2).
Proof.
  cbn [replay]. destruct (perform a w) as [r w1]. cbn [fst snd].
  by destruct (replay h w1).
Qed.

Lemma replay_app (h h' : list activity) (w : World) :
  replay (h ++ h') w
  = ((replay h w).1 ++ (replay h' (replay h w).2).1, (replay h' (replay h w).2).2).
Proof.
  revert w. induction h as [|a h IH]; intros w.
  - cbn [app replay fst snd]. by destruct (replay h' w).
  - cbn [app]. rewrite !replay_step, IH. done.
Qed.

Lemma replay_length (h : list activity) (w : World) :
  length (replay h w).1 = length h.
Proof.
  revert w. induction h as [|a h IH]; intros w; [done|].
  rewrite replay_step. cbn [fst length]. by rewrite IH.
Qed.

Lemma perform_Fetch_answer (idStr : string) (fs : list bool) (w : World) :
  (perform (Fetch idStr fs) w).1
  = Some (run (getProductHandler idStr) (with_faults fs w)).1.
Proof. simpl. by destruct (run _ _). Qed.

Lemma untouched_warm (T : Z) (id : Z) (p : Product) (c : Z) (w w' : World) :
  untouched id w w' → warm_until T id p c w → warm_until T id p c w'.
Proof.
  intros (_ & Hdb & Hk & Hh & _) (Hp & Hkey & Hhits).
  split; [congruence|]. split; congruence.
Qed.

(** A read addressed to another identifier leaves [id] untouched. *)
Lemma fetch_aside (id : Z) (idStr : string) (w : World) :
  strconv_Atoi idStr ≠ Some id →
  untouched id w (run (getProductHandler idStr) w).2.
Proof.
  intros Hid. destruct (strconv_Atoi idStr) as [id'|] eqn:Hid'.
  - assert (id' ≠ id) as Hne by congruence.
    apply (run_invariant (get_op id') (untouched id w));
      [|by apply getProductHandler_always|apply untouched_refl].
    intros R o w1 (Hnow & Hdb & Hk & Hh & Hl) Ho.
    split; [by rewrite exec_now|]. split; [by rewrite (get_op_db id')|].
    split; [|split].
    + rewrite exec_other_key; [done|]. eapply get_op_key; [done|..].
      * intros E. by apply redisProductKey_inj in E.
      * apply key_ne_hits.
    + rewrite exec_other_key; [done|]. eapply get_op_key; [done|..].
      * apply hits_ne_key.
      * intros E. by apply redisProductHitsKey_inj in E.
    + rewrite exec_loads_of; [done|]. destruct o; try done. simpl in *.
      subst. by apply Z.eqb_neq.
  - unfold getProductHandler. rewrite Hid'. apply untouched_refl.
Qed.

(** So does an update addressed to another identifier. *)
Lemma update_aside (id : Z) (idStr body : string) (w : World) :
  strconv_Atoi idStr ≠ Some id →
  untouched id w (run (updateProductHandler idStr body) w).2.
Proof.
  intros Hid. destruct (strconv_Atoi idStr) as [id'|] eqn:Hid'.
  - assert (id' ≠ id) as Hne by congruence.
    apply (run_invariant (update_op id') (untouched id w));
      [|by apply updateProductHandler_always|apply untouched_refl].
    intros R o w1 (Hnow & Hdb & Hk & Hh & Hl) Ho.
    split; [by rewrite exec_now|]. split; [by rewrite (update_op_db id' id)|].
    split; [|split].
    + rewrite exec_other_key; [done|]. eapply update_op_key; [done|..].
      * intros E. by apply redisProductKey_inj in E.
      * apply key_ne_hits.
    + rewrite exec_other_key; [done|]. eapply update_op_key; [done|..].
      * apply hits_ne_key.
      * intros E. by apply redisProductHitsKey_inj in E.
    + rewrite exec_loads_of; [done|]. by destruct o.
  - unfold updateProductHandler. rewrite Hid'. apply untouched_refl.
Qed.

(** So does a pass of the cleaner while both keys of [id] have 500
    milliseconds or more left, whatever calls are lost. *)
Lemma sweep_aside (T : Z) (id : Z) (p : Product) (c : Z) (fuel : nat) (w : World) :
  warm_until T id p c w →
  now w + 500 ≤ T →
  untouched id w (run (cleanStaleProductKeys fuel) w).2.
Proof.
  intros (_ & Hkey & Hhits) HT.
  apply (run_invariant sweep_safe (untouched id w));
    [|apply cleanLoop_safe|apply untouched_refl].
  intros R o w1 (Hnow & Hdb & Hk & Hh & Hl) Ho.
  assert (∀ k e, kv (redis w) !! k = Some e → expire_at e = Some T →
                 kv (redis w1) !! k = kv (redis w) !! k →
                 op_key o ≠ Some k ∨ redis (exec o w1).2 = redis w1) as Hsafe.
  { intros k e He Hx Hsame. destruct o; simpl in Ho; try done; try (by left).
    - left. intros [= ->]. destruct Ho as [_ Hst].
      rewrite (live_not_stale w1 k e T) in Hst; [done|congruence|done|lia].
    - right. apply exec_TTL_reply. }
  split; [by rewrite exec_now|]. split; [|split; [|split]].
  - rewrite exec_db. by destruct o.
  - destruct (Hsafe _ _ Hkey eq_refl Hk) as [Hne| ->]; [|done].
    by rewrite exec_other_key.
  - destruct (Hsafe _ _ Hhits eq_refl Hh) as [Hne| ->]; [|done].
    by rewrite exec_other_key.
  - rewrite exec_loads_of; [done|]. by destruct o.
Qed.

(** What an activity aside of [id] leaves of a warm cache. *)
Lemma aside_keeps_warm
    (T : Z) (id : Z) (p : Product) (c : Z) (a : activity) (w : World) :
  aside id a →
  warm_until T id p c w →
  now w + 500 ≤ T →
  warm_until T id p c (perform a w).2
  ∧ loads_of id (trace (perform a w).2) = loads_of id (trace w)
  ∧ now (perform a w).2 = now w + span [a].
Proof.
  intros Ha Hw HT.
  assert (∀ w', untouched id w w' →
                warm_until T id p c w'
                ∧ loads_of id (trace w') = loads_of id (trace w)
                ∧ now w' = now w + 0) as Hun.
  { intros w' Hu. split; [by eapply untouched_warm|].
    destruct Hu as (-> & _ & _ & _ & ->). split; [done|lia]. }
  destruct a as [idStr fs|idStr body fs|fuel fs|d]; cbn [aside span] in *.
  - rewrite perform_Fetch_world. apply Hun.
    apply (fetch_aside id idStr (with_faults fs w) Ha).
  - rewrite perform_Update_world. apply Hun.
    apply (update_aside id idStr body (with_faults fs w) Ha).
  - apply Hun. apply (sweep_aside T id p c fuel (with_faults fs w)); done.
  - simpl. split; [done|]. split; [done|lia].
Qed.

Lemma span_nonneg (id : Z) (g : list activity) : Forall (aside id) g → 0 ≤ span g.
Proof.
  induction 1 as [|a g Ha Hg IH]; [done|].
  destruct a; cbn [span aside] in *; lia.
Qed.

Lemma asides_keep_warm
    (T : Z) (id : Z) (p : Product) (c : Z) (g : list activity) (w : World) :
  Forall (aside id) g →
  warm_until T id p c w →
  now w + span g + 500 ≤ T →
  warm_until T id p c (replay g w).2
  ∧ loads_of id (trace (replay g w).2) = loads_of id (trace w)
  ∧ now (replay g w).2 = now w + span g.
Proof.
  intros Hg. revert w. induction Hg as [|a g Ha Hg IH]; intros w Hw HT.
  - cbn [replay span fst snd]. split; [done|]. split; [done|lia].
  - pose proof (span_nonneg id g Hg) as Hpos.
    assert (span (a :: g) = span [a] + span g) as Hspan
      by (destruct a; cbn [span]; lia).
    assert (0 ≤ span [a]) as Hpos1 by (destruct a; cbn [span aside] in *; lia).
    destruct (aside_keeps_warm T id p c a w Ha Hw) as (Hw1 & Hl1 & Hn1); [lia|].
    destruct (IH (perform a w).2 Hw1) as (Hw2 & Hl2 & Hn2); [lia|].
    rewrite replay_step. cbn [fst snd].
    split; [done|]. split; [congruence|]. rewrite Hn2, Hn1. lia.
Qed.

(** A miss-fill on a transport without faults leaves the cache warm with
    a count of 1, after one read of the database. *)
Lemma miss_fill_warm (idStr : string) (id : Z) (w : World) (p : Product) :
  strconv_Atoi idStr = Some id →
  cache_miss id w →
  faults w = [] →
  fakeProductDB w !! id = Some p →
  let w' := (run (getProductHandler idStr) w).2 in
  warm id p 1 w' ∧ loads_of id (trace w') = S (loads_of id (trace w)).
Proof.
  intros Hid Hmiss Hf Hp. cbv zeta.
  rewrite (miss_runs_loadAndFill idStr id w Hid Hmiss).
  pose proof (exec_db (Redis_Get (redisProductKey id)) w) as Hdb.
  pose proof (exec_now (Redis_Get (redisProductKey id)) w) as Hnow.
  pose proof (exec_trace (Redis_Get (redisProductKey id)) w) as Htr.
  pose proof (exec_nofault (Redis_Get (redisProductKey id)) w Hf) as Hnf.
  destruct (exec (Redis_Get _) w) as [r w1]. cbn [fst snd] in *.
  unfold loadAndFill. rewrite run_call_bind, exec_DB_Load. cbn [fst snd].
  rewrite Hdb, Hp, !run_call_bind. cbn [run snd].
  set (w2 := record (Ev (DB_Load id)) w1).
  assert (faults w2 = []) as Hf2 by done.
  assert (now w2 = now w) as Hnow2 by done.
  assert (fakeProductDB w2 = fakeProductDB w) as Hdb2 by done.
  assert (trace w2 = trace w ++ [Ev (Redis_Get (redisProductKey id)); Ev (DB_Load id)])
    as Htr2 by (unfold w2; simpl; by rewrite Htr, <- app_assoc).
  unfold warm, warm_until. split; [split; [|split]|].
  - by rewrite !exec_db, Hdb2.
  - rewrite exec_other_key
      by (cbn [op_key]; intros E; apply (hits_ne_key id id); congruence).
    rewrite exec_Set_served, set_full_ttl by by apply nofault_lost.
    cbn [snd Backend.store kv]. by rewrite lookup_insert_eq, !exec_now, Hnow2.
  - rewrite exec_Set_served, set_full_ttl
      by (apply nofault_lost; by apply exec_nofault).
    cbn [snd Backend.store kv]. by rewrite lookup_insert_eq, !exec_now, Hnow2.
  - rewrite !exec_trace, Htr2, !loads_of_app. unfold loads_of. simpl.
    rewrite Z.eqb_refl. simpl. lia.
Qed.

(** A read of an entry that is warm until now or later answers from the
    cache, counts the hit and leaves the cache warm for a full TTL,
    without a read of the database. *)
Lemma warm_hit (idStr : string) (id : Z) (p : Product) (c T : Z) (w : World) :
  strconv_Atoi idStr = Some id →
  readable p →
  1 ≤ c < math_MaxInt64 →
  now w ≤ T →
  warm_until T id p c w →
  let w0 := with_faults [] w in
  (run (getProductHandler idStr) w0).1 = RespJSON p
  ∧ warm id p (c + 1) (run (getProductHandler idStr) w0).2
  ∧ loads_of id (trace (run (getProductHandler idStr) w0).2) = loads_of id (trace w).
Proof.
  intros Hid Hp Hc HT (Hdb & Hk & Hh). cbv zeta.
  set (w0 := with_faults [] w).
  set (e := mkEntry (json_Marshal p) (Some T)).
  assert (Backend.lookup (now w0) (redis w0) (redisProductKey id) = Some e) as Hlk.
  { apply lookup_unexpired; [done|]. unfold Backend.expired. simpl.
    apply Z.ltb_ge. exact HT. }
  assert (count_of (Backend.lookup (now w0) (redis w0) (redisProductHitsKey id))
          = Some c) as Hcnt.
  { rewrite (lookup_unexpired _ _ _ _ Hh)
      by (unfold Backend.expired; simpl; apply Z.ltb_ge; exact HT).
    simpl. apply parse_int_fmt_d. unfold math_MinInt64, math_MaxInt64 in *. lia. }
  split.
  { rewrite (getProductHandler_response idStr id w0 Hid).
    rewrite exec_Get_served by done. unfold Backend.get. rewrite Hlk. cbn [fst].
    simpl. by rewrite Hp. }
  destruct (hit_keyspace idStr id w0 e p c Hid eq_refl Hlk Hp Hcnt)
    as (Hdb' & Hnow' & _ & Hhit); [lia|].
  destruct (popularThreshold <=? c + 1) eqn:Hpop; [|unfold popularThreshold in *; lia].
  destruct Hhit as [Hre Htr]. unfold warm, warm_until. split; [split; [|split]|].
  - by rewrite Hdb'.
  - rewrite Hre, Hnow'. cbn [Backend.store kv].
    by rewrite lookup_insert_ne, lookup_insert_eq by apply hits_ne_key.
  - rewrite Hre, Hnow'. cbn [Backend.store kv]. by rewrite lookup_insert_eq.
  - rewrite Htr, loads_of_app. unfold loads_of. simpl. lia.
Qed.

(** A pause of at most 29.5 seconds and the read after it. *)
Lemma pause_then_read
    (idStr : string) (id : Z) (p : Product) (c : Z) (g : list activity) (w : World) :
  strconv_Atoi idStr = Some id →
  readable p →
  1 ≤ c < math_MaxInt64 →
  Forall (aside id) g →
  span g ≤ 29500 →
  warm id p c w →
  let b := g ++ [Fetch idStr []] in
  (∀ i idStr' fs,
     b !! i = Some (Fetch idStr' fs) → strconv_Atoi idStr' = Some id →
     (replay b w).1 !! i = Some (Some (RespJSON p)))
  ∧ warm id p (c + 1) (replay b w).2
  ∧ loads_of id (trace (replay b w).2) = loads_of id (trace w).
Proof.
  intros Hid Hp Hc Hg Hspan Hw. cbv zeta. rewrite replay_app. cbn [fst snd].
  pose proof (span_nonneg id g Hg) as Hpos.
  destruct (asides_keep_warm (now w + 30000) id p c g w Hg Hw) as (Hw1 & Hl1 & Hn1);
    [lia|].
  set (w1 := (replay g w).2) in *.
  destruct (warm_hit idStr id p c (now w + 30000) w1 Hid Hp Hc) as (Hr & Hw2 & Hl2);
    [lia|done|].
  rewrite (replay_step (Fetch idStr []) [] w1). cbn [replay fst snd].
  rewrite perform_Fetch_answer, perform_Fetch_world.
  split; [|split; [done|congruence]].
  intros i idStr' fs Hi Hid'. destruct (decide (i < length g)%nat) as [Hlt|Hge].
  - rewrite lookup_app_l in Hi by done.
    by destruct (Forall_lookup_1 _ _ _ _ Hg Hi).
  - rewrite lookup_app_r in Hi by lia.
    rewrite lookup_app_r by (rewrite replay_length; lia). rewrite replay_length.
    destruct (i - length g)%nat as [|n]; [|by destruct n].
    simpl. by rewrite Hr.
Qed.

Lemma warm_pauses
    (idStr : string) (id : Z) (p : Product) (pauses : list (list activity))
    (c : Z) (w : World) :
  strconv_Atoi idStr = Some id →
  readable p →
  Forall (λ g, Forall (aside id) g ∧ span g ≤ 29500) pauses →
  1 ≤ c →
  c + Z.of_nat (length pauses) ≤ math_MaxInt64 →
  warm id p c w →
  let h := concat (map (λ g, g ++ [Fetch idStr []]) pauses) in
  (∀ i idStr' fs,
     h !! i = Some (Fetch idStr' fs) → strconv_Atoi idStr' = Some id →
     (replay h w).1 !! i = Some (Some (RespJSON p)))
  ∧ warm id p (c + Z.of_nat (length pauses)) (replay h w).2
  ∧ loads_of id (trace (replay h w).2) = loads_of id (trace w).
Proof.
  intros Hid Hp Hpauses. revert c w.
  induction Hpauses as [|g pauses [Hg Hspan] Hpauses IH]; intros c w Hc Hlen Hw; cbv zeta.
  - cbn [map concat replay fst snd length]. rewrite Z.add_0_r.
    split; [by intros i ? ? ?|done].
  - cbn [length] in Hlen. rewrite Nat2Z.inj_succ in Hlen.
    cbn [map concat]. rewrite replay_app. cbn [fst snd].
    destruct (pause_then_read idStr id p c g w Hid Hp) as (Ha & Hw1 & Hl1);
      [lia|done..|].
    set (b := g ++ [Fetch idStr []]) in *.
    destruct (IH (c + 1) (replay b w).2) as (Hb & Hw2 & Hl2); [lia|lia|done|].
    split; [|split].
    + intros i idStr' fs Hi Hid'. destruct (decide (i < length b)%nat) as [Hlt|Hge].
      * rewrite lookup_app_l in Hi by done.
        rewrite lookup_app_l by (by rewrite replay_length). by eapply Ha.
      * rewrite lookup_app_r in Hi by lia.
        rewrite lookup_app_r by (rewrite replay_length; lia). rewrite replay_length.
        by eapply Hb.
    + cbn [length]. rewrite Nat2Z.inj_succ.
      by replace (c + Z.succ (Z.of_nat (length pauses)))
        with (c + 1 + Z.of_nat (length pauses)) by lia.
    + congruence.
Qed.

(** X15: a product that is read at least every 29.5 seconds is read from
    the database once.  Take a first read of [id] that finds no live
    entry, and any number of further reads of [id], each after a pause in
    which anything may happen that is no request for [id] - passes of the
    cleaner, reads and updates of other identifiers, lost calls of
    these - while at most 29.5 seconds go by.  If the reads of [id] lose
    no call and the codec reads the record back, every read of [id]
    answers the record, only the first reads it from the database, and at
    the end the entry and the counter have a full TTL ahead and the
    counter holds the number of reads. *)
Theorem popular_reads_load_once
    (idStr : string) (id : Z) (p : Product) (pauses : list (list activity))
    (w : World) :
  strconv_Atoi idStr = Some id →
  fakeProductDB w !! id = Some p →
  readable p →
  Backend.lookup (now w) (redis w) (redisProductKey id) = None →
  Forall (λ g, Forall (aside id) g ∧ span g ≤ 29500) pauses →
  Z.of_nat (length pauses) < math_MaxInt64 →
  let h := reads_with_pauses idStr pauses in
  (∀ i idStr' fs,
     h !! i = Some (Fetch idStr' fs) → strconv_Atoi idStr' = Some id →
     (replay h w).1 !! i = Some (Some (RespJSON p)))
  ∧ loads_of id (trace (replay h w).2) = S (loads_of id (trace w))
  ∧ warm id p (1 + Z.of_nat (length pauses)) (replay h w).2.
Proof.
  intros Hid Hdb Hp Hcold Hpauses Hlen. cbv zeta. unfold reads_with_pauses.
  rewrite replay_step, perform_Fetch_answer, perform_Fetch_world. cbn [fst snd].
  set (w0 := with_faults [] w).
  assert (cache_miss id w0) as Hmiss.
  { unfold cache_miss. rewrite exec_Get_reply. simpl. by rewrite Hcold. }
  destruct (miss_fill_warm idStr id w0 p Hid Hmiss eq_refl Hdb) as [Hw Hloads].
  destruct (warm_pauses idStr id p pauses 1 (run (getProductHandler idStr) w0).2
              Hid Hp Hpauses) as (Hrs & Hw' & Hloads'); [lia|lia|done|].
  split; [|split; [by rewrite Hloads', Hloads|done]].
  intros [|i] idStr' fs Hi Hid'; [|by eapply Hrs].
  simpl. f_equal. f_equal. rewrite (getProductHandler_response idStr id w0 Hid).
  unfold cache_miss in Hmiss.
  destruct (exec (Redis_Get _) w0).1 as [data|err];
    [rewrite Hmiss|]; unfold miss_response; simpl; by rewrite Hdb.
Qed.

End Popular.

Lemma popular_reads_load_once_witness :
  (replay (reads_with_pauses "1"
             [[Wait 10000; Sweep 1 []; Fetch "2" [true]; Wait 19500];
              [Sweep 1 [true]; Update "3" (json_Marshal (mkProduct 3 "Cherry" 250)) [];
               Wait 29500; Sweep 1 []]]) world0).1 !! 10%nat
  = Some (Some (RespJSON apple100))
  ∧ loads_of 1
      (trace (replay (reads_with_pauses "1"
                [[Wait 10000; Sweep 1 []; Fetch "2" [true]; Wait 19500];
                 [Sweep 1 [true]; Update "3" (json_Marshal (mkProduct 3 "Cherry" 250)) [];
                  Wait 29500; Sweep 1 []]]) world0).2) = 1%nat.
Proof.
  destruct (popular_reads_load_once "1" 1 apple100
              [[Wait 10000; Sweep 1 []; Fetch "2" [true]; Wait 19500];
               [Sweep 1 [true]; Update "3" (json_Marshal (mkProduct 3 "Cherry" 250)) [];
                Wait 29500; Sweep 1 []]] world0) as (Hreads & Hloads & _).
  - reflexivity.
  - reflexivity.
  - vm_compute. reflexivity.
  - reflexivity.
  - repeat constructor; try (simpl; lia); vm_compute; discriminate.
  - vm_compute. reflexivity.
  - split; [|exact Hloads].
    exact (Hreads 10%nat "1"%string [] eq_refl eq_refl).
Defined.
